(** * Taskenhower: ordering, migration and view composition

    A shallow embedding of the final revision of [src/App.jsx]
    (the multi-matrix Eisenhower grid) together with the properties of
    its ordering engine, its schema migration, its view composition and
    its drag-and-drop interpreter.

    Conventions of the embedding.
    - JavaScript numbers that the program uses as identifiers, array
      indices and [order] values are integers ([Z]) or naturals.
    - A task or matrix object is a record.  A field that the program
      probes for presence ([t.matrixId], [t.tag], [typeof t.order ===
      "number"], the timestamps) is an [option].
    - [urgency] and [status] are the enumerations of the persisted JSON
      shape.
    - React state is one record [app]; every handler is a function from
      [app] to [app] (the functional updates [setTasks (prev => ...)]
      are applied to the current snapshot).  [Date.now ()] and
      [new Date ().toISOString ()] are inputs of the handlers.
    - A [Map] whose iteration order is observed is an insertion-ordered
      association list ([JsMap]); a [Map] that is only looked up is a
      [gmap].
    - A string is a sequence of 8-bit characters.  [trim] and
      [toLowerCase] are those of the code on ASCII text ([asciiText]);
      on other text the code also strips and lowers characters outside
      ASCII.
    - Arithmetic on [order] values is exact, as it is in the code up to
      [Number.MAX_SAFE_INTEGER]. *)

From stdpp Require Import base decidable option list gmap strings sorting pretty.
From Stdlib Require Import ZArith.

(** ** Data model *)

Inductive urgency := High | Medium | Low | NoUrgency.
Inductive status := NotDone | Completed | Archived | Deleted.

#[global] Instance urgency_eq_dec : EqDecision urgency.
Proof. solve_decision. Defined.
#[global] Instance status_eq_dec : EqDecision status.
Proof. solve_decision. Defined.

(** [const urgencyLevels = ["High", "Medium", "Low", "None"]] *)
Definition urgencyLevels : list urgency := [High; Medium; Low; NoUrgency].

Definition urgencyName (u : urgency) : string :=
  match u with
  | High => "High" | Medium => "Medium" | Low => "Low" | NoUrgency => "None"
  end.

Record task := mkTask {
  t_id : Z;
  t_text : string;
  t_matrixId : option string;
  t_tag : option string;
  t_urgency : urgency;
  t_status : status;
  t_order : option Z;
  t_createdAt : option string;
  t_archivedAt : option string;
  t_deletedAt : option string
}.

#[global] Instance task_eq_dec : EqDecision task.
Proof. solve_decision. Defined.

Record matrix := mkMatrix {
  m_id : string;
  m_name : string;
  m_pinned : bool
}.

#[global] Instance matrix_eq_dec : EqDecision matrix.
Proof. solve_decision. Defined.

(** The draft of the "new task" form. *)
Record draft := mkDraft {
  d_text : string;
  d_matrixId : string;
  d_urgency : urgency
}.

(** Object spreads [{ ...t, field: v }] on a task. *)
Definition with_matrixId (v : option string) (t : task) : task :=
  mkTask (t_id t) (t_text t) v (t_tag t) (t_urgency t) (t_status t)
         (t_order t) (t_createdAt t) (t_archivedAt t) (t_deletedAt t).
Definition without_tag (t : task) : task :=
  mkTask (t_id t) (t_text t) (t_matrixId t) None (t_urgency t) (t_status t)
         (t_order t) (t_createdAt t) (t_archivedAt t) (t_deletedAt t).
Definition with_text (v : string) (t : task) : task :=
  mkTask (t_id t) v (t_matrixId t) (t_tag t) (t_urgency t) (t_status t)
         (t_order t) (t_createdAt t) (t_archivedAt t) (t_deletedAt t).
Definition with_urgency (v : urgency) (t : task) : task :=
  mkTask (t_id t) (t_text t) (t_matrixId t) (t_tag t) v (t_status t)
         (t_order t) (t_createdAt t) (t_archivedAt t) (t_deletedAt t).
Definition with_status (v : status) (t : task) : task :=
  mkTask (t_id t) (t_text t) (t_matrixId t) (t_tag t) (t_urgency t) v
         (t_order t) (t_createdAt t) (t_archivedAt t) (t_deletedAt t).
Definition with_order (v : option Z) (t : task) : task :=
  mkTask (t_id t) (t_text t) (t_matrixId t) (t_tag t) (t_urgency t) (t_status t)
         v (t_createdAt t) (t_archivedAt t) (t_deletedAt t).
Definition with_archivedAt (v : option string) (t : task) : task :=
  mkTask (t_id t) (t_text t) (t_matrixId t) (t_tag t) (t_urgency t) (t_status t)
         (t_order t) (t_createdAt t) v (t_deletedAt t).
Definition with_deletedAt (v : option string) (t : task) : task :=
  mkTask (t_id t) (t_text t) (t_matrixId t) (t_tag t) (t_urgency t) (t_status t)
         (t_order t) (t_createdAt t) (t_archivedAt t) v.

(** [const DEFAULT_MATRICES] *)
Definition DEFAULT_MATRICES : list matrix :=
  [ mkMatrix "work" "Work" true;
    mkMatrix "personal" "Personal" true;
    mkMatrix "goals" "Goals" true ].

(** ** JavaScript helpers *)

(** Truthiness of a string ([!s] is true exactly for the empty string). *)
Definition truthy (s : string) : bool := bool_decide (s ≠ "").

(** Truthiness of a possibly absent string field. *)
Definition truthyField (o : option string) : bool :=
  match o with Some s => truthy s | None => false end.

(** [String.prototype.trim], on the ASCII white space characters. *)
Definition isSpace (c : Ascii.ascii) : bool :=
  let n := Ascii.nat_of_ascii c in
  bool_decide (n = 32) || (bool_decide (9 ≤ n) && bool_decide (n ≤ 13)).

Fixpoint trimStart (s : string) : string :=
  match s with
  | String c r => if isSpace c then trimStart r else s
  | EmptyString => EmptyString
  end.

Fixpoint trimEnd (s : string) : string :=
  match s with
  | String c r =>
      match trimEnd r with
      | EmptyString => if isSpace c then EmptyString else String c EmptyString
      | r' => String c r'
      end
  | EmptyString => EmptyString
  end.

Definition trim (s : string) : string := trimEnd (trimStart s).

(** [Array.prototype.indexOf]; [None] stands for [-1]. *)
Fixpoint indexOf `{EqDecision A} (x : A) (l : list A) : option nat :=
  match l with
  | [] => None
  | y :: r => if decide (y = x) then Some 0 else S <$> indexOf x r
  end.

(** [Array.prototype.includes]. *)
Definition includes `{EqDecision A} (x : A) (l : list A) : bool :=
  bool_decide (x ∈ l).

(** [Array.prototype.sort] with a comparator returning a number: a stable
    sort; an element goes before the first element it does not exceed. *)
Fixpoint insertBy {A} (cmp : A → A → Z) (x : A) (l : list A) : list A :=
  match l with
  | [] => [x]
  | y :: r => if (cmp x y <=? 0)%Z then x :: y :: r else y :: insertBy cmp x r
  end.

Definition sortBy {A} (cmp : A → A → Z) (l : list A) : list A :=
  foldr (insertBy cmp) [] l.

(** [function arrayMove (items, from, to)]:
    [next.splice (from, 1)] removes the element at [from] and
    [next.splice (to, 0, removed)] inserts it at [to] (clamped to the
    length).  The interpreter calls it with two indices found by
    [indexOf], so [from] is in range; out of range JavaScript would
    insert [undefined], which the element type does not have, and the
    embedding returns the array as it is. *)
Definition arrayMove {A} (items : list A) (from to : nat) : list A :=
  match items !! from with
  | Some removed =>
      let next := take from items ++ drop (S from) items in
      take to next ++ removed :: drop to next
  | None => items
  end.

(** An insertion-ordered [Map]. *)
Module JsMap.
Section JsMap.
Context {K V : Type} `{EqDecision K}.

Definition t := list (K * V).

Fixpoint get (k : K) (m : t) : option V :=
  match m with
  | [] => None
  | (k', v) :: r => if decide (k' = k) then Some v else get k r
  end.

Definition has (k : K) (m : t) : bool := bool_decide (is_Some (get k m)).

(** [set] keeps the position of a key that is already present. *)
Fixpoint set (k : K) (v : V) (m : t) : t :=
  match m with
  | [] => [(k, v)]
  | (k', v') :: r =>
      if decide (k' = k) then (k', v) :: r else (k', v') :: set k v r
  end.

(** [new Map (entries)] *)
Definition ofEntries (entries : list (K * V)) : t :=
  foldl (λ m e, set e.1 e.2 m) [] entries.

(** [Array.from (m.values ())] *)
Definition values (m : t) : list V := m.*2.

Definition keys (m : t) : list K := m.*1.
End JsMap.
End JsMap.

(** An insertion-ordered [Set]. *)
Module JsSet.
Section JsSet.
Context {K : Type} `{EqDecision K}.

Definition add (k : K) (s : list K) : list K :=
  if decide (k ∈ s) then s else s ++ [k].

(** [new Set (items)] *)
Definition ofList (items : list K) : list K :=
  foldl (λ s k, add k s) [] items.
End JsSet.
End JsSet.

(** ** Ordering engine *)

(** [typeof t.order === "number" ? t.order : 0] *)
Definition orderOrZero (t : task) : Z := default 0%Z (t_order t).

(** The comparator of the canonical sort: [order] ascending, then [id]. *)
Definition compareTasks (a b : task) : Z :=
  let ao := orderOrZero a in
  let bo := orderOrZero b in
  if decide (ao ≠ bo) then (ao - bo)%Z else (t_id a - t_id b)%Z.

Definition isLive (t : task) : bool :=
  bool_decide (t_status t ≠ Archived) && bool_decide (t_status t ≠ Deleted).

(** The filter shared by [normalizeOrders] and the reorder branch of
    [handleDragEnd]. *)
Definition inScope (matrixId : option string) (u : urgency) (t : task) : bool :=
  bool_decide (t_matrixId t = matrixId) && bool_decide (t_urgency t = u)
  && isLive t.

(** The canonical live list of a scope. *)
Definition scopeGroup (allTasks : list task) (matrixId : option string)
    (u : urgency) : list task :=
  sortBy compareTasks (filter (λ t, inScope matrixId u t) allTasks).

(** [function getNextOrder (allTasks, matrixId, urgency)] *)
Definition getNextOrder (allTasks : list task) (matrixId : option string)
    (u : urgency) : Z :=
  let max :=
    foldl (λ m t, Z.max m (orderOrZero t)) (-1)%Z
      (filter (λ t, inScope matrixId u t && bool_decide (is_Some (t_order t)))
              allTasks) in
  (max + 1)%Z.

(** [ids.forEach ((id, idx) => map.set (id, idx))] on a fresh [Map]. *)
Fixpoint indexMapFrom (idx : nat) (ids : list Z) (m : gmap Z nat) : gmap Z nat :=
  match ids with
  | [] => m
  | id :: r => indexMapFrom (S idx) r (<[id := idx]> m)
  end.

Definition indexMap (ids : list Z) : gmap Z nat := indexMapFrom 0 ids ∅.

(** [allTasks.map (t => updates.has (t.id) ? { ...t, order: updates.get
    (t.id) } : t)], the closing step of [normalizeOrders] and of the
    reorder branch of [handleDragEnd]. *)
Definition applyOrders (updates : gmap Z nat) (allTasks : list task) : list task :=
  (λ t, match updates !! t_id t with
        | Some idx => with_order (Some (Z.of_nat idx)) t
        | None => t
        end) <$> allTasks.

(** [function normalizeOrders (allTasks, matrixId, urgency)] *)
Definition normalizeOrders (allTasks : list task) (matrixId : option string)
    (u : urgency) : list task :=
  let group := scopeGroup allTasks matrixId u in
  let updates := indexMap (t_id <$> group) in
  applyOrders updates allTasks.

(** ** Schema and migration *)

(** The callback of [DEFAULT_MATRICES.forEach] in
    [ensureDefaultPinnedMatrices]. *)
Definition ensureDefault (byId : list (string * matrix)) (m : matrix)
    : list (string * matrix) :=
  if negb (JsMap.has (m_id m) byId) then JsMap.set (m_id m) m byId
  else
    match JsMap.get (m_id m) byId with
    | Some existing =>
        JsMap.set (m_id m) (mkMatrix (m_id existing) (m_name m) true) byId
    | None => byId
    end.

(** [list.map ((m) => [m.id, m])] *)
Definition byIdEntries (stored : list matrix) : list (string * matrix) :=
  (λ m, (m_id m, m)) <$> stored.

(** [function ensureDefaultPinnedMatrices (list)] *)
Definition ensureDefaultPinnedMatrices (stored : list matrix) : list matrix :=
  let byId := JsMap.ofEntries (byIdEntries stored) in
  let byId := foldl ensureDefault byId DEFAULT_MATRICES in
  JsMap.values byId.

(** The callback of the first [map] of [migrateTasks]. *)
Definition migrateTag (t : task) : task :=
  if truthyField (t_matrixId t) then t
  else
    let tag := t_tag t in
    let matrixId := "work" in
    let matrixId :=
      if decide (tag = Some "Personal") then "personal" else matrixId in
    let matrixId :=
      if decide (tag = Some "Goals") then "goals" else matrixId in
    with_matrixId (Some matrixId) (without_tag t).

(** The key [`${t.matrixId}__${t.urgency}`] of the backfill counters. *)
Definition scopeKey (t : task) : string :=
  default "undefined" (t_matrixId t) +:+ "__" +:+ urgencyName (t_urgency t).

(** The second [map] of [migrateTasks], which threads the [counters]. *)
Fixpoint backfillOrders (counters : gmap string Z) (l : list task) : list task :=
  match l with
  | [] => []
  | t :: r =>
      let key := scopeKey t in
      let next := default 0%Z (counters !! key) in
      with_order (Some next) t :: backfillOrders (<[key := (next + 1)%Z]> counters) r
  end.

(** [function migrateTasks (allTasks)] *)
Definition migrateTasks (allTasks : list task) : list task :=
  let migrated := migrateTag <$> allTasks in
  let hasAnyOrder := existsb (λ t, bool_decide (is_Some (t_order t))) migrated in
  if hasAnyOrder then migrated else backfillOrders ∅ migrated.

(** ** Application state *)

Record app := mkApp {
  tasks : list task;
  matrices : list matrix;
  activePinnedIds : list string;
  focusMatrixId : string;
  viewOrderIds : list string;
  lastSelectedMatrixId : string;
  newTask : draft;
  editingTaskId : option Z;
  editDraft : string;
  importError : string;
  importOk : string
}.

Definition setTasks (v : list task) (s : app) : app :=
  mkApp v (matrices s) (activePinnedIds s) (focusMatrixId s) (viewOrderIds s)
        (lastSelectedMatrixId s) (newTask s) (editingTaskId s) (editDraft s)
        (importError s) (importOk s).
Definition setMatrices (v : list matrix) (s : app) : app :=
  mkApp (tasks s) v (activePinnedIds s) (focusMatrixId s) (viewOrderIds s)
        (lastSelectedMatrixId s) (newTask s) (editingTaskId s) (editDraft s)
        (importError s) (importOk s).
Definition setActivePinnedIds (v : list string) (s : app) : app :=
  mkApp (tasks s) (matrices s) v (focusMatrixId s) (viewOrderIds s)
        (lastSelectedMatrixId s) (newTask s) (editingTaskId s) (editDraft s)
        (importError s) (importOk s).
Definition setFocusMatrixId (v : string) (s : app) : app :=
  mkApp (tasks s) (matrices s) (activePinnedIds s) v (viewOrderIds s)
        (lastSelectedMatrixId s) (newTask s) (editingTaskId s) (editDraft s)
        (importError s) (importOk s).
Definition setViewOrderIds (v : list string) (s : app) : app :=
  mkApp (tasks s) (matrices s) (activePinnedIds s) (focusMatrixId s) v
        (lastSelectedMatrixId s) (newTask s) (editingTaskId s) (editDraft s)
        (importError s) (importOk s).
Definition setLastSelectedMatrixId (v : string) (s : app) : app :=
  mkApp (tasks s) (matrices s) (activePinnedIds s) (focusMatrixId s)
        (viewOrderIds s) v (newTask s) (editingTaskId s) (editDraft s)
        (importError s) (importOk s).
Definition setNewTask (v : draft) (s : app) : app :=
  mkApp (tasks s) (matrices s) (activePinnedIds s) (focusMatrixId s)
        (viewOrderIds s) (lastSelectedMatrixId s) v (editingTaskId s)
        (editDraft s) (importError s) (importOk s).
Definition setEditingTaskId (v : option Z) (s : app) : app :=
  mkApp (tasks s) (matrices s) (activePinnedIds s) (focusMatrixId s)
        (viewOrderIds s) (lastSelectedMatrixId s) (newTask s) v
        (editDraft s) (importError s) (importOk s).
Definition setEditDraft (v : string) (s : app) : app :=
  mkApp (tasks s) (matrices s) (activePinnedIds s) (focusMatrixId s)
        (viewOrderIds s) (lastSelectedMatrixId s) (newTask s) (editingTaskId s)
        v (importError s) (importOk s).
Definition setImportError (v : string) (s : app) : app :=
  mkApp (tasks s) (matrices s) (activePinnedIds s) (focusMatrixId s)
        (viewOrderIds s) (lastSelectedMatrixId s) (newTask s) (editingTaskId s)
        (editDraft s) v (importOk s).
Definition setImportOk (v : string) (s : app) : app :=
  mkApp (tasks s) (matrices s) (activePinnedIds s) (focusMatrixId s)
        (viewOrderIds s) (lastSelectedMatrixId s) (newTask s) (editingTaskId s)
        (editDraft s) (importError s) v.

(** The state of the first render: [useState] initial values. *)
Definition initialApp : app :=
  mkApp [] DEFAULT_MATRICES (m_id <$> DEFAULT_MATRICES) "none"
        (m_id <$> DEFAULT_MATRICES) "work" (mkDraft "" "work" Medium)
        None "" "" "".

(** ** View composition *)

(** [const selectedMatrixIds = useMemo (...)], as a function of
    [matrices], [activePinnedIds], [focusMatrixId] and [viewOrderIds]. *)
Definition computeSelectedMatrixIds (matrices : list matrix)
    (activePinnedIds : list string) (focusMatrixId : string)
    (viewOrderIds : list string) : list string :=
  let validIds : gset string := list_to_set (m_id <$> matrices) in
  let activeSet := JsSet.ofList activePinnedIds in
  let activeSet :=
    if decide (focusMatrixId ≠ "none") then JsSet.add focusMatrixId activeSet
    else activeSet in
  let ordered :=
    filter (λ id, id ∈ activeSet) (filter (λ id, id ∈ validIds) viewOrderIds) in
  foldl (λ ordered id,
           if bool_decide (id ∈ validIds) && negb (includes id ordered)
           then ordered ++ [id] else ordered)
        ordered activeSet.

Definition selectedMatrixIds (s : app) : list string :=
  computeSelectedMatrixIds (matrices s) (activePinnedIds s) (focusMatrixId s)
                           (viewOrderIds s).

(** [const showMatrixBadges = selectedMatrixIds.length > 1] *)
Definition showMatrixBadges (s : app) : bool :=
  bool_decide (1 < length (selectedMatrixIds s)).

(** ** Mutation operations *)

(** [tasks.map (t => t.id === id ? f (t) : t)] *)
Definition mapTaskById (id : Z) (f : task → task) (l : list task) : list task :=
  (λ t, if decide (t_id t = id) then f t else t) <$> l.

(** [const mergeMatrixInto = (sourceId, destId) => ...] *)
Definition mergeMatrixInto (sourceId destId : string) (s : app) : app :=
  if negb (truthy sourceId) || bool_decide (sourceId = "none") then s
  else if negb (truthy destId) || bool_decide (sourceId = destId) then s
  else
    let moved :=
      (λ t, if decide (t_matrixId t = Some sourceId)
            then with_matrixId (Some destId) t else t) <$> tasks s in
    let next :=
      foldl (λ next u, normalizeOrders next (Some destId) u) moved urgencyLevels in
    setLastSelectedMatrixId destId
      (setViewOrderIds (filter (λ id, id ≠ sourceId) (viewOrderIds s))
         (setFocusMatrixId "none"
            (setMatrices (filter (λ m, m_id m ≠ sourceId) (matrices s))
               (setTasks next s)))).

(** [const deleteMatrixArchiveTasks = (matrixId) => ...] *)
Definition deleteMatrixArchiveTasks (matrixId : string) (nowIso : string)
    (s : app) : app :=
  if negb (truthy matrixId) || bool_decide (matrixId = "none") then s
  else
    let next :=
      (λ t, if bool_decide (t_matrixId t = Some matrixId)
               && bool_decide (t_status t ≠ Deleted)
            then with_archivedAt (Some nowIso) (with_status Archived t)
            else t) <$> tasks s in
    let fallback := default "work" (head (activePinnedIds s)) in
    setLastSelectedMatrixId fallback
      (setViewOrderIds (filter (λ id, id ≠ matrixId) (viewOrderIds s))
         (setFocusMatrixId "none"
            (setMatrices (filter (λ m, m_id m ≠ matrixId) (matrices s))
               (setTasks next s)))).

(** [const addTask = () => ...]; [now] is [Date.now ()] and [nowIso] is
    [new Date ().toISOString ()]. *)
Definition addTask (now : Z) (nowIso : string) (s : app) : app :=
  let d := newTask s in
  if negb (truthy (trim (d_text d))) then s
  else
    let nextOrder := getNextOrder (tasks s) (Some (d_matrixId d)) (d_urgency d) in
    setNewTask (mkDraft "" (d_matrixId d) Medium)
      (setTasks
         (tasks s ++
          [mkTask now (d_text d) (Some (d_matrixId d)) None (d_urgency d)
                  NotDone (Some nextOrder) (Some nowIso) None None])
         s).

(** [const toggleComplete = (id) => ...] *)
Definition toggleComplete (id : Z) (s : app) : app :=
  setTasks
    (mapTaskById id
       (λ t, with_status
               (if decide (t_status t = Completed) then NotDone else Completed) t)
       (tasks s))
    s.

(** [const archiveTask = (id) => ...] *)
Definition archiveTask (id : Z) (nowIso : string) (s : app) : app :=
  setTasks
    (mapTaskById id
       (λ t, with_archivedAt (Some nowIso) (with_status Archived t)) (tasks s))
    s.

(** [const unarchiveTask = (id) => ...] *)
Definition unarchiveTask (id : Z) (s : app) : app :=
  setTasks
    (mapTaskById id (λ t, with_archivedAt None (with_status NotDone t)) (tasks s))
    s.

(** [const deleteTask = (id) => ...] *)
Definition deleteTask (id : Z) (nowIso : string) (s : app) : app :=
  let s :=
    if decide (editingTaskId s = Some id)
    then setEditDraft "" (setEditingTaskId None s) else s in
  setTasks
    (mapTaskById id
       (λ t, with_deletedAt (Some nowIso) (with_status Deleted t)) (tasks s))
    s.

(** The "Clear" button of the deleted list. *)
Definition clearDeleted (s : app) : app :=
  setTasks (filter (λ t, t_status t ≠ Deleted) (tasks s)) s.

(** Inline edit handlers. *)
Definition startEdit (t : task) (s : app) : app :=
  setEditDraft (t_text t) (setEditingTaskId (Some (t_id t)) s).

Definition cancelEdit (s : app) : app :=
  setEditDraft "" (setEditingTaskId None s).

Definition commitEdit (s : app) : app :=
  match editingTaskId s with
  | None => s
  | Some editing =>
      let nextText := trim (editDraft s) in
      if negb (truthy nextText) then cancelEdit s
      else
        setEditDraft ""
          (setEditingTaskId None
             (setTasks (mapTaskById editing (with_text nextText) (tasks s)) s))
  end.

(** ** Export / import *)

(** What [JSON.parse (await file.text ())] yields, as far as
    [importDataFromFile] inspects it.  The elements of the two arrays
    are taken as records of the persisted shape. *)
Inductive jsonField (A : Type) :=
  | NotAnArray
  | AnArray (items : list A).
Arguments NotAnArray {A}.
Arguments AnArray {A} items.

Inductive parseResult :=
  | ParseError (message : string)
  | NotAnObject
  | AnObject (matricesField : jsonField matrix) (tasksField : jsonField task).

(** [const importDataFromFile = async (file) => ...] *)
Definition importDataFromFile (file : parseResult) (s : app) : app :=
  let s := setImportOk "" (setImportError "" s) in
  match file with
  | ParseError message =>
      setImportError (if truthy message then message else "Import failed.") s
  | NotAnObject => setImportError "Invalid file format." s
  | AnObject (AnArray incomingMatrices) (AnArray incomingTasks) =>
      let normalizedMatrices := ensureDefaultPinnedMatrices incomingMatrices in
      let migratedTasks := migrateTasks incomingTasks in
      let pinned := m_id <$> filter (λ m, m_pinned m) normalizedMatrices in
      let first := default "work" (head pinned) in
      setImportOk "Imported successfully."
        (setNewTask (mkDraft (d_text (newTask s)) first (d_urgency (newTask s)))
           (setLastSelectedMatrixId first
              (setFocusMatrixId "none"
                 (setViewOrderIds pinned
                    (setActivePinnedIds pinned
                       (setTasks migratedTasks
                          (setMatrices normalizedMatrices s)))))))
  | AnObject _ _ =>
      setImportError
        "Import file must include both 'matrices' and 'tasks' arrays." s
  end.

(** ** Drag-and-drop interpreter *)

(** The id of the droppable under the pointer: a quadrant (its urgency
    level) or a task row (the task id). *)
Inductive dropId :=
  | OverQuadrant (u : urgency)
  | OverTask (id : Z).

(** [function getTaskById (id)] *)
Definition getTaskById (s : app) (id : Z) : option task :=
  List.find (λ t, bool_decide (t_id t = id)) (tasks s).

(** The [setTasks] callback of the two "move" branches: the dragged task
    goes to the bottom of [u] and the vacated scope is renormalised. *)
Definition moveToUrgency (activeTask : task) (activeId : Z) (u : urgency)
    (prev : list task) : list task :=
  let nextOrder := getNextOrder prev (t_matrixId activeTask) u in
  let moved :=
    mapTaskById activeId
      (λ t, with_order (Some nextOrder) (with_urgency u t)) prev in
  normalizeOrders moved (t_matrixId activeTask) (t_urgency activeTask).

(** The [setTasks] callback of the reorder branch. *)
Definition reorderWithin (activeTask : task) (activeId overId : Z)
    (prev : list task) : list task :=
  let group := scopeGroup prev (t_matrixId activeTask) (t_urgency activeTask) in
  let ids := t_id <$> group in
  match indexOf activeId ids, indexOf overId ids with
  | Some oldIndex, Some newIndex =>
      let movedIds := arrayMove ids oldIndex newIndex in
      applyOrders (indexMap movedIds) prev
  | _, _ => prev
  end.

(** [const handleDragEnd = ({ active, over }) => ...] *)
Definition handleDragEnd (activeId : Z) (over : option dropId) (s : app) : app :=
  match over with
  | None => s
  | Some overId =>
      match getTaskById s activeId with
      | None => s
      | Some activeTask =>
          if negb (bool_decide (t_matrixId activeTask ∈ Some <$> selectedMatrixIds s))
          then s
          else
            match overId with
            | OverQuadrant u =>
                if decide (t_urgency activeTask = u) then s
                else setTasks (moveToUrgency activeTask activeId u (tasks s)) s
            | OverTask overTaskId =>
                match getTaskById s overTaskId with
                | None => s
                | Some overTask =>
                    if decide (t_matrixId overTask ≠ t_matrixId activeTask) then s
                    else if decide (t_urgency overTask ≠ t_urgency activeTask) then
                      setTasks
                        (moveToUrgency activeTask activeId (t_urgency overTask)
                                       (tasks s)) s
                    else if decide (activeId = overTaskId) then s
                    else
                      setTasks
                        (reorderWithin activeTask activeId overTaskId (tasks s)) s
                end
            end
      end
  end.

(** ** Matrix ids *)

(** [String.prototype.toLowerCase], on the ASCII letters. *)
Definition toLowerChar (c : Ascii.ascii) : Ascii.ascii :=
  let n := Ascii.nat_of_ascii c in
  if bool_decide (65 ≤ n) && bool_decide (n ≤ 90)
  then Ascii.ascii_of_nat (n + 32) else c.

Fixpoint toLowerCase (s : string) : string :=
  match s with
  | EmptyString => EmptyString
  | String c r => String (toLowerChar c) (toLowerCase r)
  end.

(** The character class [[a-z0-9]]. *)
Definition isSlugChar (c : Ascii.ascii) : bool :=
  let n := Ascii.nat_of_ascii c in
  (bool_decide (97 ≤ n) && bool_decide (n ≤ 122))
  || (bool_decide (48 ≤ n) && bool_decide (n ≤ 57)).

(** The character ["-"]. *)
Definition hyphen : Ascii.ascii := Ascii.ascii_of_nat 45.
Arguments hyphen : simpl never.

(** [.replace (/[^a-z0-9]+/g, "-")]: every maximal run of characters
    outside the class becomes one hyphen.  [inRun] tells that the
    previous character belongs to such a run. *)
Fixpoint replaceRuns (inRun : bool) (s : string) : string :=
  match s with
  | EmptyString => EmptyString
  | String c r =>
      if isSlugChar c then String c (replaceRuns false r)
      else if inRun then replaceRuns true r
      else String hyphen (replaceRuns true r)
  end.

(** The second [replace] of [slugify], with the pattern [/(^-|-$)/g]
    and the empty replacement: a hyphen at the start is removed, and a
    hyphen at the end of what follows. *)
Definition stripLeadingHyphen (s : string) : string :=
  match s with
  | String c r => if decide (c = hyphen) then r else s
  | EmptyString => EmptyString
  end.

Fixpoint stripTrailingHyphen (s : string) : string :=
  match s with
  | EmptyString => EmptyString
  | String c EmptyString => if decide (c = hyphen) then EmptyString else s
  | String c r => String c (stripTrailingHyphen r)
  end.

(** [function slugify (input)] *)
Definition slugify (input : string) : string :=
  stripTrailingHyphen
    (stripLeadingHyphen (replaceRuns false (trim (toLowerCase input)))).

(** The [while] loop of [makeUniqueMatrixId]: [id] is the candidate and
    [n] the next suffix.  Every round but the last finds [id] among the
    ids of the list, so [fuel] bounds the rounds. *)
Fixpoint makeUniqueMatrixId_loop (fuel : nat) (baseId : string)
    (stored : list matrix) (id : string) (n : nat) : option string :=
  if existsb (λ m, bool_decide (m_id m = id)) stored then
    match fuel with
    | 0 => None
    | S fuel =>
        makeUniqueMatrixId_loop fuel baseId stored
          (baseId +:+ "-" +:+ pretty n) (S n)
    end
  else Some id.

(** [function makeUniqueMatrixId (baseId, list)] *)
Definition makeUniqueMatrixId (baseId : string) (stored : list matrix)
    : option string :=
  makeUniqueMatrixId_loop (length stored) baseId stored baseId 2.

(** ** Matrix and selection handlers *)

(** [const pinnedMatrices = useMemo (...)] and [const focusCandidates =
    useMemo (...)] *)
Definition pinnedMatrices (s : app) : list matrix :=
  filter (λ m, m_pinned m) (matrices s).

Definition focusCandidates (s : app) : list matrix :=
  filter (λ m, negb (m_pinned m)) (matrices s).

(** [const addMatrix = () => ...]; [newMatrixName] is the text of the
    input, and the first component of the result is its new value. *)
Definition addMatrix (newMatrixName : string) (s : app) : string * app :=
  let name := trim newMatrixName in
  if negb (truthy name) then (newMatrixName, s)
  else
    let baseId := slugify name in
    if negb (truthy baseId) then (newMatrixName, s)
    else
      match makeUniqueMatrixId baseId (matrices s) with
      | Some uniqueId =>
          ("",
           setNewTask (mkDraft (d_text (newTask s)) uniqueId (d_urgency (newTask s)))
             (setLastSelectedMatrixId uniqueId
                (setViewOrderIds
                   (filter (λ id, id ≠ uniqueId) (viewOrderIds s) ++ [uniqueId])
                   (setFocusMatrixId uniqueId
                      (setMatrices
                         (matrices s ++ [mkMatrix uniqueId name false]) s)))))
      | None => (newMatrixName, s)
      end.

(** The [onClick] of the toggle button of the pinned matrix [id]. *)
Definition togglePinned (id : string) (s : app) : app :=
  let willBeActive := negb (includes id (activePinnedIds s)) in
  let nextActive :=
    if includes id (activePinnedIds s)
    then filter (λ x, x ≠ id) (activePinnedIds s)
    else activePinnedIds s ++ [id] in
  let nextView :=
    if willBeActive then filter (λ x, x ≠ id) (viewOrderIds s) ++ [id]
    else filter (λ x, x ≠ id) (viewOrderIds s) in
  let s' := setViewOrderIds nextView (setActivePinnedIds nextActive s) in
  if willBeActive then setLastSelectedMatrixId id s' else s'.

(** [replaced.filter ((id) => ...)] with the [seen] set: drops ["none"]
    and every id after its first occurrence. *)
Fixpoint dedupeSeen (seen : list string) (l : list string) : list string :=
  match l with
  | [] => []
  | id :: r =>
      if decide (id = "none") then dedupeSeen seen r
      else if decide (id ∈ seen) then dedupeSeen seen r
      else id :: dedupeSeen (JsSet.add id seen) r
  end.

(** The callback that [setViewOrderIds] is given by the focus select. *)
Definition focusViewOrder (prevFocus next : string) (prev : list string)
    : list string :=
  let nextOrder := filter (λ id, id ≠ prevFocus) prev in
  if decide (next = "none") then nextOrder
  else
    match (if decide (prevFocus ≠ "none") then indexOf prevFocus prev else None) with
    | Some prevIdx => dedupeSeen [] (<[prevIdx := next]> prev)
    | None => if includes next nextOrder then nextOrder else nextOrder ++ [next]
    end.

(** The [onChange] of the focus select; [next] is the chosen value. *)
Definition changeFocus (next : string) (s : app) : app :=
  let prevFocus := focusMatrixId s in
  let s' :=
    setViewOrderIds (focusViewOrder prevFocus next (viewOrderIds s))
      (setFocusMatrixId next s) in
  if decide (next ≠ "none") then setLastSelectedMatrixId next s' else s'.

(** The effect that drops a focus whose matrix is gone. *)
Definition healFocus (s : app) : app :=
  if decide (focusMatrixId s = "none") then s
  else if existsb (λ m, bool_decide (m_id m = focusMatrixId s)) (matrices s) then s
  else
    setViewOrderIds (filter (λ id, id ≠ focusMatrixId s) (viewOrderIds s))
      (setFocusMatrixId "none" s).

(** The effect that keeps the matrix of an empty draft aligned with the
    last selected matrix. *)
Definition alignNewTask (s : app) : app :=
  if decide (trim (d_text (newTask s)) ≠ "") then s
  else if decide (d_matrixId (newTask s) = lastSelectedMatrixId s) then s
  else
    setNewTask (mkDraft (d_text (newTask s)) (lastSelectedMatrixId s)
                        (d_urgency (newTask s))) s.

(** The three inputs of the "new task" form. *)
Definition changeNewTaskText (text : string) (s : app) : app :=
  setNewTask (mkDraft text (d_matrixId (newTask s)) (d_urgency (newTask s))) s.

Definition changeNewTaskMatrix (id : string) (s : app) : app :=
  setLastSelectedMatrixId id
    (setNewTask (mkDraft (d_text (newTask s)) id (d_urgency (newTask s))) s).

Definition changeNewTaskUrgency (u : urgency) (s : app) : app :=
  setNewTask (mkDraft (d_text (newTask s)) (d_matrixId (newTask s)) u) s.

(** [const focusMatrix = focusMatrixId === "none" ? null :
    matrices.find ((m) => m.id === focusMatrixId)] *)
Definition focusMatrix (s : app) : option matrix :=
  if decide (focusMatrixId s = "none") then None
  else List.find (λ m, bool_decide (m_id m = focusMatrixId s)) (matrices s).

(** What [localStorage.getItem] and [safeJsonParse] give the load
    effect: no item (or an empty one), an item that does not parse, or
    the parsed array, whose elements are taken as records of the
    persisted shape. *)
Inductive storedItem (A : Type) :=
  | NoItem
  | Unparsable
  | Parsed (items : list A).
Arguments NoItem {A}.
Arguments Unparsable {A}.
Arguments Parsed {A} items.

(** The load effect of the first render. *)
Definition loadEffect (storedMatrices : storedItem matrix)
    (storedTasks : storedItem task) (s : app) : app :=
  let loadedMatrices :=
    match storedMatrices with Parsed l => l | _ => DEFAULT_MATRICES end in
  let normalizedMatrices := ensureDefaultPinnedMatrices loadedMatrices in
  let loadedTasks := match storedTasks with Parsed l => l | _ => [] end in
  let migratedTasks := migrateTasks loadedTasks in
  let pinned := m_id <$> filter (λ m, m_pinned m) normalizedMatrices in
  let first := default "work" (head pinned) in
  setNewTask (mkDraft (d_text (newTask s)) first (d_urgency (newTask s)))
    (setLastSelectedMatrixId first
       (setViewOrderIds pinned
          (setActivePinnedIds pinned
             (setTasks migratedTasks (setMatrices normalizedMatrices s))))).

(** ** The quadrant view *)

(** [new Map (selectedIds.map ((id, idx) => [id, idx]))] *)
Fixpoint matrixOrderFrom (idx : nat) (ids : list string) (m : gmap string nat)
    : gmap string nat :=
  match ids with
  | [] => m
  | id :: r => matrixOrderFrom (S idx) r (<[id := idx]> m)
  end.

Definition matrixOrder (selectedIds : list string) : gmap string nat :=
  matrixOrderFrom 0 selectedIds ∅.

(** [const matrixNameById = useMemo (...)] *)
Definition matrixNameById (s : app) : gmap string string :=
  foldl (λ map m, <[m_id m := m_name m]> map) ∅ (matrices s).

Section Visible.
(** [an.localeCompare (bn)] *)
Variable localeCompare : string → string → Z.

(** The comparator of [getVisibleTasksForQuadrant].  It runs on tasks
    that passed the filter [selectedIds.includes (t.matrixId)], so their
    [matrixId] is a string. *)
Definition compareVisible (order : gmap string nat) (names : gmap string string)
    (a b : task) : Z :=
  if decide (t_matrixId a ≠ t_matrixId b) then
    let ao := default 999 (t_matrixId a ≫= λ id, order !! id) in
    let bo := default 999 (t_matrixId b ≫= λ id, order !! id) in
    if decide (ao ≠ bo) then (Z.of_nat ao - Z.of_nat bo)%Z
    else
      match t_matrixId a, t_matrixId b with
      | Some ida, Some idb =>
          localeCompare (default ida (names !! ida)) (default idb (names !! idb))
      | _, _ => 0%Z
      end
  else compareTasks a b.

(** [function getVisibleTasksForQuadrant (selectedIds, urgency)] *)
Definition getVisibleTasksForQuadrant (s : app) (selectedIds : list string)
    (u : urgency) : list task :=
  sortBy (compareVisible (matrixOrder selectedIds) (matrixNameById s))
    (filter (λ t, t_matrixId t ∈ Some <$> selectedIds
                  ∧ t_urgency t = u
                  ∧ t_status t ≠ Archived ∧ t_status t ≠ Deleted)
            (tasks s)).
End Visible.

(** ** User actions *)

(** The events of the page: the handlers of its controls and the two
    effects that write state. *)
Inductive action :=
  | TogglePinned (id : string)
  | ChangeFocus (next : string)
  | AddMatrix (newMatrixName : string)
  | MergeFocus (destId : string)
  | DeleteFocus (nowIso : string)
  | ChangeNewTaskText (text : string)
  | ChangeNewTaskMatrix (id : string)
  | ChangeNewTaskUrgency (u : urgency)
  | AddTask (now : Z) (nowIso : string)
  | ToggleComplete (id : Z)
  | ArchiveTask (id : Z) (nowIso : string)
  | UnarchiveTask (id : Z)
  | DeleteTask (id : Z) (nowIso : string)
  | ClearDeleted
  | StartEdit (t : task)
  | ChangeEditDraft (text : string)
  | CommitEdit
  | CancelEdit
  | DragEnd (activeId : Z) (over : option dropId)
  | ImportFile (file : parseResult)
  | HealFocus
  | AlignNewTask.

(** The handler, or effect, behind each action.  The merge and delete
    buttons act on [focusMatrix] and are rendered only when it exists. *)
Definition perform (a : action) (s : app) : app :=
  match a with
  | TogglePinned id => togglePinned id s
  | ChangeFocus next => changeFocus next s
  | AddMatrix newMatrixName => (addMatrix newMatrixName s).2
  | MergeFocus destId =>
      match focusMatrix s with
      | Some fm => mergeMatrixInto (m_id fm) destId s
      | None => s
      end
  | DeleteFocus nowIso =>
      match focusMatrix s with
      | Some fm => deleteMatrixArchiveTasks (m_id fm) nowIso s
      | None => s
      end
  | ChangeNewTaskText text => changeNewTaskText text s
  | ChangeNewTaskMatrix id => changeNewTaskMatrix id s
  | ChangeNewTaskUrgency u => changeNewTaskUrgency u s
  | AddTask now nowIso => addTask now nowIso s
  | ToggleComplete id => toggleComplete id s
  | ArchiveTask id nowIso => archiveTask id nowIso s
  | UnarchiveTask id => unarchiveTask id s
  | DeleteTask id nowIso => deleteTask id nowIso s
  | ClearDeleted => clearDeleted s
  | StartEdit t => startEdit t s
  | ChangeEditDraft text => setEditDraft text s
  | CommitEdit => commitEdit s
  | CancelEdit => cancelEdit s
  | DragEnd activeId over => handleDragEnd activeId over s
  | ImportFile file => importDataFromFile file s
  | HealFocus => healFocus s
  | AlignNewTask => alignNewTask s
  end.

(** A live task with a numeric order, for the worked examples. *)
Definition sampleTask (id : Z) (m : string) (u : urgency) (st : status)
    (o : Z) : task :=
  mkTask id "t" (Some m) None u st (Some o) None None None.

(** The initial state with a given task collection. *)
Definition withTasks (l : list task) : app := setTasks l initialApp.

(** * Specification-level definitions

    The notions in which the properties are stated (the invariant of
    the ordering engine, the operations in the specification's words)
    and the states of the worked examples. *)

(** ** Task ids and cross-matrix drops *)

(** The ids of a task collection, in array order. *)
Definition taskIds (l : list task) : list Z := t_id <$> l.

(** One task in ["work"] and one in ["personal"]. *)
Definition crossMatrixState : app :=
  withTasks [ sampleTask 1 "work" High NotDone 0;
              sampleTask 2 "personal" High NotDone 0 ].

(** ** Toggling completion *)

(** The guarded operation of the specification's words: a flip between
    [NotDone] and [Completed], nothing for [Archived] and [Deleted]. *)
Definition toggleCompleteGuarded (id : Z) (s : app) : app :=
  setTasks
    (mapTaskById id
       (λ t, match t_status t with
             | NotDone => with_status Completed t
             | Completed => with_status NotDone t
             | Archived | Deleted => t
             end)
       (tasks s))
    s.

(** What the handler writes for a given current status. *)
Definition toggledStatus (st : status) : status :=
  match st with
  | Completed => NotDone
  | NotDone | Archived | Deleted => Completed
  end.

(** A collection with a single archived task. *)
Definition archivedOnlyState : app :=
  withTasks [ sampleTask 7 "work" High Archived 0 ].

(** ** Import *)

(** The import input is rejected when the file does not parse, when the
    parsed value is not an object, or when its [matrices] or its [tasks]
    field is not an array. *)
Definition isArrayField {A} (f : jsonField A) : bool :=
  match f with AnArray _ => true | NotAnArray => false end.

Definition malformedImport (file : parseResult) : Prop :=
  match file with
  | ParseError _ | NotAnObject => True
  | AnObject ms ts => isArrayField ms = false ∨ isArrayField ts = false
  end.

(** ** Migration *)

(** The fixed lookup of the specification's words. *)
Definition legacyMatrixId (tag : option string) : string :=
  match tag with
  | Some "Personal" => "personal"
  | Some "Goals" => "goals"
  | _ => "work"
  end.

(** A task of the legacy shape: a [tag], no [matrixId], no [order]. *)
Definition legacyPersonalTask : task :=
  mkTask 11 "call home" None (Some "Personal") Low NotDone None None None None.

(** ** Matrix normalisation *)

(** A map from ids to matrices whose every value carries its key. *)
Definition idKeyed (byId : list (string * matrix)) : Prop :=
  ∀ k m, (k, m) ∈ byId → m_id m = k.

(** The ids ["work"], ["personal"] and ["goals"]. *)
Definition defaultIds : list string := m_id <$> DEFAULT_MATRICES.

(** The map that [ensureDefaultPinnedMatrices] ends with. *)
Definition normalizedById (stored : list matrix) : list (string * matrix) :=
  foldl ensureDefault (JsMap.ofEntries (byIdEntries stored)) DEFAULT_MATRICES.

(** The claim's reading of "preserved": whatever non-default matrix the
    input holds is an element of the output. *)
Definition preservesNonDefaults (stored : list matrix) : Prop :=
  ∀ m, m ∈ stored → m_id m ∉ defaultIds → m ∈ ensureDefaultPinnedMatrices stored.

(** Two stored entries under the non-default id ["x"]. *)
Definition duplicatedIdMatrices : list matrix :=
  [ mkMatrix "x" "A" false; mkMatrix "x" "B" false ].

(** A stored [work] that is not pinned, and an unpinned focus matrix. *)
Definition storedWorkUnpinned : list matrix :=
  [ mkMatrix "work" "Work" false; mkMatrix "today" "Today" false ].

(** ** View composition *)

(** The active ids in the insertion order of the [Set]: the pinned ids in
    their order of first occurrence, then the focus. *)
Definition activeIds (activePinnedIds : list string) (focusMatrixId : string)
    : list string :=
  let activeSet := JsSet.ofList activePinnedIds in
  if decide (focusMatrixId ≠ "none") then JsSet.add focusMatrixId activeSet
  else activeSet.

(** "Active" and "valid" in the specification's words. *)
Definition isActive (activePinnedIds : list string) (focusMatrixId id : string)
    : Prop :=
  id ∈ activePinnedIds ∨ (focusMatrixId ≠ "none" ∧ id = focusMatrixId).

Definition isValid (matrices : list matrix) (id : string) : Prop :=
  id ∈ m_id <$> matrices.

#[global] Instance isActive_dec pinned focus id : Decision (isActive pinned focus id).
Proof. unfold isActive. apply _. Defined.
#[global] Instance isValid_dec ms id : Decision (isValid ms id).
Proof. unfold isValid. apply _. Defined.

(** The sequence of the specification's words: [viewOrderIds] filtered
    to the valid and active ids, then the remaining valid active ids in
    insertion order. *)
Definition selectedMatrixIdsSpec (matrices : list matrix)
    (activePinnedIds : list string) (focusMatrixId : string)
    (viewOrderIds : list string) : list string :=
  let kept :=
    filter (λ id, isValid matrices id ∧ isActive activePinnedIds focusMatrixId id)
           viewOrderIds in
  kept ++ filter (λ id, isValid matrices id ∧ id ∉ kept)
                 (activeIds activePinnedIds focusMatrixId).

(** A view order that names ["work"] twice. *)
Definition repeatedViewOrder : list string := [ "work"; "work" ].

(** ** The order invariant *)

(** The live tasks of a scope, in array order, and their [order] values. *)
Definition scopeTasks (l : list task) (m : option string) (u : urgency) : list task :=
  filter (λ t, inScope m u t) l.

Definition scopeOrders (l : list task) (m : option string) (u : urgency)
    : list (option Z) :=
  t_order <$> scopeTasks l m u.

(** The order values [0 .. n-1]. *)
Definition iotaOrders (n : nat) : list (option Z) :=
  (λ k, Some (Z.of_nat k)) <$> seq 0 n.

(** The invariant in the specification's words: in the scope the set of
    [order] values of the live tasks is exactly [{0, ..., n-1}], [n] being
    the number of live tasks of the scope. *)
Definition ordersExact (l : list task) (m : option string) (u : urgency) : Prop :=
  ∀ o : option Z,
    o ∈ scopeOrders l m u
    ↔ ∃ k : nat, k < length (scopeTasks l m u) ∧ o = Some (Z.of_nat k).

Definition orderInvariant (l : list task) : Prop := ∀ m u, ordersExact l m u.

(** The same as a statement on multisets. *)
Definition contiguous (l : list task) (m : option string) (u : urgency) : Prop :=
  scopeOrders l m u ≡ₚ iotaOrders (length (scopeTasks l m u)).

(** The callback of [applyOrders]. *)
Definition applyOrder (updates : gmap Z nat) (t : task) : task :=
  match updates !! t_id t with
  | Some idx => with_order (Some (Z.of_nat idx)) t
  | None => t
  end.

(** The joint invariant carried through the operations. *)
Definition wellOrdered (l : list task) : Prop :=
  NoDup (taskIds l) ∧ ∀ m u, contiguous l m u.

(** One user action on the task collection.  [addTask] stamps the new
    task with [Date.now ()], which is taken to be an id not in use; a
    drag gesture ends in [handleDragEnd] (move to a quadrant, move next
    to a task of another quadrant, reorder, or nothing); a merge is
    [mergeMatrixInto]; any other handler that leaves the task collection
    alone (selection, draft and edit state) may run in between. *)
Inductive step : app → app → Prop :=
  | step_addTask s now nowIso :
      now ∉ taskIds (tasks s) → step s (addTask now nowIso s)
  | step_dragEnd s activeId over : step s (handleDragEnd activeId over s)
  | step_merge s sourceId destId : step s (mergeMatrixInto sourceId destId s)
  | step_view s s' : tasks s' = tasks s → step s s'.

(** Contiguity of a scope of a given collection can be computed. *)
#[global] Instance contiguous_dec l m u : Decision (contiguous l m u).
Proof. unfold contiguous. apply _. Defined.

(** Two live tasks share the id [5]. *)
Definition duplicateIdState : app :=
  withTasks [ sampleTask 2 "work" High NotDone 0;
              sampleTask 5 "work" High NotDone 1;
              sampleTask 7 "work" Medium NotDone 0;
              sampleTask 5 "work" Medium NotDone 1 ].

(** Two adds into [work / Medium], the second at a time [9] that is
    already the id of a task of [work / High], then a reorder in
    [work / High]. *)
Definition reusedIdRun : app :=
  handleDragEnd 2 (Some (OverTask 9))
    (addTask 9 "1970-01-01T00:00:00.009Z"
       (setNewTask (mkDraft "second" "work" Medium)
          (addTask 7 "1970-01-01T00:00:00.007Z"
             (setNewTask (mkDraft "first" "work" Medium)
                (withTasks [ sampleTask 2 "work" High NotDone 0;
                             sampleTask 9 "work" High NotDone 1 ]))))).

(** Three tasks in [work / High] and one in the focus matrix ["today"]. *)
Definition abcState : app :=
  withTasks [ sampleTask 1 "work" High NotDone 0;
              sampleTask 2 "work" High NotDone 1;
              sampleTask 3 "work" High NotDone 2;
              sampleTask 4 "today" High NotDone 0 ].

(** An add, a reorder, a move to another quadrant and a merge. *)
Definition abcRun : app :=
  mergeMatrixInto "today" "work"
    (handleDragEnd 2 (Some (OverQuadrant Low))
       (handleDragEnd 1 (Some (OverTask 3))
          (addTask 9 "2026-01-01T00:00:00.000Z"
             (setNewTask (mkDraft "write" "work" High) abcState)))).

(** ** Reordering within a quadrant *)

(** The canonical order: [order] ascending (a missing [order] counts as
    [0]), ties broken by [id] ascending. *)
Definition canonicalLe (a b : task) : Prop :=
  (orderOrZero a < orderOrZero b)%Z
  ∨ (orderOrZero a = orderOrZero b ∧ (t_id a ≤ t_id b)%Z).

#[global] Instance canonicalLe_trans : Transitive canonicalLe.
Proof. intros a b c. unfold canonicalLe. lia. Qed.

(** The array move of the specification's words on a list of ids: take
    the dragged id out and put it back at the position the target id has
    in the list. *)
Definition arrayMoveSpec (ids : list Z) (dragged target : Z) : list Z :=
  match indexOf target ids with
  | Some to =>
      let rest := filter (λ id, id ≠ dragged) ids in
      take to rest ++ dragged :: drop to rest
  | None => ids
  end.

(** Every task of the scope gets its index in the sequence as [order]. *)
Definition reorderedOrders (l : list task) (m : option string) (u : urgency)
    (sequence : list Z) : list task :=
  (λ t, if inScope m u t
        then with_order (Z.of_nat <$> indexOf (t_id t) sequence) t
        else t) <$> l.

(** The reorder of the specification's words, applied without looking at
    the selection or at the status of the two tasks. *)
Definition reorderDropSpec (activeId overId : Z) (s : app) : list task :=
  match getTaskById s activeId with
  | Some activeTask =>
      let m := t_matrixId activeTask in
      let u := t_urgency activeTask in
      reorderedOrders (tasks s) m u
        (arrayMoveSpec (taskIds (scopeGroup (tasks s) m u)) activeId overId)
  | None => tasks s
  end.

(** The matrix ["today"] is not among the selected ones. *)
Definition unselectedState : app :=
  withTasks [ sampleTask 1 "today" High NotDone 0;
              sampleTask 2 "today" High NotDone 1 ].

(** The task [1] is archived and its quadrant has the orders [0] and [5]. *)
Definition archivedDraggedState : app :=
  withTasks [ sampleTask 1 "work" High Archived 0;
              sampleTask 2 "work" High NotDone 0;
              sampleTask 3 "work" High NotDone 5 ].

(** Two live tasks of one scope share the id [5]. *)
Definition duplicateInScopeState : app :=
  withTasks [ sampleTask 5 "work" High NotDone 0;
              sampleTask 5 "work" High NotDone 1;
              sampleTask 7 "work" High NotDone 2 ].

(** [A(0), B(1), C(2)] in one scope of a selected matrix. *)
Definition abcOnlyState : app :=
  withTasks [ sampleTask 1 "work" High NotDone 0;
              sampleTask 2 "work" High NotDone 1;
              sampleTask 3 "work" High NotDone 2 ].

(** ** Worked examples *)

(** [A(0), B(1)] in [work / High]. *)
Definition twoHighState : app :=
  withTasks [ sampleTask 1 "work" High NotDone 0;
              sampleTask 2 "work" High NotDone 1 ].

(** A focus matrix with two [High] tasks next to one [High] task of [work]. *)
Definition focusMergeState : app :=
  setMatrices (DEFAULT_MATRICES ++ [ mkMatrix "focus-x" "Focus X" false ])
    (withTasks [ sampleTask 1 "work" High NotDone 0;
                 sampleTask 2 "focus-x" High NotDone 0;
                 sampleTask 3 "focus-x" High NotDone 1 ]).

(** ** Backfilled orders *)

(** The last character of a string. *)
Fixpoint lastChar (s : string) : option Ascii.ascii :=
  match s with
  | EmptyString => None
  | String c r => match lastChar r with None => Some c | Some d => Some d end
  end.

(** Two tasks of one matrix and one urgency. *)
Definition sameScope (t t' : task) : Prop :=
  t_matrixId t' = t_matrixId t ∧ t_urgency t' = t_urgency t.

#[global] Instance sameScope_dec t t' : Decision (sameScope t t').
Proof. unfold sameScope. apply _. Defined.

(** The position that the backfill pass counts: the number of earlier
    tasks of the array with the same matrix and urgency. *)
Definition scopePosition (l : list task) (i : nat) (t : task) : Z :=
  Z.of_nat (length (filter (sameScope t) (take i l))).

(** A legacy collection: three live tasks, no [matrixId], no [order]. *)
Definition legacyTasks : list task :=
  [ mkTask 11 "call home" None (Some "Personal") Low NotDone None None None None;
    mkTask 12 "ship it" None (Some "Work") High NotDone None None None None;
    mkTask 13 "write" None (Some "Personal") Low Completed None None None None ].

(** ** The order of the normalised matrices *)

(** The elements of a list in the order of their first occurrence. *)
Definition firstOccurrences (l : list string) : list string :=
  foldr (λ x acc, x :: filter (λ y, y ≠ x) acc) [] l.

(** The default ids that a list of ids lacks, in the order of
    [DEFAULT_MATRICES]. *)
Definition missingDefaults (ids : list string) : list string :=
  filter (λ d, d ∉ ids) defaultIds.

(** A stored list with a repeated id and one of the defaults. *)
Definition storedWithRepeats : list matrix :=
  [ mkMatrix "today" "Today" false; mkMatrix "goals" "My goals" false;
    mkMatrix "today" "Today again" true ].

(** ** Moves and merges *)

(** The quadrant that a drop points at: the quadrant container itself,
    or the quadrant of the task under the pointer when that task is of
    the matrix of the dragged task. *)
Definition dropUrgency (s : app) (activeTask : task) (over : dropId)
    : option urgency :=
  match over with
  | OverQuadrant u => Some u
  | OverTask overId =>
      match getTaskById s overId with
      | Some overTask =>
          if decide (t_matrixId overTask = t_matrixId activeTask)
          then Some (t_urgency overTask) else None
      | None => None
      end
  end.

(** [A(0), B(1)] in [work / High] and [D(0), E(1)] in [work / Low]. *)
Definition twoQuadrantState : app :=
  withTasks [ sampleTask 1 "work" High NotDone 0;
              sampleTask 2 "work" High NotDone 1;
              sampleTask 4 "work" Low NotDone 0;
              sampleTask 5 "work" Low NotDone 1 ].

(** The callback of the first [map] of [mergeMatrixInto]. *)
Definition retag (sourceId destId : string) (t : task) : task :=
  if decide (t_matrixId t = Some sourceId) then with_matrixId (Some destId) t else t.

(** The live tasks of urgency [u] of the two matrices of a merge. *)
Definition inMergedScope (sourceId destId : string) (u : urgency) (t : task) : bool :=
  inScope (Some sourceId) u t || inScope (Some destId) u t.


(** Three tasks with orders that are not normalised. *)
Definition gappedTasks : list task :=
  [ sampleTask 4 "work" High NotDone 7; sampleTask 2 "work" High NotDone 3;
    sampleTask 9 "work" Low NotDone 5 ].

(** ** Slugs and matrix ids *)

(** A string of slug characters and single hyphens; [afterHyphen] tells
    that the string follows a hyphen, where no hyphen may come next. *)
Fixpoint hyphenated (afterHyphen : bool) (s : string) : Prop :=
  match s with
  | EmptyString => True
  | String c r =>
      if isSlugChar c then hyphenated false r
      else c = hyphen ∧ afterHyphen = false ∧ hyphenated true r
  end.

(** The characters of a string. *)
Fixpoint chars (s : string) : list Ascii.ascii :=
  match s with
  | EmptyString => []
  | String c r => c :: chars r
  end.

(** ASCII text.  On it [trim] and [toLowerCase] are those of the code:
    the white space of [String.prototype.trim] below U+0080 is 9-13 and
    32, and the letters that [String.prototype.toLowerCase] changes are
    [A-Z]. *)
Definition asciiText (s : string) : Prop :=
  Forall (λ c, Ascii.nat_of_ascii c < 128) (chars s).

(** [Number.MAX_SAFE_INTEGER], [2^53 - 1]: up to it the successor of an
    integer is exact in the code's arithmetic. *)
Definition MAX_SAFE_INTEGER : Z := 9007199254740991.

(** The candidates of [makeUniqueMatrixId] in the order in which the loop
    tries them: [baseId], [baseId-2], [baseId-3], ... *)
Definition candidateId (baseId : string) (k : nat) : string :=
  match k with
  | 0 => baseId
  | S _ => baseId +:+ "-" +:+ pretty (S k)
  end.

(** ** Sessions *)

(** The actions that the rendered page offers in a state: a toggle
    button per pinned matrix, the focus select with ["none"] and the
    focus candidates, the matrix select of the "new task" form with the
    matrices.  An import is taken to hold no pinned matrix under the
    reserved id ["none"]. *)
Definition offered (s : app) (a : action) : Prop :=
  match a with
  | TogglePinned id => id ∈ m_id <$> pinnedMatrices s
  | ChangeFocus next => next = "none" ∨ next ∈ m_id <$> focusCandidates s
  | ChangeNewTaskMatrix id => id ∈ m_id <$> matrices s
  | ImportFile (AnObject (AnArray incomingMatrices) (AnArray _)) =>
      ∀ m, m ∈ incomingMatrices → m_id m = "none" → m_pinned m = false
  | _ => True
  end.

(** The states of a session: the first render, the state after the load
    effect (of stored matrices without a pinned ["none"]), and what the
    offered actions lead to. *)
Inductive reachable : app → Prop :=
  | reachable_init : reachable initialApp
  | reachable_load storedMatrices storedTasks :
      (∀ l m, storedMatrices = Parsed l → m ∈ l → m_id m = "none" →
              m_pinned m = false) →
      reachable (loadEffect storedMatrices storedTasks initialApp)
  | reachable_step s a : reachable s → offered s a → reachable (perform a s).

(** The invariant of the selection state. *)
Definition selectionInv (s : app) : Prop :=
  NoDup (viewOrderIds s)
  ∧ NoDup (m_id <$> matrices s)
  ∧ NoDup (activePinnedIds s)
  ∧ (∀ id, id ∈ activePinnedIds s →
           id ∈ m_id <$> pinnedMatrices s ∧ id ∈ viewOrderIds s)
  ∧ (focusMatrixId s ≠ "none" →
     focusMatrixId s ∈ m_id <$> focusCandidates s
     ∧ focusMatrixId s ∈ viewOrderIds s)
  ∧ ("none" ∉ m_id <$> pinnedMatrices s)
  ∧ (∀ d, d ∈ DEFAULT_MATRICES → d ∈ matrices s).

(** The matrices, the active ids, the focus and the view order. *)
Definition selection (s : app) : list matrix * list string * string * list string :=
  (matrices s, activePinnedIds s, focusMatrixId s, viewOrderIds s).

(** A new matrix, then [personal] switched off. *)
Definition sessionRun : app :=
  perform (TogglePinned "personal") (perform (AddMatrix "Today 2/10") initialApp).

(** A task whose text is not blank. *)
Definition nonBlank (t : task) : Prop := trim (t_text t) ≠ "".

(** A task whose text is ASCII text and not blank. *)
Definition plainText (t : task) : Prop := asciiText (t_text t) ∧ nonBlank t.

(** The tasks that an action brings in from outside: those of an import
    file with both arrays. *)
Definition incomingTasks (a : action) : list task :=
  match a with
  | ImportFile (AnObject (AnArray _) (AnArray incoming)) => incoming
  | _ => []
  end.

(** ** The quadrant view *)

(** The position of the matrix of a task in the selection. *)
Definition matrixPosition (selectedIds : list string) (t : task) : nat :=
  default 999 (t_matrixId t ≫= λ id, indexOf id selectedIds).

(** The order of the quadrant view: by position of the matrix in the
    selection, then canonically. *)
Definition viewLe (selectedIds : list string) (a b : task) : Prop :=
  matrixPosition selectedIds a < matrixPosition selectedIds b
  ∨ (matrixPosition selectedIds a = matrixPosition selectedIds b ∧ canonicalLe a b).

#[global] Instance viewLe_trans sel : Transitive (viewLe sel).
Proof.
  intros a b c [H1 | [E1 H1]] [H2 | [E2 H2]]; unfold viewLe.
  - left. lia.
  - left. lia.
  - left. lia.
  - right. split; [lia | etrans; eassumption].
Qed.

(** The quadrant view, matrix by matrix in selection order, each with
    its canonical list. *)
Definition quadrantByMatrix (l : list task) (selectedIds : list string)
    (u : urgency) : list task :=
  concat ((λ id, scopeGroup l (Some id) u) <$> selectedIds).

(** Tasks of two selected matrices in one quadrant. *)
Definition twoMatrixState : app :=
  withTasks [ sampleTask 1 "work" High NotDone 1;
              sampleTask 2 "personal" High NotDone 0;
              sampleTask 3 "work" High NotDone 0;
              sampleTask 4 "work" High Archived 2;
              sampleTask 5 "personal" Low NotDone 0 ].

(** A draft of blanks over two tasks. *)
Definition blankDraftState : app :=
  setNewTask (mkDraft "  " "work" High) twoHighState.

(** * Properties *)

(** Projections of the state after a chain of setters. *)
Ltac app_simpl :=
  cbn [tasks matrices activePinnedIds focusMatrixId viewOrderIds
       lastSelectedMatrixId newTask editingTaskId editDraft importError
       importOk setTasks setMatrices setActivePinnedIds setFocusMatrixId
       setViewOrderIds setLastSelectedMatrixId setNewTask setEditingTaskId
       setEditDraft setImportError setImportOk cancelEdit].

(** ** List facts *)

Lemma filter_ext_elem {A} (P Q : A → Prop) `{!∀ x, Decision (P x)}
    `{!∀ x, Decision (Q x)} (l : list A) :
  (∀ x, x ∈ l → P x ↔ Q x) → filter P l = filter Q l.
Proof.
  induction l as [|a l IH]; intros Hext; [reflexivity |].
  assert (filter P l = filter Q l) as E.
  { apply IH. intros x Hx. apply Hext, list_elem_of_further, Hx. }
  pose proof (Hext a (list_elem_of_here _ _)) as Ha.
  destruct (decide (P a)) as [Hp | Hp].
  - rewrite !filter_cons_True by tauto. rewrite E. reflexivity.
  - rewrite !filter_cons_False by tauto. exact E.
Qed.

Lemma filter_none {A} (P : A → Prop) `{!∀ x, Decision (P x)} (l : list A) :
  (∀ x, x ∈ l → ¬ P x) → filter P l = [].
Proof.
  induction l as [|a l IH]; intros Hno; [reflexivity |].
  rewrite filter_cons_False by apply Hno, list_elem_of_here.
  apply IH. intros x Hx. apply Hno, list_elem_of_further, Hx.
Qed.

(** ** Task ids under the mutating operations *)

Lemma mapTaskById_ids id f l :
  (∀ t, t_id (f t) = t_id t) → taskIds (mapTaskById id f l) = taskIds l.
Proof.
  intros Hf. unfold taskIds, mapTaskById.
  rewrite <- list_fmap_compose. apply list_fmap_ext.
  intros i t _. simpl. destruct (decide (t_id t = id)); auto.
Qed.

Lemma applyOrders_ids updates l : taskIds (applyOrders updates l) = taskIds l.
Proof.
  unfold taskIds, applyOrders.
  rewrite <- list_fmap_compose. apply list_fmap_ext.
  intros i t _. simpl. destruct (updates !! t_id t); reflexivity.
Qed.

Lemma normalizeOrders_ids l m u : taskIds (normalizeOrders l m u) = taskIds l.
Proof. apply applyOrders_ids. Qed.

Lemma moveToUrgency_ids a id u l : taskIds (moveToUrgency a id u l) = taskIds l.
Proof.
  unfold moveToUrgency. rewrite normalizeOrders_ids.
  apply mapTaskById_ids. reflexivity.
Qed.

Lemma reorderWithin_ids a id over l : taskIds (reorderWithin a id over l) = taskIds l.
Proof.
  unfold reorderWithin.
  destruct (indexOf id _); [destruct (indexOf over _) |]; auto using applyOrders_ids.
Qed.

Lemma normalizeAll_ids m us l :
  taskIds (foldl (λ next u, normalizeOrders next m u) l us) = taskIds l.
Proof.
  revert l. induction us as [|u us IH]; intros l; simpl; [reflexivity |].
  rewrite IH. apply normalizeOrders_ids.
Qed.

Lemma mergeMatrixInto_ids src dst s :
  taskIds (tasks (mergeMatrixInto src dst s)) = taskIds (tasks s).
Proof.
  unfold mergeMatrixInto.
  destruct (negb (truthy src) || bool_decide (src = "none")); [reflexivity |].
  destruct (negb (truthy dst) || bool_decide (src = dst)); [reflexivity |].
  app_simpl. rewrite normalizeAll_ids. unfold taskIds.
  rewrite <- list_fmap_compose. apply list_fmap_ext.
  intros i t _. simpl. destruct (decide (t_matrixId t = Some src)); reflexivity.
Qed.

Lemma deleteMatrixArchiveTasks_ids mid now s :
  taskIds (tasks (deleteMatrixArchiveTasks mid now s)) = taskIds (tasks s).
Proof.
  unfold deleteMatrixArchiveTasks.
  destruct (negb (truthy mid) || bool_decide (mid = "none")); [reflexivity |].
  simpl. unfold taskIds. rewrite <- list_fmap_compose. apply list_fmap_ext.
  intros i t _. simpl.
  destruct (bool_decide _ && bool_decide _); reflexivity.
Qed.

Lemma commitEdit_ids s : taskIds (tasks (commitEdit s)) = taskIds (tasks s).
Proof.
  unfold commitEdit. destruct (editingTaskId s) as [e|]; [| reflexivity].
  destruct (negb (truthy (trim (editDraft s)))); [reflexivity |].
  simpl. apply mapTaskById_ids. reflexivity.
Qed.

Lemma handleDragEnd_ids activeId over s :
  taskIds (tasks (handleDragEnd activeId over s)) = taskIds (tasks s).
Proof.
  unfold handleDragEnd.
  destruct over as [[u | overId] |]; [| | reflexivity];
    destruct (getTaskById s activeId) as [a|]; try reflexivity;
    destruct (negb _); try reflexivity.
  - destruct (decide (t_urgency a = u)); [reflexivity |].
    simpl. apply moveToUrgency_ids.
  - destruct (getTaskById s overId) as [o|]; [| reflexivity].
    destruct (decide (t_matrixId o ≠ t_matrixId a)); [reflexivity |].
    destruct (decide (t_urgency o ≠ t_urgency a)).
    + simpl. apply moveToUrgency_ids.
    + destruct (decide (activeId = overId)); [reflexivity |].
      simpl. apply reorderWithin_ids.
Qed.

(** C10.  Every task-mutating operation other than [addTask] and the
    clear-deleted purge returns a task collection with exactly the ids
    of its input, in the same positions: [toggleComplete],
    [archiveTask], [unarchiveTask], [deleteTask], [commitEdit],
    [mergeMatrixInto], [deleteMatrixArchiveTasks] and [handleDragEnd]
    only rewrite fields of existing records. *)
Theorem task_ids_preserved (s : app) :
  (∀ id, taskIds (tasks (toggleComplete id s)) = taskIds (tasks s))
  ∧ (∀ id now, taskIds (tasks (archiveTask id now s)) = taskIds (tasks s))
  ∧ (∀ id, taskIds (tasks (unarchiveTask id s)) = taskIds (tasks s))
  ∧ (∀ id now, taskIds (tasks (deleteTask id now s)) = taskIds (tasks s))
  ∧ taskIds (tasks (commitEdit s)) = taskIds (tasks s)
  ∧ (∀ src dst, taskIds (tasks (mergeMatrixInto src dst s)) = taskIds (tasks s))
  ∧ (∀ mid now,
       taskIds (tasks (deleteMatrixArchiveTasks mid now s)) = taskIds (tasks s))
  ∧ (∀ activeId over,
       taskIds (tasks (handleDragEnd activeId over s)) = taskIds (tasks s)).
Proof.
  repeat split; intros.
  - apply mapTaskById_ids. reflexivity.
  - apply mapTaskById_ids. reflexivity.
  - apply mapTaskById_ids. reflexivity.
  - unfold deleteTask. destruct (decide (editingTaskId s = Some id));
      simpl; apply mapTaskById_ids; reflexivity.
  - apply commitEdit_ids.
  - apply mergeMatrixInto_ids.
  - apply deleteMatrixArchiveTasks_ids.
  - apply handleDragEnd_ids.
Qed.

(** ** Cross-matrix drops *)

(** C9.  A drop of a dragged task onto a task of another matrix changes
    nothing: the whole application state, and so every field of every
    task, is as before the drop. *)
Theorem cross_matrix_drop_ignored (s : app) (activeId overId : Z)
    (activeTask overTask : task) :
  getTaskById s activeId = Some activeTask →
  getTaskById s overId = Some overTask →
  t_matrixId overTask ≠ t_matrixId activeTask →
  handleDragEnd activeId (Some (OverTask overId)) s = s.
Proof.
  intros Ha Ho Hne. unfold handleDragEnd. rewrite Ha, Ho.
  destruct (negb _); [reflexivity |].
  destruct (decide (t_matrixId overTask ≠ t_matrixId activeTask)); [reflexivity |].
  contradiction.
Qed.

Lemma cross_matrix_drop_ignored_witness :
  handleDragEnd 1 (Some (OverTask 2)) crossMatrixState = crossMatrixState.
Proof.
  apply (cross_matrix_drop_ignored crossMatrixState 1 2
           (sampleTask 1 "work" High NotDone 0)
           (sampleTask 2 "personal" High NotDone 0)).
  - reflexivity.
  - reflexivity.
  - vm_compute. discriminate.
Defined.

(** ** Toggling completion *)

(** C2, counterexample.  [toggleComplete] on an archived task does not
    leave it alone: the task becomes [Completed], so the handler differs
    from the guarded operation. *)
Lemma toggleComplete_archived_changes :
  tasks archivedOnlyState = [ sampleTask 7 "work" High Archived 0 ]
  ∧ tasks (toggleComplete 7 archivedOnlyState)
    = [ sampleTask 7 "work" High Completed 0 ]
  ∧ tasks (toggleCompleteGuarded 7 archivedOnlyState) = tasks archivedOnlyState
  ∧ toggleComplete 7 archivedOnlyState ≠ toggleCompleteGuarded 7 archivedOnlyState.
Proof. repeat split. vm_compute. discriminate. Qed.

(** C2, amended.  [toggleComplete id] rewrites only the [status] of the
    tasks whose id is [id]: [Completed] becomes [NotDone] and every other
    status, [Archived] and [Deleted] included, becomes [Completed]; all
    other fields, all other tasks and the rest of the state are
    unchanged. *)
Theorem toggleComplete_flips (s : app) (id : Z) :
  tasks (toggleComplete id s)
  = (λ t, if decide (t_id t = id)
          then with_status (toggledStatus (t_status t)) t else t) <$> tasks s
  ∧ toggleComplete id s = setTasks (tasks (toggleComplete id s)) s
  ∧ length (tasks (toggleComplete id s)) = length (tasks s)
  ∧ (∀ i t, tasks s !! i = Some t →
       tasks (toggleComplete id s) !! i
       = Some (if decide (t_id t = id)
               then with_status (toggledStatus (t_status t)) t else t))
  ∧ toggledStatus NotDone = Completed
  ∧ toggledStatus Completed = NotDone
  ∧ toggledStatus Archived = Completed
  ∧ toggledStatus Deleted = Completed.
Proof.
  assert (Hmap : tasks (toggleComplete id s)
                 = (λ t, if decide (t_id t = id)
                         then with_status (toggledStatus (t_status t)) t else t)
                   <$> tasks s).
  { unfold toggleComplete, mapTaskById. app_simpl.
    apply list_fmap_ext. intros i t _. simpl.
    destruct (decide (t_id t = id)); [| reflexivity].
    destruct (t_status t); reflexivity. }
  split; [exact Hmap |]. split; [reflexivity |].
  split; [rewrite Hmap; apply length_fmap |].
  split; [| repeat split].
  intros i t Hi. rewrite Hmap, list_lookup_fmap, Hi. reflexivity.
Qed.

Lemma toggleComplete_flips_witness :
  tasks (toggleComplete 7 archivedOnlyState)
  = [ sampleTask 7 "work" High Completed 0 ].
Proof.
  rewrite (proj1 (toggleComplete_flips archivedOnlyState 7)). reflexivity.
Defined.

(** ** Import *)

(** C3.  A malformed import surfaces an error and applies nothing: the
    task collection, the matrix collection and the selection state are
    those before the import; only the two import messages change. *)
Theorem import_rejects_malformed (file : parseResult) (s : app) :
  malformedImport file →
  let s' := importDataFromFile file s in
  tasks s' = tasks s
  ∧ matrices s' = matrices s
  ∧ importError s' ≠ ""
  ∧ importOk s' = ""
  ∧ s' = setImportOk "" (setImportError (importError s') s).
Proof.
  intros Hbad. unfold importDataFromFile.
  destruct file as [msg | | [| ms] [| ts]]; simpl in Hbad; app_simpl.
  - repeat split; try reflexivity.
    unfold truthy. case_bool_decide; [assumption | discriminate].
  - repeat split; try reflexivity. discriminate.
  - repeat split; try reflexivity. discriminate.
  - repeat split; try reflexivity. discriminate.
  - repeat split; try reflexivity. discriminate.
  - destruct Hbad; discriminate.
Qed.

Lemma import_rejects_malformed_witness :
  let s := withTasks [ sampleTask 1 "work" High NotDone 0 ] in
  let s' := importDataFromFile (AnObject (AnArray DEFAULT_MATRICES) NotAnArray) s in
  tasks s' = tasks s ∧ matrices s' = matrices s ∧ importError s' ≠ "".
Proof.
  intros s s'.
  destruct (import_rejects_malformed
              (AnObject (AnArray DEFAULT_MATRICES) NotAnArray) s
              (or_intror eq_refl)) as (Ht & Hm & He & _).
  repeat split; assumption.
Defined.

(** A well-formed import is applied and reports no error. *)
Lemma import_accepts_arrays (ms : list matrix) (ts : list task) (s : app) :
  let s' := importDataFromFile (AnObject (AnArray ms) (AnArray ts)) s in
  tasks s' = migrateTasks ts
  ∧ matrices s' = ensureDefaultPinnedMatrices ms
  ∧ importError s' = "".
Proof. repeat split. Qed.

(** ** Legacy tag mapping *)

Lemma legacyMatrixId_decide (tag : option string) :
  legacyMatrixId tag
  = if decide (tag = Some "Goals") then "goals"
    else if decide (tag = Some "Personal") then "personal" else "work".
Proof.
  destruct tag as [tag|]; [| reflexivity].
  destruct (decide (Some tag = Some "Goals")) as [E | NE].
  - injection E as ->. reflexivity.
  - destruct (decide (Some tag = Some "Personal")) as [E' | NE'].
    + injection E' as ->. reflexivity.
    + unfold legacyMatrixId.
      repeat (match goal with
              | |- context [match ?x with _ => _ end] => destruct x; try reflexivity
              end); congruence.
Qed.

Lemma migrateTag_legacy (t : task) :
  truthyField (t_matrixId t) = false →
  migrateTag t = with_matrixId (Some (legacyMatrixId (t_tag t))) (without_tag t).
Proof.
  intros Hm. unfold migrateTag. rewrite Hm, legacyMatrixId_decide.
  destruct (decide (t_tag t = Some "Goals")); [reflexivity |].
  destruct (decide (t_tag t = Some "Personal")); reflexivity.
Qed.

Lemma backfillOrders_lookup (counters : gmap string Z) (l : list task) i t :
  l !! i = Some t →
  ∃ n, backfillOrders counters l !! i = Some (with_order (Some n) t).
Proof.
  revert counters i. induction l as [|x l IH]; intros counters i Hi; [done |].
  destruct i as [|i]; simpl in *.
  - injection Hi as ->. eauto.
  - apply IH. exact Hi.
Qed.

Lemma hasAnyOrder_intro (l : list task) t :
  t ∈ l → is_Some (t_order t) →
  existsb (λ t, bool_decide (is_Some (t_order t))) l = true.
Proof.
  intros Hin Ho. apply existsb_exists. exists t. split.
  - apply list_elem_of_In. exact Hin.
  - apply bool_decide_eq_true. exact Ho.
Qed.

(** C8.  A task without a (truthy) [matrixId] is given the matrix of its
    legacy tag: ["personal"] for ["Personal"], ["goals"] for ["Goals"],
    ["work"] for any other or missing tag; the [tag] field is dropped and
    every other field of the record is kept.  In the output of
    [migrateTasks] the record sits at the same position, and there the
    only further difference is the [order] written by the backfill pass,
    which leaves a record that has a numeric [order] as it is. *)
Theorem legacy_tag_mapping (t : task) :
  truthyField (t_matrixId t) = false →
  let t' := migrateTag t in
  t_matrixId t' = Some (legacyMatrixId (t_tag t))
  ∧ (t_tag t = Some "Personal" → t_matrixId t' = Some "personal")
  ∧ (t_tag t = Some "Goals" → t_matrixId t' = Some "goals")
  ∧ (t_tag t ≠ Some "Personal" → t_tag t ≠ Some "Goals" →
     t_matrixId t' = Some "work")
  ∧ t_tag t' = None
  ∧ t_id t' = t_id t ∧ t_text t' = t_text t ∧ t_urgency t' = t_urgency t
  ∧ t_status t' = t_status t ∧ t_order t' = t_order t
  ∧ t_createdAt t' = t_createdAt t ∧ t_archivedAt t' = t_archivedAt t
  ∧ t_deletedAt t' = t_deletedAt t
  ∧ (∀ l i, l !! i = Some t →
       ∃ o, migrateTasks l !! i = Some (with_order o t')
            ∧ (is_Some (t_order t) → o = t_order t)).
Proof.
  intros Hm t'. subst t'. rewrite (migrateTag_legacy t Hm).
  split; [reflexivity |]. split; [| split; [| split]].
  - intros ->. reflexivity.
  - intros ->. reflexivity.
  - intros HP HG. cbn [t_matrixId with_matrixId]. rewrite legacyMatrixId_decide.
    rewrite !decide_False by assumption. reflexivity.
  - repeat (split; [reflexivity |]).
    intros l i Hi. unfold migrateTasks.
    assert (Hi' : (migrateTag <$> l) !! i
                  = Some (with_matrixId (Some (legacyMatrixId (t_tag t)))
                                        (without_tag t))).
    { rewrite list_lookup_fmap, Hi. simpl. f_equal. apply migrateTag_legacy, Hm. }
    destruct (existsb _ (migrateTag <$> l)) eqn:Hany.
    + exists (t_order t). split; [| reflexivity].
      rewrite Hi'. f_equal.
    + destruct (backfillOrders_lookup ∅ _ _ _ Hi') as [n Hn].
      exists (Some n). split; [exact Hn |].
      intros Ho. exfalso.
      assert (existsb (λ t, bool_decide (is_Some (t_order t))) (migrateTag <$> l)
              = true) as Habs; [| congruence].
      eapply hasAnyOrder_intro.
      * eapply list_elem_of_lookup_2. exact Hi'.
      * exact Ho.
Qed.

Lemma legacy_tag_mapping_witness :
  t_matrixId (migrateTag legacyPersonalTask) = Some "personal"
  ∧ t_tag (migrateTag legacyPersonalTask) = None.
Proof.
  destruct (legacy_tag_mapping legacyPersonalTask eq_refl)
    as (_ & HP & _ & _ & Htag & _).
  split; [apply HP; reflexivity | exact Htag].
Defined.

(** ** Idempotence of the schema migration *)

Lemma migrateTag_truthy (t : task) : truthyField (t_matrixId (migrateTag t)) = true.
Proof.
  unfold migrateTag. destruct (truthyField (t_matrixId t)) eqn:E; [exact E |].
  cbn [t_matrixId with_matrixId truthyField].
  destruct (decide (t_tag t = Some "Goals")); [reflexivity |].
  destruct (decide (t_tag t = Some "Personal")); reflexivity.
Qed.

Lemma migrateTag_fixed (t : task) :
  truthyField (t_matrixId t) = true → migrateTag t = t.
Proof. intros E. unfold migrateTag. rewrite E. reflexivity. Qed.

Lemma migrateTag_fmap_fixed (l : list task) :
  Forall (λ t, truthyField (t_matrixId t) = true) l → migrateTag <$> l = l.
Proof.
  induction 1 as [|t l Ht _ IH]; [reflexivity |].
  rewrite fmap_cons, IH, migrateTag_fixed by exact Ht. reflexivity.
Qed.

Lemma migrateTag_fmap_truthy (l : list task) :
  Forall (λ t, truthyField (t_matrixId t) = true) (migrateTag <$> l).
Proof.
  apply Forall_fmap, Forall_forall. intros t _. apply migrateTag_truthy.
Qed.

Lemma backfillOrders_truthy (counters : gmap string Z) (l : list task) :
  Forall (λ t, truthyField (t_matrixId t) = true) l →
  Forall (λ t, truthyField (t_matrixId t) = true) (backfillOrders counters l).
Proof.
  intros H. revert counters. induction H as [|t l Ht _ IH]; intros counters.
  - constructor.
  - simpl. constructor; [exact Ht | apply IH].
Qed.

Lemma backfillOrders_hasAnyOrder (counters : gmap string Z) (l : list task) :
  l ≠ [] →
  existsb (λ t, bool_decide (is_Some (t_order t))) (backfillOrders counters l)
  = true.
Proof. destruct l as [|t l]; [done |]. intros _. reflexivity. Qed.

Lemma migrateTasks_truthy (l : list task) :
  Forall (λ t, truthyField (t_matrixId t) = true) (migrateTasks l).
Proof.
  unfold migrateTasks. destruct (existsb _ _).
  - apply migrateTag_fmap_truthy.
  - apply backfillOrders_truthy, migrateTag_fmap_truthy.
Qed.

Lemma migrateTasks_idempotent (l : list task) :
  migrateTasks (migrateTasks l) = migrateTasks l.
Proof.
  pose proof (migrateTasks_truthy l) as Htr.
  unfold migrateTasks at 1. rewrite (migrateTag_fmap_fixed _ Htr).
  destruct (existsb _ (migrateTasks l)) eqn:Hany; [reflexivity |].
  revert Hany Htr. unfold migrateTasks.
  destruct (existsb _ (migrateTag <$> l)) eqn:Hfirst.
  - intros Hany. congruence.
  - destruct (migrateTag <$> l) as [|t r] eqn:El; [reflexivity |].
    intros Hany. rewrite backfillOrders_hasAnyOrder in Hany by discriminate.
    discriminate.
Qed.

(** Insertion-ordered maps: lookups after [set]. *)
Section JsMapFacts.
Context {K V : Type} `{EqDecision K}.
Implicit Types (m : list (K * V)) (k : K) (v : V).

Lemma jsmap_get_set_eq k v m : JsMap.get k (JsMap.set k v m) = Some v.
Proof.
  induction m as [|[k' v'] m IH]; simpl.
  - rewrite decide_True by reflexivity. reflexivity.
  - destruct (decide (k' = k)) as [-> | Hne]; simpl.
    + rewrite decide_True by reflexivity. reflexivity.
    + rewrite decide_False by exact Hne. exact IH.
Qed.

Lemma jsmap_get_set_ne k k' v m :
  k ≠ k' → JsMap.get k' (JsMap.set k v m) = JsMap.get k' m.
Proof.
  intros Hne. induction m as [|[k0 v0] m IH]; simpl.
  - rewrite decide_False by exact Hne. reflexivity.
  - destruct (decide (k0 = k)) as [-> | Hne0]; simpl.
    + rewrite !decide_False by exact Hne. reflexivity.
    + destruct (decide (k0 = k')); [reflexivity | exact IH].
Qed.

Lemma jsmap_get_None k m : JsMap.get k m = None ↔ k ∉ m.*1.
Proof.
  induction m as [|[k' v'] m IH]; simpl.
  - split; [intros _; apply not_elem_of_nil | reflexivity].
  - rewrite not_elem_of_cons. destruct (decide (k' = k)) as [-> | Hne].
    + split; [discriminate | intros [Hk _]; congruence].
    + rewrite IH. split; [intros Hk; split; [congruence | exact Hk] | tauto].
Qed.

Lemma jsmap_set_fresh k v m : k ∉ m.*1 → JsMap.set k v m = m ++ [(k, v)].
Proof.
  induction m as [|[k' v'] m IH]; simpl; [reflexivity |].
  rewrite not_elem_of_cons. intros [Hne Hk].
  rewrite decide_False by congruence. rewrite IH by exact Hk. reflexivity.
Qed.

Lemma jsmap_set_same k v m : JsMap.get k m = Some v → JsMap.set k v m = m.
Proof.
  induction m as [|[k' v'] m IH]; simpl; [discriminate |].
  destruct (decide (k' = k)) as [-> | Hne].
  - intros [= ->]. reflexivity.
  - intros Hg. rewrite IH by exact Hg. reflexivity.
Qed.

Lemma jsmap_set_keys k v m :
  (JsMap.set k v m).*1 = if decide (k ∈ m.*1) then m.*1 else m.*1 ++ [k].
Proof.
  induction m as [|[k' v'] m IH]; csimpl.
  - reflexivity.
  - destruct (decide (k' = k)) as [-> | Hne]; csimpl.
    + rewrite decide_True by apply list_elem_of_here. reflexivity.
    + rewrite IH. destruct (decide (k ∈ m.*1)) as [Hin | Hnin].
      * rewrite decide_True by (apply list_elem_of_further; exact Hin). reflexivity.
      * rewrite decide_False; [reflexivity |].
        rewrite not_elem_of_cons. split; [congruence | exact Hnin].
Qed.

Lemma jsmap_set_NoDup k v m : NoDup m.*1 → NoDup (JsMap.set k v m).*1.
Proof.
  intros Hnd. rewrite jsmap_set_keys. destruct (decide (k ∈ m.*1)); [exact Hnd |].
  apply NoDup_app. split; [exact Hnd |]. split.
  - intros x Hx Hx'. apply list_elem_of_singleton in Hx'. subst. contradiction.
  - apply NoDup_singleton.
Qed.

End JsMapFacts.

(** ** Matrix normalisation *)

Lemma jsmap_set_elem {K V} `{EqDecision K} (k : K) (v : V) m (e : K * V) :
  e ∈ JsMap.set k v m → e = (k, v) ∨ e ∈ m.
Proof.
  induction m as [|[k' v'] m IH]; simpl.
  - intros He. apply list_elem_of_singleton in He. left. exact He.
  - destruct (decide (k' = k)) as [-> | Hne]; intros He.
    + apply elem_of_cons in He as [-> | He]; [left; reflexivity |].
      right. apply list_elem_of_further. exact He.
    + apply elem_of_cons in He as [-> | He]; [right; apply list_elem_of_here |].
      destruct (IH He) as [-> | Hin]; [left; reflexivity |].
      right. apply list_elem_of_further. exact Hin.
Qed.

Lemma jsmap_get_elem {K V} `{EqDecision K} (k : K) (v : V) m :
  JsMap.get k m = Some v → (k, v) ∈ m.
Proof.
  induction m as [|[k' v'] m IH]; simpl; [discriminate |].
  destruct (decide (k' = k)) as [-> | Hne].
  - intros [= ->]. apply list_elem_of_here.
  - intros Hg. apply list_elem_of_further, IH, Hg.
Qed.

Lemma jsmap_elem_get {K V} `{EqDecision K} (k : K) (v : V) m :
  NoDup m.*1 → (k, v) ∈ m → JsMap.get k m = Some v.
Proof.
  induction m as [|[k' v'] m IH]; csimpl; intros Hnd Hin.
  - apply elem_of_nil in Hin. contradiction.
  - apply NoDup_cons in Hnd as [Hk' Hnd].
    apply elem_of_cons in Hin as [[= -> ->] | Hin].
    + rewrite decide_True by reflexivity. reflexivity.
    + destruct (decide (k' = k)) as [-> | Hne].
      * exfalso. apply Hk'. apply list_elem_of_fmap. exists (k, v). auto.
      * apply IH; assumption.
Qed.

Lemma idKeyed_set k m byId :
  m_id m = k → idKeyed byId → idKeyed (JsMap.set k m byId).
Proof.
  intros Hk Hby k' m' Hin.
  apply jsmap_set_elem in Hin as [[= -> ->] | Hin]; [exact Hk | apply Hby, Hin].
Qed.

Lemma ofEntries_acc_wf (stored : list matrix) (acc : list (string * matrix)) :
  NoDup acc.*1 → idKeyed acc →
  let byId := foldl (λ m e, JsMap.set e.1 e.2 m) acc (byIdEntries stored) in
  NoDup byId.*1 ∧ idKeyed byId.
Proof.
  revert acc. induction stored as [|x stored IH]; intros acc Hnd Hid; simpl.
  - split; assumption.
  - apply IH; [apply jsmap_set_NoDup, Hnd | apply idKeyed_set; [reflexivity | exact Hid]].
Qed.

Lemma ofEntries_wf (stored : list matrix) :
  NoDup (JsMap.ofEntries (byIdEntries stored)).*1
  ∧ idKeyed (JsMap.ofEntries (byIdEntries stored)).
Proof.
  apply (ofEntries_acc_wf stored []).
  - apply NoDup_nil_2.
  - intros k m Hin. apply elem_of_nil in Hin. contradiction.
Qed.

Lemma has_true_get {K V} `{EqDecision K} (k : K) (m : list (K * V)) :
  JsMap.has k m = true ↔ is_Some (JsMap.get k m).
Proof. unfold JsMap.has. apply bool_decide_eq_true. Qed.

Lemma ensureDefault_wf byId d :
  NoDup byId.*1 → idKeyed byId →
  NoDup (ensureDefault byId d).*1 ∧ idKeyed (ensureDefault byId d).
Proof.
  intros Hnd Hid. unfold ensureDefault.
  destruct (JsMap.has (m_id d) byId) eqn:Hhas; simpl.
  - destruct (JsMap.get (m_id d) byId) as [e|] eqn:Hget; [| split; assumption].
    split; [apply jsmap_set_NoDup, Hnd |].
    apply idKeyed_set; [| exact Hid]. simpl.
    apply (Hid _ _ (jsmap_get_elem _ _ _ Hget)).
  - split; [apply jsmap_set_NoDup, Hnd | apply idKeyed_set; [reflexivity | exact Hid]].
Qed.

(** After its own step a default id is bound to the default's name, pinned. *)
Lemma ensureDefault_get_eq byId d :
  idKeyed byId →
  JsMap.get (m_id d) (ensureDefault byId d)
  = Some (if JsMap.has (m_id d) byId then mkMatrix (m_id d) (m_name d) true else d).
Proof.
  intros Hid. unfold ensureDefault.
  destruct (JsMap.has (m_id d) byId) eqn:Hhas; simpl.
  - apply has_true_get in Hhas as [e Hget]. rewrite Hget.
    rewrite jsmap_get_set_eq. f_equal. f_equal.
    apply (Hid _ _ (jsmap_get_elem _ _ _ Hget)).
  - apply jsmap_get_set_eq.
Qed.

Lemma ensureDefault_get_ne byId d k :
  k ≠ m_id d → JsMap.get k (ensureDefault byId d) = JsMap.get k byId.
Proof.
  intros Hne. unfold ensureDefault.
  destruct (JsMap.has (m_id d) byId); simpl.
  - destruct (JsMap.get (m_id d) byId); [| reflexivity].
    apply jsmap_get_set_ne. congruence.
  - apply jsmap_get_set_ne. congruence.
Qed.

Lemma ensureDefaults_wf ds byId :
  NoDup byId.*1 → idKeyed byId →
  NoDup (foldl ensureDefault byId ds).*1 ∧ idKeyed (foldl ensureDefault byId ds).
Proof.
  revert byId. induction ds as [|d ds IH]; intros byId Hnd Hid; simpl.
  - split; assumption.
  - destruct (ensureDefault_wf byId d Hnd Hid). apply IH; assumption.
Qed.

Lemma ensureDefaults_get_other ds byId k :
  k ∉ m_id <$> ds → JsMap.get k (foldl ensureDefault byId ds) = JsMap.get k byId.
Proof.
  revert byId. induction ds as [|d ds IH]; intros byId Hk; csimpl in *; [reflexivity |].
  apply not_elem_of_cons in Hk as [Hne Hk].
  rewrite IH by exact Hk. apply ensureDefault_get_ne, Hne.
Qed.

Lemma ensureDefaults_get_default ds byId d :
  NoDup (m_id <$> ds) → idKeyed byId → NoDup byId.*1 → d ∈ ds →
  JsMap.get (m_id d) (foldl ensureDefault byId ds)
  = Some (if JsMap.has (m_id d) byId then mkMatrix (m_id d) (m_name d) true else d).
Proof.
  revert byId. induction ds as [|d0 ds IH]; intros byId Hnd Hid Hnk Hin; csimpl in *.
  - apply elem_of_nil in Hin. contradiction.
  - apply NoDup_cons in Hnd as [Hd0 Hnd].
    destruct (ensureDefault_wf byId d0 Hnk Hid) as [Hnk' Hid'].
    apply elem_of_cons in Hin as [-> | Hin].
    + rewrite ensureDefaults_get_other by exact Hd0.
      apply ensureDefault_get_eq, Hid.
    + assert (m_id d ≠ m_id d0) as Hne.
      { intros E. apply Hd0. rewrite <- E. apply list_elem_of_fmap_2. exact Hin. }
      rewrite IH by assumption. f_equal.
      unfold JsMap.has. rewrite ensureDefault_get_ne by exact Hne. reflexivity.
Qed.

Lemma idKeyed_cons k m byId : idKeyed ((k, m) :: byId) → m_id m = k ∧ idKeyed byId.
Proof.
  intros H. split; [apply H, list_elem_of_here |].
  intros k' m' Hin. apply H, list_elem_of_further, Hin.
Qed.

Lemma values_ids byId : idKeyed byId → m_id <$> JsMap.values byId = byId.*1.
Proof.
  induction byId as [|[k m] byId IH]; intros Hid; [reflexivity |].
  apply idKeyed_cons in Hid as [Hk Hid]. unfold JsMap.values in *. csimpl.
  rewrite IH by exact Hid. rewrite Hk. reflexivity.
Qed.

Lemma values_elem byId m :
  NoDup byId.*1 → idKeyed byId →
  m ∈ JsMap.values byId ↔ JsMap.get (m_id m) byId = Some m.
Proof.
  intros Hnd Hid. unfold JsMap.values. split.
  - intros Hin. apply list_elem_of_fmap in Hin as ([k m'] & -> & Hin). simpl.
    rewrite (Hid _ _ Hin). apply jsmap_elem_get; assumption.
  - intros Hget. apply jsmap_get_elem in Hget.
    apply list_elem_of_fmap. exists (m_id m, m). auto.
Qed.

(** Rebuilding the map from its own values gives the map back. *)
Lemma ofEntries_values_acc byId acc :
  NoDup (acc.*1 ++ byId.*1) → idKeyed byId →
  foldl (λ m e, JsMap.set e.1 e.2 m) acc (byIdEntries (JsMap.values byId))
  = acc ++ byId.
Proof.
  revert acc. induction byId as [|[k m] byId IH]; intros acc Hnd Hid; csimpl.
  - rewrite app_nil_r. reflexivity.
  - apply idKeyed_cons in Hid as [Hk Hid]. rewrite Hk.
    csimpl in Hnd.
    rewrite jsmap_set_fresh.
    + rewrite IH; [rewrite <- app_assoc; reflexivity | | exact Hid].
      rewrite fmap_app. csimpl. rewrite <- app_assoc. exact Hnd.
    + apply NoDup_app in Hnd as (_ & Hdisj & _).
      intros Hin. apply (Hdisj _ Hin). apply list_elem_of_here.
Qed.

Lemma ofEntries_values byId :
  NoDup byId.*1 → idKeyed byId →
  JsMap.ofEntries (byIdEntries (JsMap.values byId)) = byId.
Proof. intros Hnd Hid. apply (ofEntries_values_acc byId []); assumption. Qed.

Lemma pinned_default_eq d : m_pinned d = true → mkMatrix (m_id d) (m_name d) true = d.
Proof. destruct d as [i n p]. simpl. intros ->. reflexivity. Qed.

Lemma ensureDefaults_fixed ds byId :
  Forall (λ d, m_pinned d = true) ds →
  (∀ d, d ∈ ds → JsMap.get (m_id d) byId = Some d) →
  foldl ensureDefault byId ds = byId.
Proof.
  induction 1 as [|d ds Hp _ IH]; intros Hget; simpl; [reflexivity |].
  assert (ensureDefault byId d = byId) as ->.
  { unfold ensureDefault. pose proof (Hget d (list_elem_of_here _ _)) as Hd.
    unfold JsMap.has. rewrite Hd. rewrite bool_decide_eq_true_2 by eauto. simpl.
    rewrite (pinned_default_eq d Hp). apply jsmap_set_same, Hd. }
  apply IH. intros d' Hin. apply Hget, list_elem_of_further, Hin.
Qed.

Lemma defaults_pinned : Forall (λ d, m_pinned d = true) DEFAULT_MATRICES.
Proof. repeat constructor. Qed.

Lemma defaultIds_NoDup : NoDup defaultIds.
Proof. compute_done. Qed.

Lemma normalizedById_wf stored :
  NoDup (normalizedById stored).*1 ∧ idKeyed (normalizedById stored).
Proof.
  destruct (ofEntries_wf stored). apply ensureDefaults_wf; assumption.
Qed.

Lemma normalizedById_default stored d :
  d ∈ DEFAULT_MATRICES → JsMap.get (m_id d) (normalizedById stored) = Some d.
Proof.
  intros Hin. destruct (ofEntries_wf stored) as [Hnd Hid].
  unfold normalizedById.
  rewrite (ensureDefaults_get_default _ _ d defaultIds_NoDup Hid Hnd Hin).
  f_equal. destruct (JsMap.has _ _); [| reflexivity].
  apply pinned_default_eq.
  exact (proj1 (Forall_forall _ _) defaults_pinned d Hin).
Qed.

Lemma ensureDefaultPinnedMatrices_idempotent (stored : list matrix) :
  ensureDefaultPinnedMatrices (ensureDefaultPinnedMatrices stored)
  = ensureDefaultPinnedMatrices stored.
Proof.
  unfold ensureDefaultPinnedMatrices. fold (normalizedById stored).
  destruct (normalizedById_wf stored) as [Hnd Hid].
  rewrite (ofEntries_values _ Hnd Hid).
  rewrite (ensureDefaults_fixed _ _ defaults_pinned); [reflexivity |].
  intros d. apply normalizedById_default.
Qed.

(** C6.  Schema migration is idempotent: migrating the tasks (legacy tag
    mapping and order backfill) and normalising the matrices a second
    time, on their own output, gives that output again. *)
Theorem migration_idempotent (allTasks : list task) (stored : list matrix) :
  migrateTasks (migrateTasks allTasks) = migrateTasks allTasks
  ∧ ensureDefaultPinnedMatrices (ensureDefaultPinnedMatrices stored)
    = ensureDefaultPinnedMatrices stored.
Proof.
  split; [apply migrateTasks_idempotent | apply ensureDefaultPinnedMatrices_idempotent].
Qed.

(** The value bound to an id by [new Map (list.map ((m) => [m.id, m]))] is
    the last entry of the list with that id. *)
Lemma get_ofEntries_last (stored : list matrix) (k : string) :
  JsMap.get k (JsMap.ofEntries (byIdEntries stored))
  = last (filter (λ m, m_id m = k) stored).
Proof.
  induction stored as [|x stored IH] using rev_ind; [reflexivity |].
  unfold JsMap.ofEntries, byIdEntries in *.
  rewrite fmap_app, foldl_app. simpl. rewrite filter_app.
  destruct (decide (m_id x = k)) as [<- | Hne].
  - rewrite jsmap_get_set_eq. rewrite filter_cons_True by reflexivity.
    rewrite filter_nil, last_snoc. reflexivity.
  - rewrite jsmap_get_set_ne by exact Hne. rewrite IH.
    rewrite filter_cons_False by exact Hne. rewrite filter_nil, app_nil_r.
    reflexivity.
Qed.

Lemma filter_key_absent {A B} `{EqDecision B} (f : A → B) (l : list A) (k : B) :
  k ∉ f <$> l → filter (λ y, f y = k) l = [].
Proof.
  induction l as [|y l IH]; csimpl; intros Hk; [reflexivity |].
  apply not_elem_of_cons in Hk as [Hne Hk].
  rewrite filter_cons_False by congruence. apply IH, Hk.
Qed.

Lemma filter_same_key_NoDup {A B} `{EqDecision B} (f : A → B) (l : list A) x :
  NoDup (f <$> l) → x ∈ l → filter (λ y, f y = f x) l = [x].
Proof.
  induction l as [|y l IH]; csimpl; intros Hnd Hin.
  - apply elem_of_nil in Hin. contradiction.
  - apply NoDup_cons in Hnd as [Hy Hnd].
    apply elem_of_cons in Hin as [-> | Hin].
    + rewrite filter_cons_True by reflexivity.
      rewrite filter_key_absent by exact Hy. reflexivity.
    + rewrite filter_cons_False; [apply IH; assumption |].
      intros E. apply Hy. rewrite E. apply list_elem_of_fmap_2, Hin.
Qed.

(** C7, counterexample.  Two stored entries with one non-default id
    collapse into the later one, so the earlier entry is not preserved. *)
Lemma duplicate_matrix_id_collapses :
  ensureDefaultPinnedMatrices duplicatedIdMatrices
  = mkMatrix "x" "B" false :: DEFAULT_MATRICES
  ∧ ¬ preservesNonDefaults duplicatedIdMatrices.
Proof.
  split; [reflexivity |].
  intros H. specialize (H (mkMatrix "x" "A" false)).
  assert (mkMatrix "x" "A" false ∈ ensureDefaultPinnedMatrices duplicatedIdMatrices)
    as Hin.
  { apply H; [apply list_elem_of_here | compute_done]. }
  revert Hin. compute_done.
Qed.

(** C7, amended.  The normalised list holds every default matrix, with
    the default name and [pinned = true] whatever was stored under its
    id, and holds one entry per id.  A non-default matrix is in the
    output exactly when it is the last stored entry with its id; so when
    the stored ids are pairwise distinct every non-default matrix,
    pinned or not, is preserved unchanged. *)
Theorem default_matrices_enforced (stored : list matrix) :
  let out := ensureDefaultPinnedMatrices stored in
  (∀ d, d ∈ DEFAULT_MATRICES → d ∈ out)
  ∧ (∀ m, m ∈ out → m_id m ∈ defaultIds → m ∈ DEFAULT_MATRICES)
  ∧ NoDup (m_id <$> out)
  ∧ (∀ m, m_id m ∉ defaultIds →
       m ∈ out ↔ last (filter (λ x, m_id x = m_id m) stored) = Some m)
  ∧ (NoDup (m_id <$> stored) →
     ∀ m, m ∈ stored → m_id m ∉ defaultIds → m ∈ out).
Proof.
  intros out. subst out. unfold ensureDefaultPinnedMatrices.
  fold (normalizedById stored).
  destruct (normalizedById_wf stored) as [Hnd Hid].
  assert (Hnon : ∀ m, m_id m ∉ defaultIds →
            m ∈ JsMap.values (normalizedById stored)
            ↔ last (filter (λ x, m_id x = m_id m) stored) = Some m).
  { intros m Hm. rewrite (values_elem _ _ Hnd Hid).
    unfold normalizedById. rewrite ensureDefaults_get_other by exact Hm.
    rewrite get_ofEntries_last. reflexivity. }
  split; [| split; [| split; [| split]]].
  - intros d Hd. apply (values_elem _ _ Hnd Hid). apply normalizedById_default, Hd.
  - intros m Hm Hdef. apply (values_elem _ _ Hnd Hid) in Hm.
    apply list_elem_of_fmap in Hdef as (d & Hmd & Hd).
    pose proof (normalizedById_default stored d Hd) as Hget.
    rewrite <- Hmd in Hget. rewrite Hm in Hget. injection Hget as ->. exact Hd.
  - rewrite (values_ids _ Hid). exact Hnd.
  - exact Hnon.
  - intros Hids m Hin Hm. apply (Hnon m Hm).
    rewrite (filter_same_key_NoDup m_id stored m Hids Hin). reflexivity.
Qed.

Lemma default_matrices_enforced_witness :
  mkMatrix "today" "Today" false ∈ ensureDefaultPinnedMatrices storedWorkUnpinned
  ∧ mkMatrix "work" "Work" true ∈ ensureDefaultPinnedMatrices storedWorkUnpinned.
Proof.
  destruct (default_matrices_enforced storedWorkUnpinned)
    as (Hdef & _ & _ & _ & Hkeep).
  split.
  - apply Hkeep; compute_done.
  - apply Hdef. compute_done.
Defined.

(** The specification's example: a stored [work] that is not pinned. *)
Example ensureDefaultPinnedMatrices_example :
  ensureDefaultPinnedMatrices [ mkMatrix "work" "Work" false ] = DEFAULT_MATRICES.
Proof. reflexivity. Qed.

(** ** View composition *)

Section JsSetFacts.
Context {K : Type} `{EqDecision K}.
Implicit Types (s l : list K) (k x : K).

Lemma jsset_add_elem k s x : x ∈ JsSet.add k s ↔ x = k ∨ x ∈ s.
Proof.
  unfold JsSet.add. destruct (decide (k ∈ s)) as [Hin | Hnin].
  - split; [auto | intros [-> | H]; assumption].
  - rewrite elem_of_app, list_elem_of_singleton. tauto.
Qed.

Lemma jsset_add_NoDup k s : NoDup s → NoDup (JsSet.add k s).
Proof.
  intros Hnd. unfold JsSet.add. destruct (decide (k ∈ s)); [exact Hnd |].
  apply NoDup_app. split; [exact Hnd |]. split; [| apply NoDup_singleton].
  intros x Hx Hx'. apply list_elem_of_singleton in Hx'. subst. contradiction.
Qed.

Lemma jsset_fold_elem l s x :
  x ∈ foldl (λ s k, JsSet.add k s) s l ↔ x ∈ s ∨ x ∈ l.
Proof.
  revert s. induction l as [|k l IH]; intros s; simpl.
  - rewrite elem_of_nil. tauto.
  - rewrite IH, jsset_add_elem, elem_of_cons. tauto.
Qed.

Lemma jsset_fold_NoDup l s : NoDup s → NoDup (foldl (λ s k, JsSet.add k s) s l).
Proof.
  revert s. induction l as [|k l IH]; intros s Hnd; simpl; [exact Hnd |].
  apply IH, jsset_add_NoDup, Hnd.
Qed.

Lemma jsset_ofList_elem l x : x ∈ JsSet.ofList l ↔ x ∈ l.
Proof. unfold JsSet.ofList. rewrite jsset_fold_elem, elem_of_nil. tauto. Qed.

Lemma jsset_ofList_NoDup l : NoDup (JsSet.ofList l).
Proof. apply jsset_fold_NoDup, NoDup_nil_2. Qed.
End JsSetFacts.

Lemma activeIds_elem pinned focus id :
  id ∈ activeIds pinned focus ↔ isActive pinned focus id.
Proof.
  unfold activeIds, isActive. destruct (decide (focus ≠ "none")) as [Hf | Hf].
  - rewrite jsset_add_elem, jsset_ofList_elem. tauto.
  - rewrite jsset_ofList_elem. tauto.
Qed.

Lemma activeIds_NoDup pinned focus : NoDup (activeIds pinned focus).
Proof.
  unfold activeIds. destruct (decide (focus ≠ "none")).
  - apply jsset_add_NoDup, jsset_ofList_NoDup.
  - apply jsset_ofList_NoDup.
Qed.

(** The [for (const id of activeSet)] loop appends, in order, the valid
    ids that the list does not hold yet. *)
Lemma append_missing_loop (valid : gset string) (active ordered : list string) :
  NoDup active →
  foldl (λ ordered id,
           if bool_decide (id ∈ valid) && negb (includes id ordered)
           then ordered ++ [id] else ordered)
        ordered active
  = ordered ++ filter (λ id, id ∈ valid ∧ id ∉ ordered) active.
Proof.
  intros Hnd. revert ordered.
  induction Hnd as [|a active Ha Hnd IH]; intros ordered; simpl.
  - rewrite app_nil_r. reflexivity.
  - rewrite IH. unfold includes.
    destruct (decide (a ∈ valid ∧ a ∉ ordered)) as [[Hv Ho] | Hno].
    + rewrite (bool_decide_eq_true_2 _ Hv), (bool_decide_eq_false_2 _ Ho). simpl.
      rewrite filter_cons_True by (split; assumption).
      rewrite <- app_assoc. simpl. do 2 f_equal.
      apply filter_ext_elem. intros id Hid.
      rewrite elem_of_app, list_elem_of_singleton.
      split; [intros [? ?]; split; [assumption | tauto] |].
      intros [? Hn]. split; [assumption |]. intros [? | ->]; contradiction.
    + rewrite filter_cons_False by exact Hno.
      destruct (bool_decide (a ∈ valid) && negb (bool_decide (a ∈ ordered))) eqn:E;
        [| reflexivity].
      exfalso. apply Hno. apply andb_true_iff in E as [E1 E2].
      apply bool_decide_eq_true in E1. apply negb_true_iff in E2.
      apply bool_decide_eq_false in E2. split; assumption.
Qed.

Lemma computeSelectedMatrixIds_unfold ms pinned focus view :
  computeSelectedMatrixIds ms pinned focus view
  = foldl (λ ordered id,
             if bool_decide (id ∈ (list_to_set (m_id <$> ms) : gset string))
                && negb (includes id ordered)
             then ordered ++ [id] else ordered)
          (filter (λ id, id ∈ activeIds pinned focus)
             (filter (λ id, id ∈ (list_to_set (m_id <$> ms) : gset string)) view))
          (activeIds pinned focus).
Proof. reflexivity. Qed.

Lemma computeSelectedMatrixIds_spec ms pinned focus view :
  computeSelectedMatrixIds ms pinned focus view
  = selectedMatrixIdsSpec ms pinned focus view.
Proof.
  rewrite computeSelectedMatrixIds_unfold.
  rewrite append_missing_loop by apply activeIds_NoDup.
  unfold selectedMatrixIdsSpec. rewrite list_filter_filter.
  assert (filter (λ id, id ∈ activeIds pinned focus
                        ∧ id ∈ (list_to_set (m_id <$> ms) : gset string)) view
          = filter (λ id, isValid ms id ∧ isActive pinned focus id) view) as ->.
  { apply list_filter_iff. intros id.
    rewrite activeIds_elem, elem_of_list_to_set. unfold isValid. tauto. }
  f_equal. apply list_filter_iff. intros id.
  rewrite elem_of_list_to_set. unfold isValid. tauto.
Qed.

(** C5, counterexample.  With an id twice in [viewOrderIds] the derived
    sequence holds it twice. *)
Lemma selectedMatrixIds_repeats :
  computeSelectedMatrixIds DEFAULT_MATRICES [ "work" ] "none" repeatedViewOrder
  = [ "work"; "work" ]
  ∧ ¬ NoDup (computeSelectedMatrixIds DEFAULT_MATRICES [ "work" ] "none"
               repeatedViewOrder).
Proof.
  split; [reflexivity |].
  change (¬ NoDup [ "work"; "work" ]). intros H.
  apply NoDup_cons in H as [H _]. apply H, list_elem_of_here.
Qed.

(** C5, amended.  [selectedMatrixIds] is [viewOrderIds] filtered to the
    ids that exist in the matrix list and are active (in
    [activePinnedIds], or the focus when it is not ["none"]), followed by
    the remaining valid active ids in insertion order; its elements are
    exactly the valid active ids.  It repeats an id exactly when the
    filtered [viewOrderIds] does, so it is de-duplicated whenever
    [viewOrderIds] is. *)
Theorem selectedMatrixIds_composition (ms : list matrix) (pinned : list string)
    (focus : string) (view : list string) :
  let selected := computeSelectedMatrixIds ms pinned focus view in
  selected = selectedMatrixIdsSpec ms pinned focus view
  ∧ (∀ id, id ∈ selected ↔ isValid ms id ∧ isActive pinned focus id)
  ∧ (NoDup selected
     ↔ NoDup (filter (λ id, isValid ms id ∧ isActive pinned focus id) view))
  ∧ (NoDup view → NoDup selected).
Proof.
  intros selected. subst selected. rewrite computeSelectedMatrixIds_spec.
  unfold selectedMatrixIdsSpec.
  set (kept := filter (λ id, isValid ms id ∧ isActive pinned focus id) view).
  assert (Hnd : NoDup kept →
                NoDup (kept ++ filter (λ id, isValid ms id ∧ id ∉ kept)
                                      (activeIds pinned focus))).
  { intros Hk. apply NoDup_app. split; [exact Hk |]. split.
    - intros id Hin Hin'. apply list_elem_of_filter in Hin' as [[_ Hn] _].
      contradiction.
    - apply NoDup_filter, activeIds_NoDup. }
  split; [reflexivity |]. split; [| split].
  - intros id. rewrite elem_of_app. split.
    + intros [Hin | Hin]; apply list_elem_of_filter in Hin.
      * exact (proj1 Hin).
      * destruct Hin as [[Hv _] Ha]. apply activeIds_elem in Ha. split; assumption.
    + intros [Hv Ha]. destruct (decide (id ∈ kept)) as [Hin | Hnin]; [left; exact Hin |].
      right. apply list_elem_of_filter. split; [split; assumption |].
      apply activeIds_elem, Ha.
  - split; [| exact Hnd]. intros H. apply NoDup_app in H as [H _]. exact H.
  - intros Hv. apply Hnd. apply NoDup_filter, Hv.
Qed.

Lemma selectedMatrixIds_composition_witness :
  NoDup (computeSelectedMatrixIds DEFAULT_MATRICES [ "work"; "goals" ] "none"
           [ "goals"; "work"; "personal" ]).
Proof.
  apply (selectedMatrixIds_composition DEFAULT_MATRICES [ "work"; "goals" ] "none"
           [ "goals"; "work"; "personal" ]).
  compute_done.
Defined.

(** ** Ordering engine *)

(** The sort is a permutation of its input. *)
Lemma insertBy_Permutation {A} (cmp : A → A → Z) x (l : list A) :
  insertBy cmp x l ≡ₚ x :: l.
Proof.
  induction l as [|y l IH]; simpl; [reflexivity |].
  destruct (cmp x y <=? 0)%Z; [reflexivity |].
  rewrite IH. apply Permutation_swap.
Qed.

Lemma sortBy_Permutation {A} (cmp : A → A → Z) (l : list A) : sortBy cmp l ≡ₚ l.
Proof.
  induction l as [|x l IH]; simpl; [reflexivity |].
  rewrite insertBy_Permutation. apply Permutation_skip, IH.
Qed.

(** Positions found by [indexOf]. *)
Section IndexOf.
Context {A : Type} `{EqDecision A}.
Implicit Types (l : list A) (x : A).

Lemma indexOf_None x l : indexOf x l = None ↔ x ∉ l.
Proof.
  induction l as [|y l IH]; simpl.
  - split; [intros _; apply not_elem_of_nil | reflexivity].
  - rewrite not_elem_of_cons. destruct (decide (y = x)) as [-> | Hne].
    + split; [discriminate | intros [Hx _]; congruence].
    + rewrite fmap_None, IH. split; [intros Hx; split; [congruence | exact Hx] | tauto].
Qed.

Lemma indexOf_Some x l i : indexOf x l = Some i → l !! i = Some x.
Proof.
  revert i. induction l as [|y l IH]; intros i; simpl; [discriminate |].
  destruct (decide (y = x)) as [-> | Hne].
  - intros [= <-]. reflexivity.
  - intros Hi. apply fmap_Some in Hi as (j & Hj & ->). simpl. apply IH, Hj.
Qed.

Lemma indexOf_elem x l : x ∈ l → is_Some (indexOf x l).
Proof.
  intros Hin. destruct (indexOf x l) eqn:E; [eauto |].
  apply indexOf_None in E. contradiction.
Qed.

Lemma indexOf_lookup_NoDup x l i : NoDup l → l !! i = Some x → indexOf x l = Some i.
Proof.
  intros Hnd Hi. destruct (indexOf_elem x l) as [j Hj].
  { eapply list_elem_of_lookup_2, Hi. }
  rewrite Hj. f_equal.
  eapply NoDup_lookup; [exact Hnd | apply indexOf_Some, Hj | exact Hi].
Qed.

Lemma indexOf_fmap_self l :
  NoDup l → (λ x, indexOf x l) <$> l = Some <$> seq 0 (length l).
Proof.
  induction l as [|a l IH]; intros Hnd; [reflexivity |].
  apply NoDup_cons in Hnd as [Ha Hnd]. csimpl.
  rewrite decide_True by reflexivity. f_equal.
  rewrite <- fmap_S_seq, <- list_fmap_compose.
  transitivity (fmap S <$> ((λ x, indexOf x l) <$> l)).
  - rewrite <- list_fmap_compose. apply list_fmap_ext. intros i x Hx. simpl.
    rewrite decide_False; [reflexivity |].
    intros ->. apply Ha. eapply list_elem_of_lookup_2, Hx.
  - rewrite IH by exact Hnd. rewrite <- list_fmap_compose. reflexivity.
Qed.
End IndexOf.

(** The [Map] built by [forEach ((id, idx) => map.set (id, idx))] binds
    each id of a duplicate-free list to its position. *)
Lemma indexMapFrom_lookup (ids : list Z) (idx : nat) (m : gmap Z nat) (k : Z) :
  NoDup ids →
  indexMapFrom idx ids m !! k
  = match indexOf k ids with Some j => Some (idx + j) | None => m !! k end.
Proof.
  intros Hnd. revert idx m. induction Hnd as [|id ids Hid Hnd IH]; intros idx m.
  - reflexivity.
  - simpl. rewrite IH. destruct (decide (id = k)) as [-> | Hne].
    + apply indexOf_None in Hid. rewrite Hid. simpl.
      rewrite lookup_insert_eq. f_equal. lia.
    + destruct (indexOf k ids) as [j|]; simpl.
      * f_equal. lia.
      * apply lookup_insert_ne, Hne.
Qed.

Lemma indexMap_lookup (ids : list Z) (k : Z) :
  NoDup ids → indexMap ids !! k = indexOf k ids.
Proof.
  intros Hnd. unfold indexMap. rewrite indexMapFrom_lookup by exact Hnd.
  destruct (indexOf k ids); reflexivity.
Qed.

Lemma iotaOrders_elem n o :
  o ∈ iotaOrders n ↔ ∃ k : nat, k < n ∧ o = Some (Z.of_nat k).
Proof.
  unfold iotaOrders. rewrite list_elem_of_fmap. split.
  - intros (k & -> & Hk). apply elem_of_seq in Hk. exists k. split; [lia | reflexivity].
  - intros (k & Hk & ->). exists k. split; [reflexivity |]. apply elem_of_seq. lia.
Qed.

Lemma iotaOrders_NoDup n : NoDup (iotaOrders n).
Proof.
  unfold iotaOrders. apply NoDup_fmap_2; [| apply NoDup_seq].
  intros a b [= E]. lia.
Qed.

Lemma iotaOrders_length n : length (iotaOrders n) = n.
Proof. unfold iotaOrders. rewrite length_fmap, length_seq. reflexivity. Qed.

Lemma iotaOrders_S n : iotaOrders (S n) ≡ₚ Some (Z.of_nat n) :: iotaOrders n.
Proof.
  unfold iotaOrders. rewrite seq_S, fmap_app. simpl.
  rewrite Permutation_app_comm. reflexivity.
Qed.

Lemma ordersExact_contiguous l m u : ordersExact l m u ↔ contiguous l m u.
Proof.
  unfold ordersExact, contiguous. split.
  - intros Hex. symmetry. apply submseteq_length_Permutation.
    + apply NoDup_submseteq; [apply iotaOrders_NoDup |].
      intros o Ho. apply Hex, iotaOrders_elem, Ho.
    + rewrite iotaOrders_length. unfold scopeOrders. rewrite length_fmap. reflexivity.
  - intros Hperm o. rewrite Hperm. apply iotaOrders_elem.
Qed.

Lemma NoDup_fmap_inj_on {A B} (f : A → B) (l : list A) x y :
  NoDup (f <$> l) → x ∈ l → y ∈ l → f x = f y → x = y.
Proof.
  induction l as [|a l IH]; csimpl; intros Hnd Hx Hy E.
  - apply elem_of_nil in Hx. contradiction.
  - apply NoDup_cons in Hnd as [Ha Hnd].
    apply elem_of_cons in Hx as [-> | Hx]; apply elem_of_cons in Hy as [-> | Hy].
    + reflexivity.
    + exfalso. apply Ha. rewrite E. apply list_elem_of_fmap_2, Hy.
    + exfalso. apply Ha. rewrite <- E. apply list_elem_of_fmap_2, Hx.
    + apply IH; assumption.
Qed.

Lemma filter_fmap_stable {A} (P : A → Prop) `{!∀ x, Decision (P x)}
    (f : A → A) (l : list A) :
  (∀ x, P (f x) ↔ P x) → filter P (f <$> l) = f <$> filter P l.
Proof.
  intros Hf. induction l as [|a l IH]; [reflexivity |]. csimpl.
  destruct (decide (P a)) as [Hp | Hp].
  - rewrite (filter_cons_True P (f a)) by (apply Hf; exact Hp).
    rewrite (filter_cons_True P a) by exact Hp. csimpl.
    rewrite IH. reflexivity.
  - rewrite (filter_cons_False P (f a)) by (rewrite Hf; exact Hp).
    rewrite (filter_cons_False P a) by exact Hp. exact IH.
Qed.

Lemma fmap_fixed {A} (f : A → A) (l : list A) :
  (∀ x, x ∈ l → f x = x) → f <$> l = l.
Proof.
  intros Hf. rewrite <- (list_fmap_id l) at 2. apply list_fmap_ext.
  intros i x Hx. apply Hf. eapply list_elem_of_lookup_2, Hx.
Qed.

(** [inScope] reads [matrixId], [urgency] and [status] only. *)
Lemma inScope_ext m u (t t' : task) :
  t_matrixId t' = t_matrixId t → t_urgency t' = t_urgency t →
  t_status t' = t_status t → inScope m u t' = inScope m u t.
Proof. intros E1 E2 E3. unfold inScope, isLive. rewrite E1, E2, E3. reflexivity. Qed.

Lemma inScope_true m u t :
  inScope m u t ↔ t_matrixId t = m ∧ t_urgency t = u ∧ isLive t.
Proof.
  unfold inScope. rewrite !andb_True, !bool_decide_spec. tauto.
Qed.

Lemma inScope_unique m u m' u' t : inScope m u t → inScope m' u' t → m = m' ∧ u = u'.
Proof.
  rewrite !inScope_true. intros (<- & <- & _) (<- & <- & _). split; reflexivity.
Qed.

Lemma applyOrder_inScope updates m u t :
  inScope m u (applyOrder updates t) = inScope m u t.
Proof.
  unfold applyOrder. destruct (updates !! t_id t); [| reflexivity].
  apply inScope_ext; reflexivity.
Qed.

Lemma scopeTasks_applyOrders updates l m u :
  scopeTasks (applyOrders updates l) m u = applyOrder updates <$> scopeTasks l m u.
Proof.
  unfold scopeTasks, applyOrders. fold (applyOrder updates).
  apply filter_fmap_stable. intros t. rewrite applyOrder_inScope. reflexivity.
Qed.

(** Rewriting the orders of one scope from a duplicate-free arrangement
    of its ids: the scope becomes contiguous and the others keep their
    tasks. *)
Section RewriteScope.
Variables (l : list task) (m : option string) (u : urgency) (ids : list Z).
Hypothesis Hnd : NoDup (taskIds l).
Hypothesis Hperm : ids ≡ₚ taskIds (scopeTasks l m u).

Lemma rewrite_ids_NoDup : NoDup ids.
Proof.
  rewrite Hperm. unfold taskIds, scopeTasks.
  eapply sublist_NoDup; [exact Hnd |].
  apply fmap_sublist, sublist_filter.
Qed.

Lemma rewrite_ids_scope t : t ∈ l → t_id t ∈ ids ↔ inScope m u t.
Proof.
  intros Ht. rewrite Hperm. unfold taskIds, scopeTasks. split.
  - intros Hin. apply list_elem_of_fmap in Hin as (t' & E & Hin).
    apply list_elem_of_filter in Hin as [Hs Hin'].
    rewrite (NoDup_fmap_inj_on t_id l t t' Hnd Ht Hin' E). exact Hs.
  - intros Hs. apply list_elem_of_fmap_2, list_elem_of_filter. split; assumption.
Qed.

Lemma rewrite_other_scope m' u' :
  (m', u') ≠ (m, u) →
  scopeTasks (applyOrders (indexMap ids) l) m' u' = scopeTasks l m' u'.
Proof.
  intros Hne. rewrite scopeTasks_applyOrders. apply fmap_fixed.
  intros t Ht. apply list_elem_of_filter in Ht as [Hs Ht].
  unfold applyOrder. rewrite indexMap_lookup by apply rewrite_ids_NoDup.
  destruct (indexOf (t_id t) ids) as [i|] eqn:E; [| reflexivity].
  exfalso. apply Hne.
  assert (inScope m u t) as Hs'.
  { apply (rewrite_ids_scope t Ht). eapply list_elem_of_lookup_2, indexOf_Some, E. }
  destruct (inScope_unique _ _ _ _ _ Hs Hs') as [-> ->]. reflexivity.
Qed.

Lemma rewrite_scope_orders :
  scopeOrders (applyOrders (indexMap ids) l) m u
  = (λ id, Z.of_nat <$> indexOf id ids) <$> taskIds (scopeTasks l m u).
Proof.
  unfold scopeOrders, taskIds. rewrite scopeTasks_applyOrders.
  rewrite <- !list_fmap_compose. apply list_fmap_ext. intros i t Hi. simpl.
  assert (t ∈ scopeTasks l m u) as Ht by (eapply list_elem_of_lookup_2, Hi).
  apply list_elem_of_filter in Ht as [Hs Ht].
  unfold applyOrder. rewrite indexMap_lookup by apply rewrite_ids_NoDup.
  destruct (indexOf_elem (t_id t) ids) as [j Hj].
  { apply (rewrite_ids_scope t Ht), Hs. }
  rewrite Hj. reflexivity.
Qed.

Lemma rewrite_scope_contiguous : contiguous (applyOrders (indexMap ids) l) m u.
Proof.
  unfold contiguous. rewrite rewrite_scope_orders.
  rewrite scopeTasks_applyOrders, length_fmap.
  rewrite <- Hperm.
  replace (length (scopeTasks l m u)) with (length ids).
  - change ((fmap Z.of_nat ∘ (λ id, indexOf id ids)) <$> ids
            ≡ₚ iotaOrders (length ids)).
    rewrite list_fmap_compose.
    rewrite (indexOf_fmap_self ids rewrite_ids_NoDup).
    unfold iotaOrders. rewrite <- list_fmap_compose. reflexivity.
  - rewrite Hperm. unfold taskIds. rewrite length_fmap. reflexivity.
Qed.
End RewriteScope.

Lemma scopeGroup_ids l m u :
  taskIds (scopeGroup l m u) ≡ₚ taskIds (scopeTasks l m u).
Proof.
  unfold scopeGroup, taskIds. fold (scopeTasks l m u).
  apply fmap_Permutation, sortBy_Permutation.
Qed.

Lemma normalizeOrders_contiguous l m u :
  NoDup (taskIds l) → contiguous (normalizeOrders l m u) m u.
Proof.
  intros Hnd. unfold normalizeOrders.
  apply rewrite_scope_contiguous; [exact Hnd | apply scopeGroup_ids].
Qed.

Lemma normalizeOrders_other l m u m' u' :
  NoDup (taskIds l) → (m', u') ≠ (m, u) →
  scopeTasks (normalizeOrders l m u) m' u' = scopeTasks l m' u'.
Proof.
  intros Hnd Hne. unfold normalizeOrders.
  apply (rewrite_other_scope l m u _ Hnd (scopeGroup_ids l m u) m' u' Hne).
Qed.

(** The running maximum of [getNextOrder]. *)
Lemma foldl_max_spec {A} (f : A → Z) (a : Z) (ts : list A) :
  let r := foldl (λ m t, Z.max m (f t)) a ts in
  (a ≤ r)%Z ∧ (∀ t, t ∈ ts → (f t ≤ r)%Z) ∧ (r = a ∨ ∃ t, t ∈ ts ∧ r = f t).
Proof.
  revert a. induction ts as [|x ts IH]; intros a; simpl.
  - split; [lia |]. split; [| left; reflexivity].
    intros t Ht. apply elem_of_nil in Ht. contradiction.
  - destruct (IH (Z.max a (f x))) as (Hle & Hall & Hwit).
    split; [lia |]. split.
    + intros t Ht. apply elem_of_cons in Ht as [-> | Ht]; [lia | apply Hall, Ht].
    + destruct Hwit as [E | (t & Ht & E)].
      * destruct (Z.max_spec a (f x)) as [[_ E'] | [_ E']].
        -- right. exists x. split; [apply list_elem_of_here | congruence].
        -- left. congruence.
      * right. exists t. split; [apply list_elem_of_further, Ht | exact E].
Qed.

Lemma contiguous_order_Some l m u t :
  contiguous l m u → t ∈ scopeTasks l m u →
  ∃ k : nat, k < length (scopeTasks l m u) ∧ t_order t = Some (Z.of_nat k).
Proof.
  intros Hc Ht. apply iotaOrders_elem. rewrite <- Hc.
  unfold scopeOrders. apply list_elem_of_fmap_2, Ht.
Qed.

(** On a contiguous scope the next order is the number of its live tasks. *)
Lemma getNextOrder_contiguous l m u :
  contiguous l m u → getNextOrder l m u = Z.of_nat (length (scopeTasks l m u)).
Proof.
  intros Hc. unfold getNextOrder.
  assert (filter (λ t, inScope m u t && bool_decide (is_Some (t_order t))) l
          = scopeTasks l m u) as ->.
  { unfold scopeTasks. apply filter_ext_elem. intros t Ht.
    rewrite andb_True, bool_decide_spec. split; [tauto |]. intros Hs.
    split; [exact Hs |].
    destruct (contiguous_order_Some l m u t Hc) as (k & _ & E).
    - apply list_elem_of_filter. split; assumption.
    - rewrite E. eauto. }
  destruct (foldl_max_spec orderOrZero (-1) (scopeTasks l m u)) as (Hlo & Hall & Hwit).
  set (r := foldl _ _ _) in *.
  set (n := length (scopeTasks l m u)) in *.
  assert (r ≤ Z.of_nat n - 1)%Z as Hup.
  { destruct Hwit as [-> | (t & Ht & ->)]; [lia |].
    destruct (contiguous_order_Some l m u t Hc Ht) as (k & Hk & E).
    unfold orderOrZero. rewrite E. simpl. fold n in Hk. lia. }
  assert (Z.of_nat n - 1 ≤ r)%Z as Hdown.
  { destruct n as [|n'] eqn:En; [lia |].
    assert (Some (Z.of_nat n') ∈ scopeOrders l m u) as Hin.
    { rewrite Hc. apply iotaOrders_elem. exists n'. fold n. split; [lia | reflexivity]. }
    apply list_elem_of_fmap in Hin as (t & E & Ht).
    specialize (Hall t Ht). unfold orderOrZero in Hall. rewrite <- E in Hall.
    simpl in Hall. lia. }
  lia.
Qed.

(** Updating the one task with a given id. *)
Lemma mapTaskById_middle f (l1 l2 : list task) a :
  NoDup (taskIds (l1 ++ a :: l2)) →
  mapTaskById (t_id a) f (l1 ++ a :: l2) = l1 ++ f a :: l2.
Proof.
  intros Hnd. unfold mapTaskById. rewrite fmap_app. csimpl.
  rewrite decide_True by reflexivity.
  unfold taskIds in Hnd. rewrite fmap_app in Hnd. csimpl in Hnd.
  apply NoDup_app in Hnd as (_ & Hdisj & Hnd2).
  apply NoDup_cons in Hnd2 as [Ha _].
  f_equal; [| f_equal]; apply fmap_fixed; intros t Ht.
  - rewrite decide_False; [reflexivity |]. intros E.
    apply (Hdisj (t_id t)); [apply list_elem_of_fmap_2, Ht |].
    rewrite E. apply list_elem_of_here.
  - rewrite decide_False; [reflexivity |]. intros E.
    apply Ha. rewrite <- E. apply list_elem_of_fmap_2, Ht.
Qed.

Lemma getTaskById_Some s id a :
  getTaskById s id = Some a → a ∈ tasks s ∧ t_id a = id.
Proof.
  unfold getTaskById. intros H. apply find_some in H as [Hin Hid].
  split; [apply list_elem_of_In, Hin | apply bool_decide_eq_true in Hid; exact Hid].
Qed.

Lemma scopeTasks_middle (l1 l2 : list task) a m u :
  scopeTasks (l1 ++ a :: l2) m u
  = scopeTasks l1 m u ++ (if inScope m u a then [a] else []) ++ scopeTasks l2 m u.
Proof.
  unfold scopeTasks. rewrite filter_app, filter_cons.
  destruct (decide (inScope m u a)) as [Hs | Hs].
  - apply Is_true_true in Hs. rewrite Hs. reflexivity.
  - apply Is_true_false in Hs. rewrite Hs. reflexivity.
Qed.

Lemma contiguous_same_tasks l l' m u :
  scopeTasks l' m u = scopeTasks l m u → contiguous l m u → contiguous l' m u.
Proof. unfold contiguous, scopeOrders. intros ->. auto. Qed.

Lemma contiguous_empty l m u : scopeTasks l m u = [] → contiguous l m u.
Proof. unfold contiguous, scopeOrders. intros ->. reflexivity. Qed.

(** A task that enters a contiguous scope with the next order keeps it
    contiguous. *)
Lemma contiguous_enter l l' m u t :
  contiguous l m u →
  scopeTasks l' m u ≡ₚ t :: scopeTasks l m u →
  t_order t = Some (getNextOrder l m u) →
  contiguous l' m u.
Proof.
  intros Hc Hperm Ho. unfold contiguous, scopeOrders.
  rewrite Hperm. csimpl. rewrite iotaOrders_S, Ho.
  rewrite (getNextOrder_contiguous l m u Hc).
  apply Permutation_skip, Hc.
Qed.

Lemma arrayMove_Permutation {A} (items : list A) (from to : nat) :
  arrayMove items from to ≡ₚ items.
Proof.
  unfold arrayMove. destruct (items !! from) as [x|] eqn:E; [| reflexivity].
  set (next := take from items ++ drop (S from) items).
  transitivity (x :: next).
  - symmetry. etransitivity; [| apply Permutation_middle].
    rewrite take_drop. reflexivity.
  - subst next. etransitivity; [apply Permutation_middle |].
    rewrite (take_drop_middle items from x E). reflexivity.
Qed.

Lemma addTask_wellOrdered now nowIso s :
  now ∉ taskIds (tasks s) → wellOrdered (tasks s) →
  wellOrdered (tasks (addTask now nowIso s)).
Proof.
  intros Hfresh [Hnd Hc]. unfold addTask.
  destruct (negb (truthy (trim (d_text (newTask s))))); [split; assumption |].
  app_simpl.
  set (d := newTask s).
  set (t := mkTask now (d_text d) (Some (d_matrixId d)) None (d_urgency d) NotDone
                   (Some (getNextOrder (tasks s) (Some (d_matrixId d)) (d_urgency d)))
                   (Some nowIso) None None).
  split.
  - unfold taskIds. rewrite fmap_app. apply NoDup_app.
    split; [exact Hnd |]. split; [| apply NoDup_singleton].
    intros x Hx Hx'. apply list_elem_of_singleton in Hx'. subst x. contradiction.
  - intros m u.
    assert (scopeTasks (tasks s ++ [t]) m u
            = scopeTasks (tasks s) m u ++ (if inScope m u t then [t] else [])) as E.
    { unfold scopeTasks. rewrite filter_app. f_equal.
      rewrite filter_cons, filter_nil.
      destruct (decide (inScope m u t)) as [Hs | Hs].
      - apply Is_true_true in Hs. rewrite Hs. reflexivity.
      - apply Is_true_false in Hs. rewrite Hs. reflexivity. }
    destruct (inScope m u t) eqn:Hs.
    + apply Is_true_true, inScope_true in Hs as (Hm & Hu & _).
      simpl in Hm, Hu. subst m u.
      apply (contiguous_enter (tasks s) _ _ _ t (Hc _ _)); [| reflexivity].
      rewrite E. rewrite Permutation_app_comm. reflexivity.
    + apply (contiguous_same_tasks (tasks s)); [| apply Hc].
      rewrite E, app_nil_r. reflexivity.
Qed.

Lemma moveToUrgency_wellOrdered a u' l :
  a ∈ l → t_urgency a ≠ u' → wellOrdered l →
  wellOrdered (moveToUrgency a (t_id a) u' l).
Proof.
  intros Ha Hu [Hnd Hc]. split.
  { rewrite moveToUrgency_ids. exact Hnd. }
  apply list_elem_of_split in Ha as (l1 & l2 & ->).
  unfold moveToUrgency. rewrite (mapTaskById_middle _ l1 l2 a Hnd).
  set (next := getNextOrder (l1 ++ a :: l2) (t_matrixId a) u').
  set (a' := with_order (Some next) (with_urgency u' a)).
  assert (Hnd' : NoDup (taskIds (l1 ++ a' :: l2))).
  { unfold taskIds in *. rewrite fmap_app in *. exact Hnd. }
  intros m u.
  destruct (decide ((m, u) = (t_matrixId a, t_urgency a))) as [[= -> ->] | Hne].
  { apply normalizeOrders_contiguous, Hnd'. }
  apply (contiguous_same_tasks (l1 ++ a' :: l2));
    [apply normalizeOrders_other; assumption |].
  assert (inScope m u a = false) as Hout.
  { apply Is_true_false. intros Hs. apply Hne.
    apply inScope_true in Hs as (<- & <- & _). reflexivity. }
  assert (scopeTasks (l1 ++ a :: l2) m u = scopeTasks l1 m u ++ scopeTasks l2 m u)
    as Eold.
  { rewrite scopeTasks_middle, Hout. reflexivity. }
  destruct (inScope m u a') eqn:Hin.
  - pose proof Hin as Hin'.
    apply Is_true_true, inScope_true in Hin' as (Hm & Hu' & _).
    simpl in Hm, Hu'. subst m u.
    apply (contiguous_enter (l1 ++ a :: l2) _ _ _ a' (Hc _ _)); [| reflexivity].
    rewrite scopeTasks_middle, Eold, Hin. simpl.
    rewrite <- Permutation_middle. reflexivity.
  - apply (contiguous_same_tasks (l1 ++ a :: l2)); [| apply Hc].
    rewrite scopeTasks_middle, Hin, Eold. reflexivity.
Qed.

Lemma applyOrders_wellOrdered l m u ids :
  ids ≡ₚ taskIds (scopeTasks l m u) → wellOrdered l →
  wellOrdered (applyOrders (indexMap ids) l).
Proof.
  intros Hperm [Hnd Hc]. split; [rewrite applyOrders_ids; exact Hnd |].
  intros m' u'. destruct (decide ((m', u') = (m, u))) as [[= -> ->] | Hne].
  - apply rewrite_scope_contiguous; assumption.
  - apply (contiguous_same_tasks l); [| apply Hc].
    apply (rewrite_other_scope l m u ids Hnd Hperm m' u' Hne).
Qed.

Lemma reorderWithin_wellOrdered a activeId overId l :
  wellOrdered l → wellOrdered (reorderWithin a activeId overId l).
Proof.
  intros Hwo. unfold reorderWithin.
  destruct (indexOf activeId _) as [from|]; [| exact Hwo].
  destruct (indexOf overId _) as [to|]; [| exact Hwo].
  apply (applyOrders_wellOrdered l (t_matrixId a) (t_urgency a)); [| exact Hwo].
  rewrite arrayMove_Permutation. apply scopeGroup_ids.
Qed.

Lemma handleDragEnd_wellOrdered activeId over s :
  wellOrdered (tasks s) → wellOrdered (tasks (handleDragEnd activeId over s)).
Proof.
  intros Hwo. unfold handleDragEnd.
  destruct over as [[u | overId] |]; [| | exact Hwo];
    destruct (getTaskById s activeId) as [a|] eqn:Ha; try exact Hwo;
    destruct (negb _); try exact Hwo;
    apply getTaskById_Some in Ha as [Hin <-].
  - destruct (decide (t_urgency a = u)); [exact Hwo |]. app_simpl.
    apply moveToUrgency_wellOrdered; assumption.
  - destruct (getTaskById s overId) as [o|]; [| exact Hwo].
    destruct (decide (t_matrixId o ≠ t_matrixId a)); [exact Hwo |].
    destruct (decide (t_urgency o ≠ t_urgency a)) as [Hu | Hu].
    + app_simpl. apply moveToUrgency_wellOrdered; [assumption | congruence | assumption].
    + destruct (decide (t_id a = overId)); [exact Hwo |]. app_simpl.
      apply reorderWithin_wellOrdered, Hwo.
Qed.

(** Renormalising one matrix over a list of urgencies. *)
Lemma normalizeAll_scopes m us l :
  NoDup (taskIds l) →
  let r := foldl (λ next u, normalizeOrders next m u) l us in
  (∀ u, u ∈ us → contiguous r m u)
  ∧ (∀ m' u', m' ≠ m ∨ u' ∉ us → scopeTasks r m' u' = scopeTasks l m' u').
Proof.
  revert l. induction us as [|u0 us IH]; intros l Hnd; simpl.
  - split; [| reflexivity]. intros u Hu. apply elem_of_nil in Hu. contradiction.
  - assert (NoDup (taskIds (normalizeOrders l m u0))) as Hnd1.
    { rewrite normalizeOrders_ids. exact Hnd. }
    destruct (IH _ Hnd1) as [IHc IHo]. split.
    + intros u Hu. destruct (decide (u ∈ us)) as [Hin | Hnin]; [apply IHc, Hin |].
      apply elem_of_cons in Hu as [-> | Hu]; [| contradiction].
      apply (contiguous_same_tasks (normalizeOrders l m u0)).
      * apply IHo. right. exact Hnin.
      * apply normalizeOrders_contiguous, Hnd.
    + intros m' u' Hother. rewrite IHo.
      * apply normalizeOrders_other; [exact Hnd |].
        intros [= -> ->]. destruct Hother as [H | H]; [congruence |].
        apply H, list_elem_of_here.
      * destruct Hother as [H | H]; [left; exact H | right].
        intros Hin. apply H, list_elem_of_further, Hin.
Qed.

Lemma urgencyLevels_all u : u ∈ urgencyLevels.
Proof. destruct u; compute_done. Qed.

Lemma mergeMatrixInto_wellOrdered src dst s :
  wellOrdered (tasks s) → wellOrdered (tasks (mergeMatrixInto src dst s)).
Proof.
  intros [Hnd Hc]. split; [rewrite mergeMatrixInto_ids; exact Hnd |].
  unfold mergeMatrixInto.
  destruct (negb (truthy src) || bool_decide (src = "none")); [exact Hc |].
  destruct (negb (truthy dst) || bool_decide (src = dst)) eqn:Hguard; [exact Hc |].
  apply orb_false_iff in Hguard as [_ Hneq]. apply bool_decide_eq_false in Hneq.
  app_simpl.
  set (retag := λ t, if decide (t_matrixId t = Some src)
                     then with_matrixId (Some dst) t else t).
  set (moved := retag <$> tasks s).
  assert (NoDup (taskIds moved)) as Hnd'.
  { unfold moved, taskIds. rewrite <- list_fmap_compose.
    erewrite list_fmap_ext; [exact Hnd |].
    intros i t _. simpl. unfold retag. destruct (decide _); reflexivity. }
  destruct (normalizeAll_scopes (Some dst) urgencyLevels moved Hnd') as [Hdst Hoth].
  intros m u. destruct (decide (m = Some dst)) as [-> | Hm].
  { apply Hdst, urgencyLevels_all. }
  apply (contiguous_same_tasks moved); [apply Hoth; left; exact Hm |].
  destruct (decide (m = Some src)) as [-> | Hm'].
  - apply contiguous_empty. unfold scopeTasks, moved.
    apply filter_none. intros t' Ht'.
    apply list_elem_of_fmap in Ht' as (t & -> & _).
    rewrite inScope_true. intros (E & _). unfold retag in E.
    destruct (decide (t_matrixId t = Some src)) as [E' | E']; simpl in E; congruence.
  - apply (contiguous_same_tasks (tasks s)); [| apply Hc].
    unfold scopeTasks, moved.
    rewrite filter_fmap_stable.
    + apply fmap_fixed. intros t Ht. apply list_elem_of_filter in Ht as [Hs _].
      apply inScope_true in Hs as (E & _). unfold retag.
      rewrite decide_False by congruence. reflexivity.
    + intros t. unfold retag.
      destruct (decide (t_matrixId t = Some src)) as [E | E]; [| reflexivity].
      rewrite !inScope_true. simpl. split; intros (E' & _); congruence.
Qed.

Lemma wellOrdered_invariant l : wellOrdered l ↔ NoDup (taskIds l) ∧ orderInvariant l.
Proof.
  unfold wellOrdered, orderInvariant. split; intros [Hnd H]; (split; [exact Hnd |]);
    intros m u; apply ordersExact_contiguous, H.
Qed.

Lemma step_wellOrdered s s' :
  step s s' → wellOrdered (tasks s) → wellOrdered (tasks s').
Proof.
  intros Hstep Hwo. inversion Hstep as [? ? ? Hfresh | | | ? ? E]; subst.
  - apply addTask_wellOrdered; assumption.
  - apply handleDragEnd_wellOrdered, Hwo.
  - apply mergeMatrixInto_wellOrdered, Hwo.
  - rewrite E. exact Hwo.
Qed.

(** A scope without tasks is contiguous, so the invariant of a
    collection can be checked on the scopes of its tasks. *)
Lemma orderInvariant_by_tasks l :
  Forall (λ t, contiguous l (t_matrixId t) (t_urgency t)) l → orderInvariant l.
Proof.
  intros Hall m u. apply ordersExact_contiguous.
  destruct (scopeTasks l m u) as [|t r] eqn:E; [apply contiguous_empty, E |].
  assert (t ∈ scopeTasks l m u) as Ht by (rewrite E; apply list_elem_of_here).
  apply list_elem_of_filter in Ht as [Hs Ht].
  apply inScope_true in Hs as (<- & <- & _).
  exact (proj1 (Forall_forall _ _) Hall t Ht).
Qed.

(** C1, counterexample.  In a collection where two tasks share an id,
    every scope is contiguous, and one reorder in the [High] quadrant
    leaves the [Medium] quadrant with the orders [0, 0]; the same happens
    after an [addTask] that is given an id already in use. *)
Lemma duplicate_ids_break_contiguity :
  (orderInvariant (tasks duplicateIdState)
   ∧ (t_order <$> tasks (handleDragEnd 2 (Some (OverTask 5)) duplicateIdState))
     = [ Some 1%Z; Some 0%Z; Some 0%Z; Some 0%Z ]
   ∧ ¬ orderInvariant
        (tasks (handleDragEnd 2 (Some (OverTask 5)) duplicateIdState)))
  ∧ ((λ t, (t_id t, t_urgency t, t_order t)) <$> tasks reusedIdRun
     = [ (2%Z, High, Some 1%Z); (9%Z, High, Some 0%Z);
         (7%Z, Medium, Some 0%Z); (9%Z, Medium, Some 0%Z) ]
     ∧ ¬ orderInvariant (tasks reusedIdRun)).
Proof.
  assert (Hbad : ∀ l, scopeOrders l (Some "work") Medium = [ Some 0%Z; Some 0%Z ] →
                      ¬ orderInvariant l).
  { intros l E H. specialize (H (Some "work") Medium (Some 1%Z)).
    destruct H as [_ H]. rewrite E in H.
    assert (Some 1%Z ∈ [ Some 0%Z; Some 0%Z ]) as Hin.
    { apply H. exists 1. split; [| reflexivity].
      unfold scopeOrders in E. apply (f_equal length) in E.
      rewrite length_fmap in E. rewrite E. simpl. lia. }
    revert Hin. compute_done. }
  split; [split; [| split] | split].
  - apply orderInvariant_by_tasks. compute_done.
  - reflexivity.
  - apply Hbad. reflexivity.
  - reflexivity.
  - apply Hbad. reflexivity.
Qed.

(** C1, amended.  Starting from a collection with pairwise distinct task
    ids in which the live tasks of every (matrixId, urgency) scope have
    exactly the orders [{0, ..., n-1}], after any sequence of [addTask]
    (with an id not yet in use), drag move, drag reorder and
    [mergeMatrixInto], every scope again has exactly the orders
    [{0, ..., n-1}] for its current number [n] of live tasks, and the ids
    are still pairwise distinct. *)
Theorem order_contiguity_preserved (s s' : app) :
  NoDup (taskIds (tasks s)) →
  orderInvariant (tasks s) →
  rtc step s s' →
  orderInvariant (tasks s') ∧ NoDup (taskIds (tasks s')).
Proof.
  intros Hnd Hinv Hsteps.
  assert (wellOrdered (tasks s')) as Hwo.
  { induction Hsteps as [s | s s1 s2 Hstep _ IH].
    - apply wellOrdered_invariant. split; assumption.
    - assert (wellOrdered (tasks s1)) as H1.
      { apply (step_wellOrdered s s1 Hstep), wellOrdered_invariant.
        split; assumption. }
      apply wellOrdered_invariant in H1 as [Hnd1 Hinv1]. apply IH; assumption. }
  apply wellOrdered_invariant in Hwo as [Hnd' Hinv']. split; assumption.
Qed.

Lemma order_contiguity_preserved_witness :
  orderInvariant (tasks abcRun) ∧ NoDup (taskIds (tasks abcRun)).
Proof.
  apply (order_contiguity_preserved abcState abcRun).
  - compute_done.
  - apply orderInvariant_by_tasks. compute_done.
  - eapply rtc_l; [apply step_view with (s' := setNewTask (mkDraft "write" "work" High) abcState); reflexivity |].
    eapply rtc_l; [apply (step_addTask _ 9 "2026-01-01T00:00:00.000Z"); compute_done |].
    eapply rtc_l; [apply (step_dragEnd _ 1 (Some (OverTask 3))) |].
    eapply rtc_l; [apply (step_dragEnd _ 2 (Some (OverQuadrant Low))) |].
    eapply rtc_l; [apply (step_merge _ "today" "work") |].
    apply rtc_refl.
Defined.

Example abcRun_orders :
  (λ t, (t_id t, t_matrixId t, t_urgency t, t_order t)) <$> tasks abcRun
  = [ (1%Z, Some "work", High, Some 2%Z);
      (2%Z, Some "work", Low, Some 0%Z);
      (3%Z, Some "work", High, Some 0%Z);
      (4%Z, Some "work", High, Some 1%Z);
      (9%Z, Some "work", High, Some 3%Z) ].
Proof. vm_compute. reflexivity. Qed.

(** ** Reordering within a quadrant *)

Lemma compareTasks_le a b : (compareTasks a b ≤ 0)%Z ↔ canonicalLe a b.
Proof.
  unfold compareTasks, canonicalLe.
  destruct (decide (orderOrZero a ≠ orderOrZero b)); lia.
Qed.

Lemma canonicalLe_total a b : canonicalLe a b ∨ canonicalLe b a.
Proof. unfold canonicalLe. lia. Qed.

Lemma insertBy_sorted x l :
  StronglySorted canonicalLe l →
  StronglySorted canonicalLe (insertBy compareTasks x l).
Proof.
  induction 1 as [|y r Hr IH Hy]; simpl.
  - repeat constructor.
  - destruct (compareTasks x y <=? 0)%Z eqn:E.
    + apply Z.leb_le, compareTasks_le in E.
      constructor; [constructor; assumption |].
      constructor; [exact E |].
      eapply Forall_impl; [exact Hy |]. intros z Hz. simpl in Hz. etrans; eassumption.
    + apply Z.leb_gt in E.
      assert (canonicalLe y x) as Hyx.
      { destruct (canonicalLe_total x y) as [H | H]; [| exact H].
        apply compareTasks_le in H. lia. }
      constructor; [exact IH |].
      eapply Permutation_Forall; [symmetry; apply insertBy_Permutation |].
      constructor; assumption.
Qed.

(** The canonical list of a scope is sorted and holds exactly the live
    tasks of the scope. *)
Lemma scopeGroup_sorted l m u :
  StronglySorted canonicalLe (scopeGroup l m u)
  ∧ scopeGroup l m u ≡ₚ scopeTasks l m u.
Proof.
  split; [| apply sortBy_Permutation].
  unfold scopeGroup. induction (filter _ l) as [|x r IH]; simpl.
  - constructor.
  - apply insertBy_sorted, IH.
Qed.

Lemma filter_all {A} (P : A → Prop) `{!∀ x, Decision (P x)} (l : list A) :
  (∀ x, x ∈ l → P x) → filter P l = l.
Proof.
  induction l as [|a l IH]; intros Hall; [reflexivity |].
  rewrite filter_cons_True by apply Hall, list_elem_of_here.
  f_equal. apply IH. intros x Hx. apply Hall, list_elem_of_further, Hx.
Qed.

Lemma filter_ne_remove (l : list Z) (from : nat) (x : Z) :
  NoDup l → l !! from = Some x →
  filter (λ y, y ≠ x) l = take from l ++ drop (S from) l.
Proof.
  intros Hnd Hx. rewrite <- (take_drop_middle l from x Hx) in Hnd |- * at 1.
  apply NoDup_app in Hnd as (_ & Hdisj & Hnd2).
  apply NoDup_cons in Hnd2 as [Hx2 _].
  rewrite filter_app, filter_cons_False by (intros H; apply H; reflexivity).
  f_equal; apply filter_all; intros y Hy E; subst y.
  - apply (Hdisj x Hy), list_elem_of_here.
  - contradiction.
Qed.

Lemma arrayMove_spec (ids : list Z) (from to : nat) (dragged target : Z) :
  NoDup ids → indexOf dragged ids = Some from → indexOf target ids = Some to →
  arrayMove ids from to = arrayMoveSpec ids dragged target.
Proof.
  intros Hnd Hfrom Hto. unfold arrayMove, arrayMoveSpec.
  rewrite Hto, (indexOf_Some _ _ _ Hfrom).
  rewrite (filter_ne_remove ids from dragged Hnd (indexOf_Some _ _ _ Hfrom)).
  reflexivity.
Qed.

Lemma arrayMove_lands (ids : list Z) (from to : nat) (dragged : Z) :
  ids !! from = Some dragged → to < length ids →
  arrayMove ids from to !! to = Some dragged.
Proof.
  intros Hfrom Hto. unfold arrayMove. rewrite Hfrom.
  apply list_lookup_middle. rewrite length_take_le; [reflexivity |].
  rewrite length_app, length_take_le, length_drop.
  - apply lookup_lt_Some in Hfrom. lia.
  - apply lookup_lt_Some in Hfrom. lia.
Qed.

Lemma arrayMove_others (ids : list Z) (from to : nat) (dragged : Z) :
  NoDup ids → ids !! from = Some dragged →
  filter (λ id, id ≠ dragged) (arrayMove ids from to)
  = filter (λ id, id ≠ dragged) ids.
Proof.
  intros Hnd Hfrom. unfold arrayMove. rewrite Hfrom.
  rewrite (filter_ne_remove ids from dragged Hnd Hfrom).
  set (rest := take from ids ++ drop (S from) ids).
  rewrite filter_app, filter_cons_False by (intros H; apply H; reflexivity).
  rewrite <- filter_app, take_drop.
  apply filter_all. intros y Hy E. subst y.
  assert (dragged ∈ filter (λ y, y ≠ dragged) ids) as Hin.
  { rewrite (filter_ne_remove ids from dragged Hnd Hfrom). exact Hy. }
  apply list_elem_of_filter in Hin as [Hne _]. apply Hne. reflexivity.
Qed.

Lemma iotaZ_sorted (a n : nat) : StronglySorted Z.le (Z.of_nat <$> seq a n).
Proof.
  revert a. induction n as [|n IH]; intros a; csimpl; constructor; [apply IH |].
  apply Forall_fmap, Forall_forall. intros k Hk. apply elem_of_seq in Hk.
  simpl. lia.
Qed.

(** After the orders of a scope are rewritten from an arrangement of its
    ids, that arrangement is the canonical list of the scope. *)
Lemma rewritten_scope_canonical l m u ids :
  NoDup (taskIds l) → ids ≡ₚ taskIds (scopeTasks l m u) →
  taskIds (scopeGroup (applyOrders (indexMap ids) l) m u) = ids.
Proof.
  intros Hnd Hperm.
  set (l' := applyOrders (indexMap ids) l).
  pose proof (rewrite_ids_NoDup l m u ids Hnd Hperm) as Hids.
  destruct (scopeGroup_sorted l' m u) as [Hsorted Hgroup].
  assert (Hlen : length (scopeGroup l' m u) = length ids).
  { rewrite Hgroup. unfold l'. rewrite scopeTasks_applyOrders, length_fmap.
    rewrite Hperm. unfold taskIds. rewrite length_fmap. reflexivity. }
  assert (Hidx : ∀ t, t ∈ scopeGroup l' m u →
                      ∃ i, ids !! i = Some (t_id t) ∧ orderOrZero t = Z.of_nat i).
  { intros t Ht. rewrite Hgroup in Ht. unfold l' in Ht.
    rewrite scopeTasks_applyOrders in Ht.
    apply list_elem_of_fmap in Ht as (t0 & -> & Ht0).
    apply list_elem_of_filter in Ht0 as [Hs Ht0].
    destruct (indexOf_elem (t_id t0) ids) as [i Hi].
    { apply (rewrite_ids_scope l m u ids Hnd Hperm t0 Ht0), Hs. }
    exists i. unfold applyOrder. rewrite indexMap_lookup, Hi by exact Hids.
    split; [apply indexOf_Some, Hi | reflexivity]. }
  assert (Hos : orderOrZero <$> scopeGroup l' m u = Z.of_nat <$> seq 0 (length ids)).
  { apply (StronglySorted_unique_strong Z.le).
    - intros; lia.
    - eapply StronglySorted_fmap; [| exact Hsorted].
      intros a b. unfold canonicalLe. lia.
    - apply iotaZ_sorted.
    - rewrite Hgroup.
      pose proof (rewrite_scope_contiguous l m u ids Hnd Hperm) as Hc.
      unfold contiguous, scopeOrders in Hc. fold l' in Hc.
      transitivity (default 0%Z <$> (t_order <$> scopeTasks l' m u)).
      { rewrite <- list_fmap_compose. reflexivity. }
      rewrite Hc. unfold iotaOrders. rewrite <- list_fmap_compose.
      rewrite <- Hlen, Hgroup. reflexivity. }
  apply list_eq. intros i. unfold taskIds. rewrite list_lookup_fmap.
  destruct (scopeGroup l' m u !! i) as [t|] eqn:Ei; simpl.
  - destruct (Hidx t) as (j & Hj & Ho); [eapply list_elem_of_lookup_2, Ei |].
    assert ((orderOrZero <$> scopeGroup l' m u) !! i = Some (orderOrZero t)) as Hoi.
    { rewrite list_lookup_fmap, Ei. reflexivity. }
    rewrite Hos, list_lookup_fmap in Hoi.
    apply fmap_Some in Hoi as (k & Hk & Ek). apply lookup_seq in Hk as [-> _].
    assert (j = i) as -> by lia. symmetry. exact Hj.
  - symmetry. apply lookup_ge_None. apply lookup_ge_None in Ei. lia.
Qed.

Lemma applyOrders_reordered l m u ids :
  NoDup (taskIds l) → ids ≡ₚ taskIds (scopeTasks l m u) →
  applyOrders (indexMap ids) l = reorderedOrders l m u ids.
Proof.
  intros Hnd Hperm. unfold applyOrders, reorderedOrders.
  apply list_fmap_ext. intros i t Hi.
  assert (t ∈ l) as Ht by (eapply list_elem_of_lookup_2, Hi).
  rewrite indexMap_lookup by apply (rewrite_ids_NoDup l m u ids Hnd Hperm).
  pose proof (rewrite_ids_scope l m u ids Hnd Hperm t Ht) as Hscope.
  destruct (inScope m u t) eqn:Hs.
  - destruct (indexOf_elem (t_id t) ids) as [j Hj]; [apply Hscope; exact I |].
    rewrite Hj. reflexivity.
  - destruct (indexOf (t_id t) ids) as [j|] eqn:Hj; [| reflexivity].
    exfalso. apply (proj1 Hscope).
    eapply list_elem_of_lookup_2, indexOf_Some, Hj.
Qed.

(** C4, counterexample.  The drop is ignored when the matrix of the
    dragged task is not selected and when the dragged task is not in the
    live list of its scope; and when two tasks of the scope share an id
    they are given the same [order], which is not the index of both. *)
Lemma reorder_drop_guards :
  (handleDragEnd 1 (Some (OverTask 2)) unselectedState = unselectedState
   ∧ t_order <$> reorderDropSpec 1 2 unselectedState = [ Some 1%Z; Some 0%Z ])
  ∧ (handleDragEnd 1 (Some (OverTask 3)) archivedDraggedState = archivedDraggedState
     ∧ tasks archivedDraggedState ≠ reorderDropSpec 1 3 archivedDraggedState)
  ∧ (scopeOrders (tasks (handleDragEnd 7 (Some (OverTask 5)) duplicateInScopeState))
                 (Some "work") High
     = [ Some 2%Z; Some 2%Z; Some 0%Z ]
     ∧ ¬ NoDup (scopeOrders
                  (tasks (handleDragEnd 7 (Some (OverTask 5)) duplicateInScopeState))
                  (Some "work") High)).
Proof.
  split; [split; reflexivity |]. split; [split; [reflexivity |] | split; [reflexivity |]].
  - vm_compute. discriminate.
  - intros H. apply NoDup_cons in H as [H _]. apply H. compute_done.
Qed.

(** C4, amended.  In a collection with pairwise distinct ids, a drop of
    a live dragged task whose matrix is selected onto a different live
    task of the same matrix and urgency takes the canonical live list of
    the scope (sorted by [order], then [id]), moves the dragged id to the
    position of the target id, keeping the other ids in their order, and
    rewrites the [order] of each task of the scope to its index in the
    new sequence; nothing else changes, and the new sequence is the
    canonical list afterwards.  From [A(0), B(1), C(2)], dragging [A]
    onto [C] gives [B = 0], [C = 1], [A = 2]. *)
Theorem reorder_within_quadrant (s : app) (activeId overId : Z)
    (activeTask overTask : task) :
  NoDup (taskIds (tasks s)) →
  getTaskById s activeId = Some activeTask →
  getTaskById s overId = Some overTask →
  t_matrixId activeTask ∈ Some <$> selectedMatrixIds s →
  isLive activeTask → isLive overTask →
  t_matrixId overTask = t_matrixId activeTask →
  t_urgency overTask = t_urgency activeTask →
  activeId ≠ overId →
  let m := t_matrixId activeTask in
  let u := t_urgency activeTask in
  let canonical := scopeGroup (tasks s) m u in
  let sequence := arrayMoveSpec (taskIds canonical) activeId overId in
  let s' := handleDragEnd activeId (Some (OverTask overId)) s in
  (StronglySorted canonicalLe canonical ∧ canonical ≡ₚ scopeTasks (tasks s) m u)
  ∧ (∃ to, indexOf overId (taskIds canonical) = Some to
           ∧ sequence !! to = Some activeId)
  ∧ filter (λ id, id ≠ activeId) sequence
    = filter (λ id, id ≠ activeId) (taskIds canonical)
  ∧ tasks s' = reorderedOrders (tasks s) m u sequence
  ∧ s' = setTasks (tasks s') s
  ∧ taskIds (scopeGroup (tasks s') m u) = sequence
  ∧ (λ t, (t_id t, t_order t))
      <$> tasks (handleDragEnd 1 (Some (OverTask 3)) abcOnlyState)
    = [ (1%Z, Some 2%Z); (2%Z, Some 0%Z); (3%Z, Some 1%Z) ].
Proof.
  intros Hnd Ha Ho Hsel Hla Hlo Hm Hu Hne m u canonical sequence s'.
  pose proof (getTaskById_Some _ _ _ Ha) as [Hain Haid].
  pose proof (getTaskById_Some _ _ _ Ho) as [Hoin Hoid].
  pose proof (scopeGroup_ids (tasks s) m u) as Hperm. fold canonical in Hperm.
  pose proof (rewrite_ids_NoDup _ m u _ Hnd Hperm) as Hids.
  assert (inScope m u activeTask) as Hsa.
  { apply inScope_true. repeat split. exact Hla. }
  assert (inScope m u overTask) as Hso.
  { apply inScope_true. repeat split; assumption. }
  destruct (indexOf_elem activeId (taskIds canonical)) as [from Hfrom].
  { rewrite <- Haid. apply (rewrite_ids_scope _ m u _ Hnd Hperm _ Hain), Hsa. }
  destruct (indexOf_elem overId (taskIds canonical)) as [to Hto].
  { rewrite <- Hoid. apply (rewrite_ids_scope _ m u _ Hnd Hperm _ Hoin), Hso. }
  assert (Hmove : arrayMove (taskIds canonical) from to = sequence).
  { apply arrayMove_spec; assumption. }
  assert (Hseq : sequence ≡ₚ taskIds (scopeTasks (tasks s) m u)).
  { rewrite <- Hmove, arrayMove_Permutation. exact Hperm. }
  assert (Hs' : s' = setTasks (applyOrders (indexMap sequence) (tasks s)) s).
  { subst s'. unfold handleDragEnd. rewrite Ha, Ho.
    rewrite (bool_decide_eq_true_2 _ Hsel). simpl.
    rewrite decide_False by (intros H; apply H; exact Hm).
    rewrite decide_False by (intros H; apply H; exact Hu).
    rewrite decide_False by exact Hne.
    unfold reorderWithin.
    change (t_id <$> scopeGroup (tasks s) (t_matrixId activeTask)
                                (t_urgency activeTask))
      with (taskIds canonical).
    rewrite Hfrom, Hto, Hmove. reflexivity. }
  split; [apply scopeGroup_sorted |]. split; [| split; [| split; [| split; [| split]]]].
  - exists to. split; [exact Hto |]. rewrite <- Hmove.
    apply arrayMove_lands; [apply indexOf_Some, Hfrom |].
    eapply lookup_lt_Some, indexOf_Some, Hto.
  - rewrite <- Hmove. apply arrayMove_others; [exact Hids | apply indexOf_Some, Hfrom].
  - rewrite Hs'. app_simpl. apply applyOrders_reordered; assumption.
  - rewrite Hs'. reflexivity.
  - rewrite Hs'. app_simpl. apply rewritten_scope_canonical; assumption.
  - reflexivity.
Qed.

Lemma reorder_within_quadrant_witness :
  tasks (handleDragEnd 1 (Some (OverTask 3)) abcOnlyState)
  = reorderedOrders (tasks abcOnlyState) (Some "work") High
      (arrayMoveSpec [ 1%Z; 2%Z; 3%Z ] 1 3).
Proof.
  assert (NoDup (taskIds (tasks abcOnlyState))) as Hnd by compute_done.
  assert (Some "work" ∈ Some <$> selectedMatrixIds abcOnlyState) as Hsel
    by compute_done.
  assert (1%Z ≠ 3%Z) as Hne by discriminate.
  exact (proj1 (proj2 (proj2 (proj2
           (reorder_within_quadrant abcOnlyState 1 3
              (sampleTask 1 "work" High NotDone 0)
              (sampleTask 3 "work" High NotDone 2)
              Hnd eq_refl eq_refl Hsel I I eq_refl eq_refl Hne))))).
Defined.

(** The two guards of the interpreter that end a drop without a change. *)
Lemma drop_unselected_ignored (s : app) (activeId : Z) (over : option dropId)
    (activeTask : task) :
  getTaskById s activeId = Some activeTask →
  t_matrixId activeTask ∉ Some <$> selectedMatrixIds s →
  handleDragEnd activeId over s = s.
Proof.
  intros Ha Hsel. unfold handleDragEnd. destruct over as [overId |]; [| reflexivity].
  rewrite Ha, (bool_decide_eq_false_2 _ Hsel). reflexivity.
Qed.

Lemma reorder_not_live_ignored (l : list task) (activeTask : task) (overId : Z) :
  NoDup (taskIds l) → activeTask ∈ l → isLive activeTask = false →
  reorderWithin activeTask (t_id activeTask) overId l = l.
Proof.
  intros Hnd Hin Hlive. unfold reorderWithin.
  set (m := t_matrixId activeTask). set (u := t_urgency activeTask).
  assert (indexOf (t_id activeTask) (t_id <$> scopeGroup l m u) = None) as ->;
    [| reflexivity].
  apply indexOf_None. intros Hid.
  apply (rewrite_ids_scope l m u _ Hnd (scopeGroup_ids l m u) activeTask Hin) in Hid.
  apply inScope_true in Hid as (_ & _ & Hl). rewrite Hlive in Hl. exact Hl.
Qed.

(** ** Worked examples of the specification *)

(** Dragging [A] of [A(0), B(1)] onto the empty [Medium] quadrant. *)
Example drag_to_quadrant_example :
  (λ t, (t_id t, t_urgency t, t_order t))
    <$> tasks (handleDragEnd 1 (Some (OverQuadrant Medium)) twoHighState)
  = [ (1%Z, Medium, Some 0%Z); (2%Z, High, Some 0%Z) ].
Proof. reflexivity. Qed.

(** Merging a focus matrix with two [High] tasks into [work]. *)
Example merge_example :
  let s' := mergeMatrixInto "focus-x" "work" focusMergeState in
  (λ t, (t_id t, t_matrixId t, t_order t)) <$> tasks s'
  = [ (1%Z, Some "work", Some 0%Z);
      (2%Z, Some "work", Some 1%Z);
      (3%Z, Some "work", Some 2%Z) ]
  ∧ matrices s' = DEFAULT_MATRICES.
Proof. split; reflexivity. Qed.

(** Whitespace-only text is rejected by [addTask] and by [commitEdit]. *)
Example empty_text_rejected :
  let s := setNewTask (mkDraft "   " "work" High) twoHighState in
  addTask 9 "now" s = s
  ∧ tasks (commitEdit (setEditDraft "  " (setEditingTaskId (Some 1%Z) twoHighState)))
    = tasks twoHighState.
Proof. split; reflexivity. Qed.

(** * Further properties of the code *)

(** ** Ordering engine: next order, renormalisation, array move *)

(** X1.  When the numeric [order] of every live task of the scope is at
    most [Number.MAX_SAFE_INTEGER] (so that adding one is exact),
    [getNextOrder] is never negative and lies strictly above the
    [order] of every live task of the scope; it is [0] or one more than
    the [order] of some live task of the scope, it is at most
    [Number.MAX_SAFE_INTEGER + 1], and it is [0] when the scope has no
    live task. *)
Theorem getNextOrder_above (l : list task) (m : option string) (u : urgency) :
  (∀ t o, t ∈ l → inScope m u t → t_order t = Some o →
          (o ≤ MAX_SAFE_INTEGER)%Z) →
  (0 ≤ getNextOrder l m u ≤ MAX_SAFE_INTEGER + 1)%Z
  ∧ (∀ t o, t ∈ l → inScope m u t → t_order t = Some o →
            (o < getNextOrder l m u)%Z)
  ∧ (getNextOrder l m u = 0%Z
     ∨ ∃ t, t ∈ l ∧ inScope m u t
            ∧ t_order t = Some (getNextOrder l m u - 1)%Z)
  ∧ (scopeTasks l m u = [] → getNextOrder l m u = 0%Z).
Proof.
  intros Hsafe. unfold getNextOrder.
  set (numbered := filter (λ t, inScope m u t
                                && bool_decide (is_Some (t_order t))) l).
  destruct (foldl_max_spec orderOrZero (-1) numbered) as (Hlo & Hall & Hwit).
  set (r := foldl _ _ _) in *.
  assert (Hmem : ∀ t, t ∈ numbered ↔ t ∈ l ∧ inScope m u t ∧ is_Some (t_order t)).
  { intros t. unfold numbered. rewrite list_elem_of_filter, andb_True, bool_decide_spec.
    tauto. }
  split; [| split; [| split]].
  - split; [lia |].
    destruct Hwit as [-> | (t & Ht & E)]; [unfold MAX_SAFE_INTEGER; lia |].
    apply Hmem in Ht as (Hin & Hs & [o Ho]).
    pose proof (Hsafe t o Hin Hs Ho) as Hb.
    rewrite E. unfold orderOrZero. rewrite Ho. simpl. lia.
  - intros t o Ht Hs Ho.
    assert (orderOrZero t ≤ r)%Z as Hle.
    { apply Hall, Hmem. rewrite Ho. eauto. }
    unfold orderOrZero in Hle. rewrite Ho in Hle. simpl in Hle. lia.
  - destruct Hwit as [-> | (t & Ht & E)]; [left; reflexivity |].
    right. exists t. apply Hmem in Ht as (Hin & Hs & [o Ho]).
    split; [exact Hin |]. split; [exact Hs |].
    rewrite Ho. f_equal. rewrite E. unfold orderOrZero. rewrite Ho. simpl. lia.
  - intros Hempty. destruct Hwit as [-> | (t & Ht & _)]; [reflexivity |].
    exfalso. apply Hmem in Ht as (Hin & Hs & _).
    assert (t ∈ scopeTasks l m u) as Hst by (apply list_elem_of_filter; split; assumption).
    rewrite Hempty in Hst. apply elem_of_nil in Hst. exact Hst.
Qed.

Lemma getNextOrder_above_witness :
  (7 < getNextOrder gappedTasks (Some "work") High ≤ MAX_SAFE_INTEGER + 1)%Z.
Proof.
  assert (∀ t o, t ∈ gappedTasks → inScope (Some "work") High t →
                 t_order t = Some o → (o ≤ MAX_SAFE_INTEGER)%Z) as Hsafe.
  { intros t o Ht _. revert t Ht o.
    apply (proj1 (Forall_forall
                    (λ t, ∀ o, t_order t = Some o → (o ≤ MAX_SAFE_INTEGER)%Z)
                    gappedTasks)).
    repeat constructor; intros o [= <-]; discriminate. }
  destruct (getNextOrder_above gappedTasks (Some "work") High Hsafe)
    as ([_ Hup] & Habove & _).
  split; [| exact Hup].
  apply (Habove (sampleTask 4 "work" High NotDone 7)); [compute_done | exact I |].
  reflexivity.
Defined.

Lemma arrayMove_same {A} (items : list A) (i : nat) : arrayMove items i i = items.
Proof.
  unfold arrayMove. destruct (items !! i) as [x|] eqn:E; [| reflexivity].
  pose proof (lookup_lt_Some _ _ _ E) as Hlt.
  rewrite take_app_le by (rewrite length_take_le; lia).
  rewrite take_take, Nat.min_id.
  rewrite drop_app_ge by (rewrite length_take_le; lia).
  rewrite length_take_le by lia. rewrite Nat.sub_diag. simpl.
  apply take_drop_middle, E.
Qed.

(** X2.  [arrayMove] puts the element of position [from] at position
    [to] and keeps the other elements in their order: deleting position
    [to] from the result gives the array without position [from].  The
    result is a rearrangement of the same length; a move onto the same
    position changes nothing, and a [to] at or past the last position
    puts the element at the end. *)
Theorem arrayMove_moves {A} (items : list A) (from to : nat) (x : A) :
  items !! from = Some x →
  to < length items →
  arrayMove items from to !! to = Some x
  ∧ delete to (arrayMove items from to) = delete from items
  ∧ arrayMove items from to ≡ₚ items
  ∧ length (arrayMove items from to) = length items
  ∧ arrayMove items from from = items
  ∧ (∀ far, length items ≤ S far →
            arrayMove items from far = delete from items ++ [x]).
Proof.
  intros Hfrom Hto. pose proof (lookup_lt_Some _ _ _ Hfrom) as Hlt.
  assert (Hnext : length (take from items ++ drop (S from) items) = length items - 1).
  { rewrite length_app, length_take_le, length_drop by lia. lia. }
  split; [| split; [| split; [| split; [| split]]]].
  - unfold arrayMove. rewrite Hfrom. apply list_lookup_middle.
    rewrite length_take_le; [reflexivity | lia].
  - unfold arrayMove. rewrite Hfrom, !delete_take_drop.
    set (next := take from items ++ drop (S from) items) in *.
    rewrite take_app_le by (rewrite length_take_le; lia).
    rewrite take_take, Nat.min_id.
    rewrite (drop_app_ge (take to next)) by (rewrite length_take_le; lia).
    rewrite length_take_le by lia.
    replace (S to - to) with 1 by lia. simpl. rewrite drop_0.
    apply take_drop.
  - apply arrayMove_Permutation.
  - apply Permutation_length, arrayMove_Permutation.
  - apply arrayMove_same.
  - intros far Hfar. unfold arrayMove. rewrite Hfrom, delete_take_drop.
    set (next := take from items ++ drop (S from) items) in *.
    rewrite (take_ge next far), (drop_ge next far) by lia. reflexivity.
Qed.

Lemma arrayMove_moves_witness :
  arrayMove [ "a"; "b"; "c"; "d" ] 3 1 !! 1 = Some "d"
  ∧ delete 1 (arrayMove [ "a"; "b"; "c"; "d" ] 3 1) = [ "a"; "b"; "c" ].
Proof.
  assert (1 < length [ "a"; "b"; "c"; "d" ]) as Hlt by (simpl; lia).
  destruct (arrayMove_moves [ "a"; "b"; "c"; "d" ] 3 1 "d" eq_refl Hlt)
    as (Hland & Hrest & _).
  split; [exact Hland | exact Hrest].
Defined.

(** ** Renormalisation *)

Lemma scopeGroup_orders_iota l m u :
  contiguous l m u →
  orderOrZero <$> scopeGroup l m u = Z.of_nat <$> seq 0 (length (scopeTasks l m u)).
Proof.
  intros Hc. destruct (scopeGroup_sorted l m u) as [Hsorted Hgroup].
  apply (StronglySorted_unique_strong Z.le).
  - intros; lia.
  - eapply StronglySorted_fmap; [| exact Hsorted].
    intros a b. unfold canonicalLe. lia.
  - apply iotaZ_sorted.
  - rewrite Hgroup.
    transitivity (default 0%Z <$> (t_order <$> scopeTasks l m u)).
    { rewrite <- list_fmap_compose. reflexivity. }
    unfold contiguous, scopeOrders in Hc. rewrite Hc.
    unfold iotaOrders. rewrite <- list_fmap_compose. reflexivity.
Qed.

Lemma with_order_same (t : task) o : t_order t = o → with_order o t = t.
Proof. destruct t. simpl. intros ->. reflexivity. Qed.

Lemma normalizeOrders_reordered l m u :
  NoDup (taskIds l) →
  normalizeOrders l m u = reorderedOrders l m u (taskIds (scopeGroup l m u)).
Proof.
  intros Hnd. unfold normalizeOrders.
  apply applyOrders_reordered; [exact Hnd | apply scopeGroup_ids].
Qed.

Lemma normalizeOrders_fixed l m u :
  NoDup (taskIds l) → contiguous l m u → normalizeOrders l m u = l.
Proof.
  intros Hnd Hc. rewrite normalizeOrders_reordered by exact Hnd.
  unfold reorderedOrders. apply fmap_fixed. intros t Ht.
  destruct (inScope m u t) eqn:Hs; [| reflexivity].
  apply with_order_same.
  destruct (scopeGroup_sorted l m u) as [_ Hgroup].
  assert (t ∈ scopeTasks l m u) as Hst.
  { apply list_elem_of_filter. split; [rewrite Hs; exact I | exact Ht]. }
  pose proof Hst as Hsg. rewrite <- Hgroup in Hsg.
  apply list_elem_of_lookup_1 in Hsg as [i Hi].
  assert (indexOf (t_id t) (taskIds (scopeGroup l m u)) = Some i) as ->.
  { apply indexOf_lookup_NoDup.
    - apply (rewrite_ids_NoDup l m u _ Hnd (scopeGroup_ids l m u)).
    - unfold taskIds. rewrite list_lookup_fmap, Hi. reflexivity. }
  destruct (contiguous_order_Some l m u t Hc Hst) as (k & _ & Ek).
  assert ((orderOrZero <$> scopeGroup l m u) !! i = Some (orderOrZero t)) as Hoi.
  { rewrite list_lookup_fmap, Hi. reflexivity. }
  rewrite (scopeGroup_orders_iota l m u Hc), list_lookup_fmap in Hoi.
  apply fmap_Some in Hoi as (j & Hj & Ej). apply lookup_seq in Hj as [-> _].
  unfold orderOrZero in Ej. rewrite Ek in Ej. simpl in Ej. simpl.
  rewrite Ek. f_equal. lia.
Qed.

(** X3.  In a collection with pairwise distinct ids, [normalizeOrders]
    gives every live task of the scope its index in the canonical list
    (by [order], then by [id]) and touches nothing else: afterwards the
    orders of the scope are exactly [0..n-1], the canonical list holds
    the same ids in the same sequence, and the tasks outside the scope
    are the same records at the same positions.  A second pass changes
    nothing, and a scope whose orders are already [0..n-1] is left as it
    is. *)
Theorem normalizeOrders_canonical (l : list task) (m : option string) (u : urgency) :
  NoDup (taskIds l) →
  let l' := normalizeOrders l m u in
  l' = reorderedOrders l m u (taskIds (scopeGroup l m u))
  ∧ ordersExact l' m u
  ∧ taskIds (scopeGroup l' m u) = taskIds (scopeGroup l m u)
  ∧ (∀ i t, l !! i = Some t → inScope m u t = false → l' !! i = Some t)
  ∧ normalizeOrders l' m u = l'
  ∧ (ordersExact l m u → l' = l).
Proof.
  intros Hnd l'. subst l'.
  assert (NoDup (taskIds (normalizeOrders l m u))) as Hnd'.
  { rewrite normalizeOrders_ids. exact Hnd. }
  split; [apply normalizeOrders_reordered, Hnd |].
  split; [apply ordersExact_contiguous, normalizeOrders_contiguous, Hnd |].
  split; [| split; [| split]].
  - unfold normalizeOrders at 1.
    apply rewritten_scope_canonical; [exact Hnd | apply scopeGroup_ids].
  - intros i t Hi Hs. rewrite normalizeOrders_reordered by exact Hnd.
    unfold reorderedOrders. rewrite list_lookup_fmap, Hi. simpl.
    rewrite Hs. reflexivity.
  - apply normalizeOrders_fixed; [exact Hnd' |].
    apply normalizeOrders_contiguous, Hnd.
  - intros Hex. apply normalizeOrders_fixed; [exact Hnd |].
    apply ordersExact_contiguous, Hex.
Qed.

Lemma normalizeOrders_canonical_witness :
  normalizeOrders gappedTasks (Some "work") High
  = [ sampleTask 4 "work" High NotDone 1; sampleTask 2 "work" High NotDone 0;
      sampleTask 9 "work" Low NotDone 5 ].
Proof.
  assert (NoDup (taskIds gappedTasks)) as Hnd by compute_done.
  rewrite (proj1 (normalizeOrders_canonical gappedTasks (Some "work") High Hnd)).
  reflexivity.
Defined.

(** ** Archive, delete and clear *)

Lemma selected_elem ms pinned focus view id :
  id ∈ computeSelectedMatrixIds ms pinned focus view
  ↔ isValid ms id ∧ isActive pinned focus id.
Proof.
  rewrite computeSelectedMatrixIds_spec. unfold selectedMatrixIdsSpec.
  set (kept := filter (λ id, isValid ms id ∧ isActive pinned focus id) view).
  rewrite elem_of_app. split.
  - intros [Hin | Hin]; apply list_elem_of_filter in Hin.
    + exact (proj1 Hin).
    + destruct Hin as [[Hv _] Ha]. apply activeIds_elem in Ha. split; assumption.
  - intros [Hv Ha]. destruct (decide (id ∈ kept)) as [Hin | Hnin]; [left; exact Hin |].
    right. apply list_elem_of_filter. split; [split; assumption |].
    apply activeIds_elem, Ha.
Qed.

(** Marking the tasks of one id as not live takes them out of their
    scopes and leaves the scopes otherwise as they are. *)
Lemma scopeTasks_retire id (f : task → task) l m u :
  (∀ t, isLive (f t) = false) →
  scopeTasks (mapTaskById id f l) m u = filter (λ t, t_id t ≠ id) (scopeTasks l m u).
Proof.
  intros Hf. unfold scopeTasks, mapTaskById.
  induction l as [|t l IH]; [reflexivity |]. csimpl.
  destruct (decide (t_id t = id)) as [E | E].
  - rewrite (filter_cons_False _ (f t)).
    2:{ unfold inScope. rewrite Hf, andb_false_r. intros []. }
    rewrite IH. destruct (decide (inScope m u t)) as [Hs | Hs].
    + rewrite (filter_cons_True _ t) by exact Hs.
      rewrite filter_cons_False; [reflexivity |]. intros H. apply H, E.
    + rewrite (filter_cons_False _ t) by exact Hs. reflexivity.
  - destruct (decide (inScope m u t)) as [Hs | Hs].
    + rewrite (filter_cons_True (λ t, inScope m u t) t) by exact Hs.
      rewrite (filter_cons_True (λ t, inScope m u t) t) by exact Hs.
      rewrite filter_cons_True by exact E. rewrite IH. reflexivity.
    + rewrite !(filter_cons_False _ t) by exact Hs. exact IH.
Qed.

(** X4.  [archiveTask id] takes the task out of the live list of every
    scope and leaves the other live tasks of each scope in place; the
    tasks with another id are the same records at the same positions.
    [unarchiveTask] after [archiveTask] gives what [unarchiveTask] alone
    gives, and gives the state back when every task with that id was
    [NotDone] with no [archivedAt]. *)
Theorem archiveTask_effect (id : Z) (nowIso : string) (s : app) :
  let s' := archiveTask id nowIso s in
  (∀ m u, scopeTasks (tasks s') m u
          = filter (λ t, t_id t ≠ id) (scopeTasks (tasks s) m u))
  ∧ (∀ i t, tasks s !! i = Some t → t_id t ≠ id → tasks s' !! i = Some t)
  ∧ unarchiveTask id s' = unarchiveTask id s
  ∧ ((∀ t, t ∈ tasks s → t_id t = id →
           t_status t = NotDone ∧ t_archivedAt t = None) →
     unarchiveTask id s' = s).
Proof.
  intros s'. subst s'.
  assert (Hun : unarchiveTask id (archiveTask id nowIso s) = unarchiveTask id s).
  { unfold unarchiveTask, archiveTask, setTasks. app_simpl. f_equal.
    unfold mapTaskById. rewrite <- list_fmap_compose.
    apply list_fmap_ext. intros i t _. simpl.
    destruct (decide (t_id t = id)) as [E | E]; simpl.
    - rewrite decide_True by exact E. reflexivity.
    - rewrite decide_False by exact E. reflexivity. }
  split; [| split; [| split]].
  - intros m u. unfold archiveTask. app_simpl. apply scopeTasks_retire.
    intros t. reflexivity.
  - intros i t Hi Hne. unfold archiveTask. app_simpl. unfold mapTaskById.
    rewrite list_lookup_fmap, Hi. simpl. rewrite decide_False by exact Hne.
    reflexivity.
  - exact Hun.
  - intros Hfresh. rewrite Hun. unfold unarchiveTask.
    destruct s as [ts ms ap fo vo ls nt ed dr ie io]. unfold setTasks. simpl in *.
    f_equal. unfold mapTaskById. apply fmap_fixed. intros t Ht.
    destruct (decide (t_id t = id)) as [E | E]; [| reflexivity].
    destruct (Hfresh t Ht E) as [Hst Har]. destruct t. simpl in *. subst.
    reflexivity.
Qed.

Lemma archiveTask_effect_witness :
  unarchiveTask 2 (archiveTask 2 "2026-01-01T00:00:00.000Z" abcOnlyState)
  = abcOnlyState.
Proof.
  apply (archiveTask_effect 2 "2026-01-01T00:00:00.000Z" abcOnlyState).
  intros t Ht _. revert t Ht. apply Forall_forall. repeat constructor.
Defined.

(** X5.  [deleteTask id] takes the task out of the live list of every
    scope, leaves the tasks with another id as they are and marks every
    task with that id [Deleted].  The edit of that task is dropped, so a
    later [commitEdit] does not rewrite it, while the edit of another
    task and its draft are kept; clearing the deleted tasks afterwards
    leaves no task with that id. *)
Theorem deleteTask_effect (id : Z) (nowIso : string) (s : app) :
  let s' := deleteTask id nowIso s in
  (∀ m u, scopeTasks (tasks s') m u
          = filter (λ t, t_id t ≠ id) (scopeTasks (tasks s) m u))
  ∧ (∀ i t, tasks s !! i = Some t → t_id t ≠ id → tasks s' !! i = Some t)
  ∧ (∀ t, t ∈ tasks s' → t_id t = id → t_status t = Deleted)
  ∧ editingTaskId s' ≠ Some id
  ∧ (editingTaskId s ≠ Some id →
     editingTaskId s' = editingTaskId s ∧ editDraft s' = editDraft s)
  ∧ (∀ t, t ∈ tasks (commitEdit s') → t_id t = id → t ∈ tasks s')
  ∧ (∀ t, t ∈ tasks (clearDeleted s') → t_id t ≠ id).
Proof.
  intros s'. subst s'.
  assert (Hts : tasks (deleteTask id nowIso s)
                = mapTaskById id (λ t, with_deletedAt (Some nowIso)
                                         (with_status Deleted t)) (tasks s)).
  { unfold deleteTask. destruct (decide (editingTaskId s = Some id)); reflexivity. }
  assert (Hed : editingTaskId (deleteTask id nowIso s) ≠ Some id).
  { unfold deleteTask. destruct (decide (editingTaskId s = Some id)) as [E | E].
    - app_simpl. discriminate.
    - app_simpl. exact E. }
  assert (Hdel : ∀ t, t ∈ tasks (deleteTask id nowIso s) → t_id t = id →
                      t_status t = Deleted).
  { intros t Ht E. rewrite Hts in Ht. unfold mapTaskById in Ht.
    apply list_elem_of_fmap in Ht as (t0 & -> & _).
    destruct (decide (t_id t0 = id)) as [E0 | E0]; [reflexivity |].
    contradiction. }
  split; [| split; [| split; [| split; [| split; [| split]]]]].
  - intros m u. rewrite Hts. apply scopeTasks_retire. intros t. reflexivity.
  - intros i t Hi Hne. rewrite Hts. unfold mapTaskById.
    rewrite list_lookup_fmap, Hi. simpl. rewrite decide_False by exact Hne.
    reflexivity.
  - exact Hdel.
  - exact Hed.
  - intros Hne. unfold deleteTask.
    rewrite decide_False by exact Hne. split; reflexivity.
  - intros t Ht E. revert Ht. unfold commitEdit.
    destruct (editingTaskId (deleteTask id nowIso s)) as [editing|] eqn:Eed;
      [| tauto].
    destruct (negb (truthy (trim (editDraft (deleteTask id nowIso s))))); [tauto |].
    app_simpl. unfold mapTaskById. intros Ht.
    apply list_elem_of_fmap in Ht as (t0 & -> & Ht0).
    destruct (decide (t_id t0 = editing)) as [E0 | E0]; [| exact Ht0].
    exfalso. apply Hed. simpl in E. congruence.
  - intros t Ht E. unfold clearDeleted in Ht. revert Ht. app_simpl. intros Ht.
    apply list_elem_of_filter in Ht as [Hst Ht]. apply Hst, Hdel; assumption.
Qed.

(** X6.  The "clear deleted" button keeps exactly the tasks whose status
    is not [Deleted], in their order.  The live list of every scope, the
    next order of every scope and the order invariant are not affected,
    and a second click changes nothing. *)
Theorem clearDeleted_effect (s : app) :
  let s' := clearDeleted s in
  (∀ t, t ∈ tasks s' ↔ t ∈ tasks s ∧ t_status t ≠ Deleted)
  ∧ sublist (tasks s') (tasks s)
  ∧ (∀ m u, scopeTasks (tasks s') m u = scopeTasks (tasks s) m u)
  ∧ (∀ m u, getNextOrder (tasks s') m u = getNextOrder (tasks s) m u)
  ∧ (orderInvariant (tasks s) → orderInvariant (tasks s'))
  ∧ clearDeleted s' = s'.
Proof.
  intros s'. subst s'. unfold clearDeleted. app_simpl.
  assert (Hlive : ∀ m u t, inScope m u t → t_status t ≠ Deleted).
  { intros m u t Hs. apply inScope_true in Hs as (_ & _ & Hl).
    unfold isLive in Hl. apply andb_True in Hl as [_ Hl].
    apply bool_decide_spec in Hl. exact Hl. }
  assert (Hscope : ∀ m u, scopeTasks (filter (λ t, t_status t ≠ Deleted) (tasks s)) m u
                          = scopeTasks (tasks s) m u).
  { intros m u. unfold scopeTasks. rewrite list_filter_filter.
    apply list_filter_iff. intros t. split; [tauto |].
    intros Hs. split; [exact Hs | eapply Hlive, Hs]. }
  split; [| split; [| split; [| split; [| split]]]].
  - intros t. rewrite list_elem_of_filter. tauto.
  - apply sublist_filter.
  - exact Hscope.
  - intros m u. unfold getNextOrder. do 2 f_equal. rewrite list_filter_filter.
    apply list_filter_iff. intros t. split; [tauto |].
    intros Hs. split; [exact Hs |].
    apply andb_True in Hs as [Hs _]. eapply Hlive, Hs.
  - intros Hinv m u. specialize (Hinv m u). unfold ordersExact, scopeOrders in *.
    rewrite Hscope. exact Hinv.
  - unfold setTasks. app_simpl. f_equal.
    rewrite list_filter_filter. apply list_filter_iff. tauto.
Qed.

(** X7.  [deleteMatrixArchiveTasks matrixId], for a [matrixId] that is
    neither empty nor ["none"]: no task of the matrix is live
    afterwards; the tasks of other matrices and the deleted tasks are
    the same records at the same positions; the live list of every
    other matrix is unchanged, so the order invariant is kept; the
    matrix is gone from [matrices], from [viewOrderIds] and from the
    selection, and the focus is ["none"]. *)
Theorem deleteMatrixArchiveTasks_effect (matrixId nowIso : string) (s : app) :
  matrixId ≠ "" → matrixId ≠ "none" →
  let s' := deleteMatrixArchiveTasks matrixId nowIso s in
  (∀ t, t ∈ tasks s' → t_matrixId t = Some matrixId → isLive t = false)
  ∧ (∀ i t, tasks s !! i = Some t →
            t_matrixId t ≠ Some matrixId ∨ t_status t = Deleted →
            tasks s' !! i = Some t)
  ∧ (∀ m u, scopeTasks (tasks s') m u
            = if decide (m = Some matrixId) then [] else scopeTasks (tasks s) m u)
  ∧ (orderInvariant (tasks s) → orderInvariant (tasks s'))
  ∧ (matrixId ∉ m_id <$> matrices s')
  ∧ (matrixId ∉ viewOrderIds s')
  ∧ (matrixId ∉ selectedMatrixIds s')
  ∧ focusMatrixId s' = "none".
Proof.
  intros Hne Hnone s'. subst s'. unfold deleteMatrixArchiveTasks.
  assert (negb (truthy matrixId) || bool_decide (matrixId = "none") = false) as ->.
  { unfold truthy. rewrite (bool_decide_eq_true_2 _ Hne).
    rewrite (bool_decide_eq_false_2 _ Hnone). reflexivity. }
  app_simpl.
  set (arch := λ t, if bool_decide (t_matrixId t = Some matrixId)
                       && bool_decide (t_status t ≠ Deleted)
                    then with_archivedAt (Some nowIso) (with_status Archived t)
                    else t).
  assert (Hgone : ∀ t, t ∈ arch <$> tasks s → t_matrixId t = Some matrixId →
                       isLive t = false).
  { intros t Ht Hm. apply list_elem_of_fmap in Ht as (t0 & -> & _).
    unfold arch in *.
    destruct (bool_decide (t_matrixId t0 = Some matrixId)) eqn:E1; simpl in *.
    - destruct (bool_decide (t_status t0 ≠ Deleted)) eqn:E2; [reflexivity |].
      apply bool_decide_eq_false in E2. apply dec_stable in E2.
      unfold isLive. rewrite E2. reflexivity.
    - apply bool_decide_eq_false in E1. contradiction. }
  assert (Hscope : ∀ m u, scopeTasks (arch <$> tasks s) m u
            = if decide (m = Some matrixId) then [] else scopeTasks (tasks s) m u).
  { intros m u. destruct (decide (m = Some matrixId)) as [-> | Hm].
    - apply filter_none. intros t Ht Hs. apply inScope_true in Hs as (E & _ & Hl).
      rewrite (Hgone t Ht E) in Hl. exact Hl.
    - clear Hgone. unfold scopeTasks.
      induction (tasks s) as [|t l IH]; [reflexivity |]. csimpl.
      destruct (decide (t_matrixId t = Some matrixId)) as [E | E].
      + rewrite (filter_cons_False _ t).
        2:{ rewrite inScope_true. intros (E' & _). congruence. }
        rewrite filter_cons_False; [exact IH |].
        rewrite inScope_true. intros (E' & _). apply Hm. rewrite <- E'.
        unfold arch. destruct (_ && _); simpl; exact E.
      + assert (arch t = t) as ->; [| rewrite !filter_cons, IH; reflexivity].
        unfold arch. rewrite (bool_decide_eq_false_2 _ E). reflexivity. }
  split; [exact Hgone |]. split; [| split; [exact Hscope |]].
  { intros i t Hi Hout. rewrite list_lookup_fmap, Hi. simpl. f_equal.
    unfold arch. destruct Hout as [E | E].
    - rewrite (bool_decide_eq_false_2 _ E). reflexivity.
    - rewrite (bool_decide_eq_false_2 (t_status t ≠ Deleted)) by tauto.
      rewrite andb_false_r. reflexivity. }
  assert (Hvalid : matrixId ∉ m_id <$> filter (λ m, m_id m ≠ matrixId) (matrices s)).
  { intros Hin. apply list_elem_of_fmap in Hin as (m & E & Hin).
    apply list_elem_of_filter in Hin as [Hm _]. congruence. }
  split; [| split; [exact Hvalid | split; [| split; [| reflexivity]]]].
  - intros Hinv m u. apply ordersExact_contiguous.
    destruct (decide (m = Some matrixId)) as [-> | Hm].
    + apply contiguous_empty. rewrite Hscope, decide_True by reflexivity. reflexivity.
    + apply (contiguous_same_tasks (tasks s)).
      * rewrite Hscope, decide_False by exact Hm. reflexivity.
      * apply ordersExact_contiguous, Hinv.
  - intros Hin. apply list_elem_of_filter in Hin as [Hm _]. congruence.
  - unfold selectedMatrixIds. app_simpl. rewrite selected_elem.
    intros [Hv _]. apply Hvalid, Hv.
Qed.

Lemma deleteMatrixArchiveTasks_effect_witness :
  scopeTasks (tasks (deleteMatrixArchiveTasks "focus-x" "2026-01-01T00:00:00.000Z"
                       focusMergeState)) (Some "focus-x") High = []
  ∧ "focus-x" ∉ selectedMatrixIds
                  (deleteMatrixArchiveTasks "focus-x" "2026-01-01T00:00:00.000Z"
                     focusMergeState).
Proof.
  assert ("focus-x" ≠ "") as H1 by discriminate.
  assert ("focus-x" ≠ "none") as H2 by discriminate.
  destruct (deleteMatrixArchiveTasks_effect "focus-x" "2026-01-01T00:00:00.000Z"
              focusMergeState H1 H2) as (_ & _ & Hscope & _ & _ & _ & Hsel & _).
  split; [| exact Hsel].
  rewrite Hscope. reflexivity.
Defined.

(** ** The backfill pass of the migration *)

Lemma string_app_cons c x s : String c x +:+ s = String c (x +:+ s).
Proof. reflexivity. Qed.

Lemma string_app_nil s : "" +:+ s = s.
Proof. reflexivity. Qed.

Lemma string_length_app x s :
  String.length (x +:+ s) = String.length x + String.length s.
Proof.
  induction x as [|c x IH]; [reflexivity |].
  rewrite string_app_cons. simpl. rewrite IH. reflexivity.
Qed.

Lemma string_app_suffix_inj x y s1 s2 :
  String.length s1 = String.length s2 → x +:+ s1 = y +:+ s2 → x = y ∧ s1 = s2.
Proof.
  revert y. induction x as [|c x IH]; intros [|d y] Hlen E.
  - split; [reflexivity | exact E].
  - exfalso. rewrite string_app_nil in E. rewrite E in Hlen.
    rewrite string_app_cons in Hlen. simpl in Hlen.
    rewrite string_length_app in Hlen. lia.
  - exfalso. rewrite string_app_nil in E. rewrite <- E in Hlen.
    rewrite string_app_cons in Hlen. simpl in Hlen.
    rewrite string_length_app in Hlen. lia.
  - rewrite !string_app_cons in E. injection E as -> E.
    destruct (IH y Hlen E) as [-> ->]. split; reflexivity.
Qed.

Lemma lastChar_app x s : s ≠ "" → lastChar (x +:+ s) = lastChar s.
Proof.
  intros Hs. induction x as [|c x IH]; [reflexivity |].
  rewrite string_app_cons. simpl. rewrite IH.
  destruct s as [|d s]; [contradiction |]. simpl.
  destruct (lastChar s); reflexivity.
Qed.

(** The counter key determines the matrix and the urgency. *)
Lemma scopeKey_inj (x y : string) (u u' : urgency) :
  x +:+ "__" +:+ urgencyName u = y +:+ "__" +:+ urgencyName u' → x = y ∧ u = u'.
Proof.
  intros E.
  assert (lastChar ("__" +:+ urgencyName u) = lastChar ("__" +:+ urgencyName u'))
    as Hlast.
  { rewrite <- (lastChar_app x ("__" +:+ urgencyName u)) by (destruct u; discriminate).
    rewrite E. apply lastChar_app. destruct u'; discriminate. }
  assert (u = u') as <-.
  { destruct u, u'; try reflexivity; vm_compute in Hlast; discriminate. }
  split; [| reflexivity].
  apply (string_app_suffix_inj x y _ _ eq_refl E).
Qed.

Lemma scopeKey_same (a b : task) :
  truthyField (t_matrixId a) = true → truthyField (t_matrixId b) = true →
  scopeKey a = scopeKey b ↔ sameScope b a.
Proof.
  intros Ha Hb. unfold scopeKey, sameScope.
  destruct (t_matrixId a) as [x|]; [| discriminate].
  destruct (t_matrixId b) as [y|]; [| discriminate]. simpl. split.
  - intros E. apply scopeKey_inj in E as [-> ->]. split; reflexivity.
  - intros [[= ->] ->]. reflexivity.
Qed.

Lemma backfillOrders_position (counters : gmap string Z) (l : list task) i t :
  Forall (λ t, truthyField (t_matrixId t) = true) l →
  l !! i = Some t →
  backfillOrders counters l !! i
  = Some (with_order
            (Some (default 0 (counters !! scopeKey t) + scopePosition l i t)%Z) t).
Proof.
  intros Htr. revert counters i.
  induction Htr as [|x l Hx Htr IH]; intros counters i Hi; [done |].
  destruct i as [|i]; simpl in *.
  - injection Hi as ->. unfold scopePosition. simpl. rewrite Z.add_0_r. reflexivity.
  - rewrite (IH _ _ Hi). do 3 f_equal.
    assert (truthyField (t_matrixId t) = true) as Ht.
    { eapply (proj1 (Forall_forall _ _) Htr), list_elem_of_lookup_2, Hi. }
    unfold scopePosition. simpl.
    destruct (decide (scopeKey x = scopeKey t)) as [E | E].
    + rewrite E, lookup_insert_eq. simpl.
      rewrite filter_cons_True by (apply (scopeKey_same x t Hx Ht), E).
      simpl. lia.
    + rewrite lookup_insert_ne by exact E.
      rewrite filter_cons_False; [reflexivity |].
      intros Hs. apply E, (scopeKey_same x t Hx Ht), Hs.
Qed.

Lemma no_order_hasAnyOrder (l : list task) :
  (∀ t, t ∈ l → t_order t = None) →
  existsb (λ t, bool_decide (is_Some (t_order t))) l = false.
Proof.
  intros Hno. apply not_true_is_false. intros Hex.
  apply existsb_exists in Hex as (t & Hin & Ho).
  apply bool_decide_eq_true in Ho. apply list_elem_of_In in Hin.
  rewrite (Hno t Hin) in Ho. destruct Ho as [? ?]. discriminate.
Qed.

Lemma migrateTag_order t : t_order (migrateTag t) = t_order t.
Proof. unfold migrateTag. destruct (truthyField _); reflexivity. Qed.

Lemma migrateTag_status t : t_status (migrateTag t) = t_status t.
Proof. unfold migrateTag. destruct (truthyField _); reflexivity. Qed.

Lemma migrateTasks_no_order (l : list task) :
  (∀ t, t ∈ l → t_order t = None) →
  migrateTasks l = backfillOrders ∅ (migrateTag <$> l).
Proof.
  intros Hno. unfold migrateTasks. rewrite no_order_hasAnyOrder; [reflexivity |].
  intros t Ht. apply list_elem_of_fmap in Ht as (t0 & -> & Ht0).
  rewrite migrateTag_order. apply Hno, Ht0.
Qed.

(** X8.  When no task of the input carries an [order], [migrateTasks]
    gives the task at position [i] (after the mapping of the legacy tag)
    the number of earlier tasks of the array with the same matrix and
    the same urgency as its [order], and changes nothing else of it;
    the count includes archived and deleted tasks. *)
Theorem migrateTasks_backfill (allTasks : list task) (i : nat) (t : task) :
  (∀ t, t ∈ allTasks → t_order t = None) →
  (migrateTag <$> allTasks) !! i = Some t →
  migrateTasks allTasks !! i
  = Some (with_order (Some (scopePosition (migrateTag <$> allTasks) i t)) t).
Proof.
  intros Hno Hi. rewrite (migrateTasks_no_order _ Hno).
  rewrite (backfillOrders_position ∅ _ i t (migrateTag_fmap_truthy allTasks) Hi).
  rewrite lookup_empty. simpl. reflexivity.
Qed.

Lemma migrateTasks_backfill_witness :
  t_order <$> migrateTasks legacyTasks = [ Some 0%Z; Some 0%Z; Some 1%Z ]
  ∧ migrateTasks legacyTasks !! 2
    = Some (mkTask 13 "write" (Some "personal") None Low Completed (Some 1%Z)
                   None None None).
Proof.
  split; [reflexivity |].
  assert (∀ t, t ∈ legacyTasks → t_order t = None) as Hno.
  { apply Forall_forall. repeat constructor. }
  rewrite (migrateTasks_backfill legacyTasks 2
             (mkTask 13 "write" (Some "personal") None Low Completed None
                     None None None) Hno eq_refl).
  reflexivity.
Defined.

(** The orders that the backfill pass writes into one scope. *)
Lemma backfillOrders_scope (counters : gmap string Z) (l : list task)
    (x : string) (u : urgency) :
  Forall (λ t, truthyField (t_matrixId t) = true ∧ isLive t) l →
  scopeOrders (backfillOrders counters l) (Some x) u
  = (λ k, Some (default 0 (counters !! (x +:+ "__" +:+ urgencyName u))
                + Z.of_nat k)%Z)
      <$> seq 0 (length (scopeTasks l (Some x) u)).
Proof.
  intros Htr. revert counters.
  induction Htr as [|t l [Ht Hlive] Htr IH]; intros counters; [reflexivity |].
  unfold scopeOrders, scopeTasks in *. simpl.
  set (key := x +:+ "__" +:+ urgencyName u) in *.
  assert (inScope (Some x) u
            (with_order (Some (default 0%Z (counters !! scopeKey t))) t)
          = inScope (Some x) u t) as Hsame by (apply inScope_ext; reflexivity).
  destruct (decide (inScope (Some x) u t)) as [Hs | Hs].
  - rewrite filter_cons_True by (rewrite Hsame; exact Hs).
    rewrite (filter_cons_True _ t) by exact Hs. csimpl.
    apply inScope_true in Hs as (Hm & Hu & _).
    assert (scopeKey t = key) as Hkey.
    { unfold scopeKey, key. rewrite Hm, Hu. reflexivity. }
    rewrite Hkey, Z.add_0_r. f_equal.
    rewrite IH, lookup_insert_eq. simpl.
    rewrite <- fmap_S_seq, <- list_fmap_compose.
    apply list_fmap_ext. intros i k _. simpl. f_equal. lia.
  - rewrite filter_cons_False by (rewrite Hsame; exact Hs).
    rewrite (filter_cons_False _ t) by exact Hs.
    rewrite IH. rewrite lookup_insert_ne; [reflexivity |].
    intros Hkey. apply Hs. revert Hkey. unfold scopeKey, key.
    destruct (t_matrixId t) as [y|] eqn:Ey; [| discriminate]. simpl.
    intros Hkey. apply scopeKey_inj in Hkey as [-> Hu].
    apply inScope_true. split; [exact Ey |]. split; [exact Hu | exact Hlive].
Qed.

(** X9.  When no task of the input carries an [order] and every task is
    live, the migrated collection meets the order invariant: in every
    scope the orders read in array sequence are [0, 1, ..., n-1]. *)
Theorem migrateTasks_orderInvariant (allTasks : list task) :
  (∀ t, t ∈ allTasks → t_order t = None) →
  (∀ t, t ∈ allTasks → isLive t) →
  orderInvariant (migrateTasks allTasks)
  ∧ ∀ m u, scopeOrders (migrateTasks allTasks) m u
           = iotaOrders (length (scopeTasks (migrateTasks allTasks) m u)).
Proof.
  intros Hno Hlive.
  assert (Hall : Forall (λ t, truthyField (t_matrixId t) = true ∧ isLive t)
                        (migrateTag <$> allTasks)).
  { apply Forall_fmap, Forall_forall. intros t Ht. simpl.
    split; [apply migrateTag_truthy |].
    unfold isLive. rewrite migrateTag_status. apply Hlive, Ht. }
  assert (Hexact : ∀ m u, scopeOrders (migrateTasks allTasks) m u
             = iotaOrders (length (scopeTasks (migrateTasks allTasks) m u))).
  { intros m u. rewrite (migrateTasks_no_order _ Hno).
    assert (Hlen : ∀ l, length (scopeTasks l m u) = length (scopeOrders l m u)).
    { intros l. unfold scopeOrders. rewrite length_fmap. reflexivity. }
    destruct (decide (truthyField m = true)) as [Hm | Hm].
    - destruct m as [x|]; [| discriminate].
      rewrite Hlen, (backfillOrders_scope ∅ _ x u Hall), length_fmap, length_seq.
      rewrite lookup_empty. reflexivity.
    - assert (scopeTasks (backfillOrders ∅ (migrateTag <$> allTasks)) m u = []) as E.
      { apply filter_none. intros t Ht Hs. apply Hm.
        apply inScope_true in Hs as (<- & _).
        apply (proj1 (Forall_forall _ _)
                 (backfillOrders_truthy ∅ _ (migrateTag_fmap_truthy allTasks)) t Ht). }
      unfold scopeOrders. rewrite E. reflexivity. }
  split; [| exact Hexact].
  intros m u. apply ordersExact_contiguous. unfold contiguous.
  rewrite Hexact. reflexivity.
Qed.

Lemma migrateTasks_orderInvariant_witness :
  scopeOrders (migrateTasks legacyTasks) (Some "personal") Low = [ Some 0%Z; Some 1%Z ].
Proof.
  assert (∀ t, t ∈ legacyTasks → t_order t = None) as Hno.
  { apply Forall_forall. repeat constructor. }
  assert (∀ t, t ∈ legacyTasks → isLive t) as Hlive.
  { apply Forall_forall. repeat constructor. }
  rewrite (proj2 (migrateTasks_orderInvariant legacyTasks Hno Hlive)).
  reflexivity.
Defined.

(** ** The order of the normalised matrices *)

Lemma firstOccurrences_elem l x : x ∈ firstOccurrences l ↔ x ∈ l.
Proof.
  induction l as [|a l IH]; simpl; [reflexivity |].
  rewrite !elem_of_cons, list_elem_of_filter, IH.
  destruct (decide (x = a)); tauto.
Qed.

Lemma firstOccurrences_NoDup l : NoDup (firstOccurrences l).
Proof.
  induction l as [|a l IH]; simpl; [apply NoDup_nil_2 |].
  apply NoDup_cons. split; [| apply NoDup_filter, IH].
  rewrite list_elem_of_filter. intros [H _]. apply H. reflexivity.
Qed.

Lemma firstOccurrences_fixed l : NoDup l → firstOccurrences l = l.
Proof.
  induction 1 as [|a l Ha Hnd IH]; simpl; [reflexivity |].
  rewrite IH. f_equal. apply filter_all. intros y Hy ->. contradiction.
Qed.

(** The insertion order of a [Set]: first occurrences, after what the
    set holds already. *)
Lemma jsset_fold_firstOccurrences (l s : list string) :
  foldl (λ s k, JsSet.add k s) s l
  = s ++ filter (λ x, x ∉ s) (firstOccurrences l).
Proof.
  revert s. induction l as [|a l IH]; intros s; simpl.
  - rewrite app_nil_r. reflexivity.
  - rewrite IH. unfold JsSet.add. destruct (decide (a ∈ s)) as [Hin | Hnin].
    + rewrite filter_cons_False by tauto. f_equal.
      rewrite list_filter_filter. apply list_filter_iff. intros x.
      split; [| intros [Hx _]; exact Hx].
      intros Hx. split; [exact Hx |]. intros ->. contradiction.
    + rewrite filter_cons_True by exact Hnin. rewrite <- app_assoc. simpl.
      do 2 f_equal. rewrite list_filter_filter. apply list_filter_iff. intros x.
      rewrite elem_of_app, list_elem_of_singleton. simpl. tauto.
Qed.

Lemma ofEntries_keys_acc (entries acc : list (string * matrix)) :
  (foldl (λ m e, JsMap.set e.1 e.2 m) acc entries).*1
  = foldl (λ s k, JsSet.add k s) acc.*1 entries.*1.
Proof.
  revert acc. induction entries as [|[k v] entries IH]; intros acc; [reflexivity |].
  csimpl. rewrite IH, jsmap_set_keys. reflexivity.
Qed.

Lemma ensureDefault_keys byId d :
  (ensureDefault byId d).*1 = JsSet.add (m_id d) byId.*1.
Proof.
  unfold ensureDefault, JsSet.add.
  destruct (JsMap.has (m_id d) byId) eqn:Hhas; simpl.
  - apply has_true_get in Hhas as [e Hget]. rewrite Hget.
    apply jsmap_set_keys.
  - apply jsmap_set_keys.
Qed.

Lemma ensureDefaults_keys ds byId :
  (foldl ensureDefault byId ds).*1
  = foldl (λ s k, JsSet.add k s) byId.*1 (m_id <$> ds).
Proof.
  revert byId. induction ds as [|d ds IH]; intros byId; [reflexivity |].
  csimpl. rewrite IH, ensureDefault_keys. reflexivity.
Qed.

Lemma firstOccurrences_app (l k : list string) :
  firstOccurrences (l ++ k)
  = firstOccurrences l ++ filter (λ x, x ∉ l) (firstOccurrences k).
Proof.
  pose proof (jsset_fold_firstOccurrences (l ++ k) []) as H.
  rewrite foldl_app, !jsset_fold_firstOccurrences in H. simpl in H.
  rewrite !(filter_all (λ x, x ∉ [])) in H by (intros x _; apply not_elem_of_nil).
  rewrite <- H. f_equal. apply list_filter_iff. intros x.
  rewrite firstOccurrences_elem. reflexivity.
Qed.

(** X10.  The ids of the normalised matrix list are the stored ids in the
    order of their first occurrence, followed by the default ids that
    the stored list lacks, in the order of [DEFAULT_MATRICES]. *)
Theorem ensureDefaultPinnedMatrices_order (stored : list matrix) :
  m_id <$> ensureDefaultPinnedMatrices stored
  = firstOccurrences (m_id <$> stored) ++ missingDefaults (m_id <$> stored).
Proof.
  unfold ensureDefaultPinnedMatrices. fold (normalizedById stored).
  destruct (normalizedById_wf stored) as [_ Hid].
  rewrite (values_ids _ Hid). unfold normalizedById.
  rewrite ensureDefaults_keys. unfold JsMap.ofEntries.
  rewrite ofEntries_keys_acc. fold defaultIds.
  assert ((byIdEntries stored).*1 = m_id <$> stored) as ->.
  { unfold byIdEntries. rewrite <- list_fmap_compose. reflexivity. }
  rewrite <- foldl_app, jsset_fold_firstOccurrences. simpl.
  rewrite (filter_all (λ x, x ∉ [])) by (intros x _; apply not_elem_of_nil).
  rewrite firstOccurrences_app.
  rewrite (firstOccurrences_fixed defaultIds defaultIds_NoDup). reflexivity.
Qed.

Example ensureDefaultPinnedMatrices_order_example :
  ensureDefaultPinnedMatrices storedWithRepeats
  = [ mkMatrix "today" "Today again" true; mkMatrix "goals" "Goals" true;
      mkMatrix "work" "Work" true; mkMatrix "personal" "Personal" true ].
Proof. vm_compute. reflexivity. Qed.

(** ** Import *)

Lemma pinned_ids_head (stored : list matrix) :
  ∃ first, head (m_id <$> filter (λ m, m_pinned m) (ensureDefaultPinnedMatrices stored))
           = Some first.
Proof.
  destruct (m_id <$> filter _ _) as [|x r] eqn:E; [| eauto].
  exfalso.
  assert ("work" ∈ m_id <$> filter (λ m, m_pinned m) (ensureDefaultPinnedMatrices stored))
    as Hin; [| rewrite E in Hin; apply elem_of_nil in Hin; exact Hin].
  apply list_elem_of_fmap. exists (mkMatrix "work" "Work" true).
  split; [reflexivity |]. apply list_elem_of_filter. split; [exact I |].
  unfold ensureDefaultPinnedMatrices. fold (normalizedById stored).
  destruct (normalizedById_wf stored) as [Hnd Hid].
  apply (values_elem _ _ Hnd Hid). apply normalizedById_default. compute_done.
Qed.

(** X11.  An import of a file with both arrays replaces the matrices by
    the normalised incoming ones and the tasks by the migrated incoming
    ones, and resets the selection: the active ids and the view order
    are the ids of the pinned matrices, the focus is ["none"], so the
    selection is exactly the pinned ids, without repeats and with every
    default id.  The last selected matrix and the matrix of the draft
    are the first selected id; the text of the draft and the task being
    edited are kept, the error is cleared and the success message is
    set. *)
Theorem import_success_state (incomingMatrices : list matrix)
    (incomingTasks : list task) (s : app) :
  let s' := importDataFromFile
              (AnObject (AnArray incomingMatrices) (AnArray incomingTasks)) s in
  let pinned := m_id <$> filter (λ m, m_pinned m) (matrices s') in
  matrices s' = ensureDefaultPinnedMatrices incomingMatrices
  ∧ tasks s' = migrateTasks incomingTasks
  ∧ activePinnedIds s' = pinned ∧ viewOrderIds s' = pinned
  ∧ focusMatrixId s' = "none"
  ∧ selectedMatrixIds s' = pinned
  ∧ NoDup (selectedMatrixIds s')
  ∧ (∀ d, d ∈ defaultIds → d ∈ selectedMatrixIds s')
  ∧ head (selectedMatrixIds s') = Some (lastSelectedMatrixId s')
  ∧ d_matrixId (newTask s') = lastSelectedMatrixId s'
  ∧ d_text (newTask s') = d_text (newTask s)
  ∧ importError s' = "" ∧ importOk s' = "Imported successfully."
  ∧ editingTaskId s' = editingTaskId s.
Proof.
  intros s' pinned. subst s' pinned. unfold importDataFromFile. app_simpl.
  set (ms := ensureDefaultPinnedMatrices incomingMatrices).
  set (pinned := m_id <$> filter (λ m, m_pinned m) ms).
  assert (Hnd : NoDup pinned).
  { unfold pinned, ms, ensureDefaultPinnedMatrices. fold (normalizedById incomingMatrices).
    destruct (normalizedById_wf incomingMatrices) as [Hnd Hid].
    eapply sublist_NoDup; [| apply fmap_sublist, sublist_filter].
    rewrite (values_ids _ Hid). exact Hnd. }
  match goal with
  | |- context [selectedMatrixIds ?x] =>
      assert (Hsel : selectedMatrixIds x = pinned)
  end.
  { unfold selectedMatrixIds. app_simpl.
    rewrite computeSelectedMatrixIds_spec. unfold selectedMatrixIdsSpec.
    assert (Hvalid : ∀ id, id ∈ pinned → isValid ms id ∧ isActive pinned "none" id).
    { intros id Hin. split; [| left; exact Hin].
      unfold isValid. unfold pinned in Hin.
      apply list_elem_of_fmap in Hin as (m & -> & Hm).
      apply list_elem_of_filter in Hm as [_ Hm]. apply list_elem_of_fmap_2, Hm. }
    rewrite (filter_all _ pinned) by exact Hvalid.
    rewrite filter_none; [apply app_nil_r |].
    intros id Hin [_ Hnot]. apply Hnot.
    apply activeIds_elem in Hin as [Hin | [Hf _]]; [exact Hin | contradiction]. }
  destruct (pinned_ids_head incomingMatrices) as [first Hfirst].
  fold ms in Hfirst. fold pinned in Hfirst.
  rewrite Hsel.
  split; [reflexivity |]. split; [reflexivity |]. split; [reflexivity |].
  split; [reflexivity |]. split; [reflexivity |]. split; [reflexivity |].
  split; [exact Hnd |]. split; [| split; [| repeat split]].
  - intros d Hd. unfold pinned.
    apply list_elem_of_fmap in Hd as (m & -> & Hm).
    apply list_elem_of_fmap_2, list_elem_of_filter. split.
    + apply Is_true_true_2.
      exact (proj1 (Forall_forall _ _) defaults_pinned m Hm).
    + unfold ms, ensureDefaultPinnedMatrices. fold (normalizedById incomingMatrices).
      destruct (normalizedById_wf incomingMatrices) as [Hnd' Hid].
      apply (values_elem _ _ Hnd' Hid). apply normalizedById_default, Hm.
  - rewrite Hfirst. reflexivity.
Qed.

(** ** Moving a task to another quadrant *)

(** Two canonically sorted arrangements of the same tasks are equal when
    the ids are pairwise distinct. *)
Lemma canonical_unique (l1 l2 : list task) :
  NoDup (taskIds l1) →
  StronglySorted canonicalLe l1 → StronglySorted canonicalLe l2 →
  l1 ≡ₚ l2 → l1 = l2.
Proof.
  intros Hnd H1 H2 Hperm. apply (StronglySorted_unique_strong canonicalLe); try assumption.
  intros x1 x2 Hx1 Hx2 H12 H21. rewrite <- Hperm in Hx2.
  apply (NoDup_fmap_inj_on t_id l1 x1 x2 Hnd Hx1 Hx2).
  unfold canonicalLe in *. lia.
Qed.

Lemma StronglySorted_filter {A} (R : relation A) (P : A → Prop)
    `{!∀ x, Decision (P x)} (l : list A) :
  StronglySorted R l → StronglySorted R (filter P l).
Proof.
  induction 1 as [|x l Hl IH Hx]; [constructor |].
  rewrite filter_cons. destruct (decide (P x)); [| exact IH].
  constructor; [exact IH |]. apply Forall_forall. intros y Hy.
  apply list_elem_of_filter in Hy as [_ Hy].
  exact (proj1 (Forall_forall _ _) Hx y Hy).
Qed.

Lemma filter_taskIds (id : Z) (l : list task) :
  taskIds (filter (λ t, t_id t ≠ id) l) = filter (λ x, x ≠ id) (taskIds l).
Proof.
  unfold taskIds. induction l as [|t l IH]; [reflexivity |]. csimpl.
  rewrite !filter_cons. destruct (decide (t_id t ≠ id)); csimpl; rewrite IH; reflexivity.
Qed.

Lemma scopeGroup_NoDup l m u : NoDup (taskIds l) → NoDup (taskIds (scopeGroup l m u)).
Proof. intros Hnd. apply (rewrite_ids_NoDup l m u _ Hnd (scopeGroup_ids l m u)). Qed.

(** The canonical list of a scope depends on the live tasks of the scope
    only. *)
Lemma scopeGroup_same_tasks l l' m u :
  scopeTasks l' m u = scopeTasks l m u → scopeGroup l' m u = scopeGroup l m u.
Proof. unfold scopeGroup, scopeTasks. intros ->. reflexivity. Qed.

Lemma scopeGroup_perm l l' m u :
  NoDup (taskIds l') →
  scopeTasks l' m u ≡ₚ scopeTasks l m u → scopeGroup l' m u = scopeGroup l m u.
Proof.
  intros Hnd Hperm.
  destruct (scopeGroup_sorted l m u) as [Hs Hg].
  destruct (scopeGroup_sorted l' m u) as [Hs' Hg'].
  apply canonical_unique; [apply scopeGroup_NoDup, Hnd | assumption..|].
  rewrite Hg, Hg'. exact Hperm.
Qed.

(** Renormalising a scope keeps the canonical list of every scope. *)
Lemma normalizeOrders_scopeGroup_ids l m u m' u' :
  NoDup (taskIds l) →
  taskIds (scopeGroup (normalizeOrders l m u) m' u') = taskIds (scopeGroup l m' u').
Proof.
  intros Hnd. destruct (decide ((m', u') = (m, u))) as [[= -> ->] | Hne].
  - unfold normalizeOrders.
    apply rewritten_scope_canonical; [exact Hnd | apply scopeGroup_ids].
  - f_equal. apply scopeGroup_same_tasks, normalizeOrders_other; assumption.
Qed.

(** The task collection after a move of [a] to the urgency [u']. *)
Lemma moveToUrgency_scopes (a : task) (u' : urgency) (l : list task) :
  wellOrdered l → a ∈ l → isLive a → t_urgency a ≠ u' →
  let m := t_matrixId a in
  let l' := moveToUrgency a (t_id a) u' l in
  taskIds (scopeGroup l' m u') = taskIds (scopeGroup l m u') ++ [t_id a]
  ∧ taskIds (scopeGroup l' m (t_urgency a))
    = filter (λ id, id ≠ t_id a) (taskIds (scopeGroup l m (t_urgency a)))
  ∧ (∀ m'' u'', (m'', u'') ≠ (m, u') → (m'', u'') ≠ (m, t_urgency a) →
       scopeTasks l' m'' u'' = scopeTasks l m'' u'').
Proof.
  intros [Hnd Hc] Ha Hlive Hu m l'. subst m l'.
  apply list_elem_of_split in Ha as (l1 & l2 & ->).
  unfold moveToUrgency. rewrite (mapTaskById_middle _ l1 l2 a Hnd).
  set (l := l1 ++ a :: l2) in *.
  set (next := getNextOrder l (t_matrixId a) u').
  set (a' := with_order (Some next) (with_urgency u' a)).
  assert (Hnd' : NoDup (taskIds (l1 ++ a' :: l2))).
  { unfold taskIds, l in *. rewrite fmap_app in *. exact Hnd. }
  assert (Hin_a : inScope (t_matrixId a) (t_urgency a) a).
  { apply inScope_true. repeat split. exact Hlive. }
  assert (Hin_a' : inScope (t_matrixId a) u' a').
  { apply inScope_true. repeat split. exact Hlive. }
  assert (Hout : ∀ m u, inScope m u a' → (m, u) = (t_matrixId a, u')).
  { intros m u Hs. apply inScope_true in Hs as (<- & <- & _). reflexivity. }
  assert (Hout0 : ∀ m u, inScope m u a → (m, u) = (t_matrixId a, t_urgency a)).
  { intros m u Hs. apply inScope_true in Hs as (<- & <- & _). reflexivity. }
  assert (Hscope : ∀ m u, scopeTasks (l1 ++ a' :: l2) m u
            = scopeTasks l1 m u ++ (if inScope m u a' then [a'] else [])
              ++ scopeTasks l2 m u) by (intros; apply scopeTasks_middle).
  assert (Hscope0 : ∀ m u, scopeTasks l m u
            = scopeTasks l1 m u ++ (if inScope m u a then [a] else [])
              ++ scopeTasks l2 m u) by (intros; apply scopeTasks_middle).
  split; [| split].
  - rewrite normalizeOrders_scopeGroup_ids by exact Hnd'.
    assert (scopeGroup (l1 ++ a' :: l2) (t_matrixId a) u'
            = scopeGroup l (t_matrixId a) u' ++ [a']) as ->.
    2:{ unfold taskIds. rewrite fmap_app. reflexivity. }
    destruct (scopeGroup_sorted l (t_matrixId a) u') as [Hs Hg].
    destruct (scopeGroup_sorted (l1 ++ a' :: l2) (t_matrixId a) u') as [Hs' Hg'].
    assert (Hperm : scopeTasks (l1 ++ a' :: l2) (t_matrixId a) u'
                    ≡ₚ scopeTasks l (t_matrixId a) u' ++ [a']).
    { rewrite Hscope, Hscope0.
      rewrite (Is_true_true_1 _ Hin_a').
      destruct (inScope (t_matrixId a) u' a) eqn:E.
      - exfalso. apply Is_true_true_2 in E. apply Hout0 in E. congruence.
      - simpl. rewrite <- Permutation_middle, <- Permutation_cons_append.
        reflexivity. }
    apply canonical_unique; [apply scopeGroup_NoDup, Hnd' | exact Hs' | |].
    + apply StronglySorted_app_2; [| exact Hs | repeat constructor].
      intros t x Ht Hx. apply list_elem_of_singleton in Hx as ->.
      rewrite Hg in Ht.
      destruct (contiguous_order_Some l _ _ t (Hc _ _) Ht) as (k & Hk & Ek).
      unfold canonicalLe, orderOrZero. rewrite Ek. simpl. left.
      unfold next. rewrite (getNextOrder_contiguous l _ _ (Hc _ _)). lia.
    + rewrite Hg', Hperm, Hg. reflexivity.
  - rewrite normalizeOrders_scopeGroup_ids by exact Hnd'.
    rewrite <- filter_taskIds. f_equal.
    destruct (scopeGroup_sorted l (t_matrixId a) (t_urgency a)) as [Hs Hg].
    destruct (scopeGroup_sorted (l1 ++ a' :: l2) (t_matrixId a) (t_urgency a))
      as [Hs' Hg'].
    apply canonical_unique; [apply scopeGroup_NoDup, Hnd' | exact Hs' | |].
    + apply StronglySorted_filter, Hs.
    + rewrite Hg', Hg, Hscope, Hscope0.
      rewrite (Is_true_true_1 _ Hin_a).
      destruct (inScope (t_matrixId a) (t_urgency a) a') eqn:E.
      { exfalso. apply Is_true_true_2 in E. apply Hout in E. congruence. }
      simpl. rewrite filter_app, filter_cons_False by (intros H; apply H; reflexivity).
      unfold taskIds, l in Hnd. rewrite fmap_app in Hnd. csimpl in Hnd.
      apply NoDup_app in Hnd as (_ & Hdisj & Hnd2).
      apply NoDup_cons in Hnd2 as [Ha2 _].
      rewrite !filter_all; [reflexivity | |].
      * intros t Ht E'. apply list_elem_of_filter in Ht as [_ Ht].
        apply Ha2. rewrite <- E'. apply list_elem_of_fmap_2, Ht.
      * intros t Ht E'. apply list_elem_of_filter in Ht as [_ Ht].
        apply (Hdisj (t_id t)); [apply list_elem_of_fmap_2, Ht |].
        rewrite E'. apply list_elem_of_here.
  - intros m u Hne1 Hne2.
    rewrite normalizeOrders_other by assumption.
    rewrite Hscope, Hscope0.
    destruct (inScope m u a') eqn:E.
    { exfalso. apply Hne1, Hout, Is_true_true_2, E. }
    destruct (inScope m u a) eqn:E0.
    { exfalso. apply Hne2, Hout0, Is_true_true_2, E0. }
    reflexivity.
Qed.

(** X12.  In a well-ordered collection, a drop of a live task of a
    selected matrix that points at another quadrant [u] (the quadrant
    itself, or a task of the same matrix lying in it) puts the task at
    the end of the canonical list of [u], also when it was dropped onto
    a task in the middle of that list.  The canonical list of the
    quadrant it left is the old one without it, the live lists of all
    other scopes are unchanged, and no other part of the state
    changes. *)
Theorem drop_moves_to_bottom (s : app) (activeId : Z) (over : dropId)
    (activeTask : task) (u : urgency) :
  wellOrdered (tasks s) →
  getTaskById s activeId = Some activeTask →
  t_matrixId activeTask ∈ Some <$> selectedMatrixIds s →
  isLive activeTask →
  dropUrgency s activeTask over = Some u →
  t_urgency activeTask ≠ u →
  let m := t_matrixId activeTask in
  let s' := handleDragEnd activeId (Some over) s in
  taskIds (scopeGroup (tasks s') m u)
  = taskIds (scopeGroup (tasks s) m u) ++ [activeId]
  ∧ taskIds (scopeGroup (tasks s') m (t_urgency activeTask))
    = filter (λ id, id ≠ activeId)
             (taskIds (scopeGroup (tasks s) m (t_urgency activeTask)))
  ∧ (∀ m' u', (m', u') ≠ (m, u) → (m', u') ≠ (m, t_urgency activeTask) →
       scopeTasks (tasks s') m' u' = scopeTasks (tasks s) m' u')
  ∧ s' = setTasks (tasks s') s.
Proof.
  intros Hwo Ha Hsel Hlive Hdrop Hu m s'.
  pose proof (getTaskById_Some _ _ _ Ha) as [Hin Hid].
  assert (Hs' : s' = setTasks (moveToUrgency activeTask activeId u (tasks s)) s).
  { subst s'. unfold handleDragEnd. rewrite Ha.
    rewrite (bool_decide_eq_true_2 _ Hsel). simpl.
    destruct over as [u0 | overId]; simpl in Hdrop.
    - injection Hdrop as ->. rewrite decide_False by exact Hu. reflexivity.
    - destruct (getTaskById s overId) as [o|]; [| discriminate].
      destruct (decide (t_matrixId o = t_matrixId activeTask)) as [Em |];
        [| discriminate].
      injection Hdrop as Eu.
      rewrite decide_False by (intros H; apply H; exact Em).
      rewrite decide_True by congruence. rewrite Eu. reflexivity. }
  rewrite Hs'. app_simpl. rewrite <- Hid.
  destruct (moveToUrgency_scopes activeTask u (tasks s) Hwo Hin Hlive Hu)
    as (Hdst & Hsrc & Hoth).
  split; [exact Hdst |]. split; [exact Hsrc |]. split; [exact Hoth | reflexivity].
Qed.

Lemma drop_moves_to_bottom_witness :
  taskIds (scopeGroup (tasks (handleDragEnd 1 (Some (OverTask 4)) twoQuadrantState))
                      (Some "work") Low)
  = [ 4%Z; 5%Z; 1%Z ].
Proof.
  assert (wellOrdered (tasks twoQuadrantState)) as Hwo.
  { apply wellOrdered_invariant. split; [compute_done |].
    apply orderInvariant_by_tasks. compute_done. }
  assert (Some "work" ∈ Some <$> selectedMatrixIds twoQuadrantState) as Hsel
    by compute_done.
  assert (High ≠ Low) as Hu by discriminate.
  exact (proj1 (drop_moves_to_bottom twoQuadrantState 1 (OverTask 4)
                  (sampleTask 1 "work" High NotDone 0) Low
                  Hwo eq_refl Hsel I eq_refl Hu)).
Defined.

(** ** Merging a matrix into another *)

Lemma insertBy_fmap {A} (cmp : A → A → Z) (f : A → A) x l :
  (∀ a b, cmp (f a) (f b) = cmp a b) →
  insertBy cmp (f x) (f <$> l) = f <$> insertBy cmp x l.
Proof.
  intros Hf. induction l as [|y l IH]; [reflexivity |]. csimpl.
  rewrite Hf. destruct (cmp x y <=? 0)%Z; [reflexivity |].
  csimpl. rewrite IH. reflexivity.
Qed.

Lemma sortBy_fmap {A} (cmp : A → A → Z) (f : A → A) l :
  (∀ a b, cmp (f a) (f b) = cmp a b) →
  sortBy cmp (f <$> l) = f <$> sortBy cmp l.
Proof.
  intros Hf. unfold sortBy. induction l as [|x l IH]; [reflexivity |]. csimpl.
  rewrite IH. apply insertBy_fmap, Hf.
Qed.

Lemma with_order_with_order o o' t : with_order o' (with_order o t) = with_order o' t.
Proof. reflexivity. Qed.

(** Renormalising the scopes of one matrix rewrites the [order] of live
    tasks of that matrix only. *)
Lemma normalizeAll_frame m us l i t :
  NoDup (taskIds l) → l !! i = Some t →
  ∃ o, foldl (λ next u, normalizeOrders next m u) l us !! i = Some (with_order o t)
       ∧ (t_matrixId t ≠ m ∨ isLive t = false → o = t_order t).
Proof.
  revert l t. induction us as [|u us IH]; intros l t Hnd Hi; simpl.
  - exists (t_order t). split; [| reflexivity].
    rewrite Hi. f_equal. symmetry. destruct t; reflexivity.
  - assert (normalizeOrders l m u !! i
            = Some (if inScope m u t
                    then with_order
                           (Z.of_nat <$> indexOf (t_id t) (taskIds (scopeGroup l m u))) t
                    else t)) as Hstep.
    { rewrite normalizeOrders_reordered by exact Hnd.
      unfold reorderedOrders. rewrite list_lookup_fmap, Hi. reflexivity. }
    assert (NoDup (taskIds (normalizeOrders l m u))) as Hnd'.
    { rewrite normalizeOrders_ids. exact Hnd. }
    destruct (IH _ _ Hnd' Hstep) as (o & Ho & Hkeep). exists o. split.
    + rewrite Ho. destruct (inScope m u t); reflexivity.
    + intros Hout. destruct (inScope m u t) eqn:Hs.
      * exfalso. apply Is_true_true_2, inScope_true in Hs as (Hm & _ & Hl).
        destruct Hout as [H | H]; [contradiction | rewrite H in Hl; exact Hl].
      * apply Hkeep. exact Hout.
Qed.

Lemma normalizeAll_scopeGroup_ids m us l m' u' :
  NoDup (taskIds l) →
  taskIds (scopeGroup (foldl (λ next u, normalizeOrders next m u) l us) m' u')
  = taskIds (scopeGroup l m' u').
Proof.
  revert l. induction us as [|u us IH]; intros l Hnd; simpl; [reflexivity |].
  rewrite IH by (rewrite normalizeOrders_ids; exact Hnd).
  apply normalizeOrders_scopeGroup_ids, Hnd.
Qed.

Lemma retag_ids src dst l : taskIds (retag src dst <$> l) = taskIds l.
Proof.
  unfold taskIds. rewrite <- list_fmap_compose. apply list_fmap_ext.
  intros i t _. simpl. unfold retag. destruct (decide _); reflexivity.
Qed.

Lemma retag_inScope src dst u t :
  src ≠ dst →
  inScope (Some dst) u (retag src dst t) = inMergedScope src dst u t.
Proof.
  intros Hne. apply eq_bool_prop_intro. unfold inMergedScope.
  rewrite orb_True, !inScope_true. unfold retag.
  destruct (decide (t_matrixId t = Some src)) as [E | E]; simpl.
  - unfold isLive. simpl. rewrite E. split.
    + intros (_ & Hu & Hl). left. split; [reflexivity | split; assumption].
    + intros [(_ & Hu & Hl) | (Hm & _)]; [| congruence].
      split; [reflexivity | split; assumption].
  - split; [intros H; right; exact H |]. intros [(Hm & _) | H]; [contradiction | exact H].
Qed.

Lemma retag_scopeTasks src dst u (l : list task) :
  src ≠ dst →
  filter (λ t, inScope (Some dst) u t) (retag src dst <$> l)
  = retag src dst <$> filter (λ t, inMergedScope src dst u t) l.
Proof.
  intros Hne. induction l as [|t l IH]; [reflexivity |]. csimpl.
  rewrite !filter_cons, IH. rewrite (retag_inScope _ _ _ _ Hne).
  destruct (decide (inMergedScope src dst u t)); reflexivity.
Qed.

(** X13.  [mergeMatrixInto sourceId destId], for a non-empty source other
    than ["none"] and a non-empty destination other than the source, in
    a collection with pairwise distinct ids: no task carries
    [sourceId] afterwards; every task keeps its position and all its
    fields but [matrixId] (rewritten from source to destination) and
    [order], and [order] too is kept on tasks that are not live or are of
    neither matrix.  In every quadrant the canonical list of the
    destination is the live tasks of both matrices sorted together by
    their old [order], then [id], with orders exactly [0..n-1].  The
    source matrix is removed from [matrices] and from the selection, the
    focus is ["none"] and the last selected matrix is [destId]. *)
Theorem mergeMatrixInto_effect (sourceId destId : string) (s : app) :
  sourceId ≠ "" → sourceId ≠ "none" → destId ≠ "" → sourceId ≠ destId →
  NoDup (taskIds (tasks s)) →
  let s' := mergeMatrixInto sourceId destId s in
  (∀ t, t ∈ tasks s' → t_matrixId t ≠ Some sourceId)
  ∧ (∀ i t, tasks s !! i = Some t →
       ∃ o, tasks s' !! i = Some (with_order o (retag sourceId destId t))
            ∧ (isLive t = false
               ∨ (t_matrixId t ≠ Some sourceId ∧ t_matrixId t ≠ Some destId) →
               o = t_order t))
  ∧ (∀ u, taskIds (scopeGroup (tasks s') (Some destId) u)
          = taskIds (sortBy compareTasks
                       (filter (λ t, inMergedScope sourceId destId u t) (tasks s))))
  ∧ (∀ u, ordersExact (tasks s') (Some destId) u)
  ∧ matrices s' = filter (λ m, m_id m ≠ sourceId) (matrices s)
  ∧ (sourceId ∉ selectedMatrixIds s')
  ∧ focusMatrixId s' = "none"
  ∧ lastSelectedMatrixId s' = destId.
Proof.
  intros Hs1 Hs2 Hd Hne Hnd s'. subst s'. unfold mergeMatrixInto.
  assert (negb (truthy sourceId) || bool_decide (sourceId = "none") = false) as ->.
  { unfold truthy. rewrite (bool_decide_eq_true_2 _ Hs1).
    rewrite (bool_decide_eq_false_2 _ Hs2). reflexivity. }
  assert (negb (truthy destId) || bool_decide (sourceId = destId) = false) as ->.
  { unfold truthy. rewrite (bool_decide_eq_true_2 _ Hd).
    rewrite (bool_decide_eq_false_2 _ Hne). reflexivity. }
  app_simpl. fold (retag sourceId destId).
  set (moved := retag sourceId destId <$> tasks s).
  assert (Hnd' : NoDup (taskIds moved)).
  { unfold moved. rewrite retag_ids. exact Hnd. }
  assert (Hframe : ∀ i t, tasks s !! i = Some t →
             ∃ o, foldl (λ next u, normalizeOrders next (Some destId) u) moved
                    urgencyLevels !! i
                  = Some (with_order o (retag sourceId destId t))
                  ∧ (isLive t = false
                     ∨ (t_matrixId t ≠ Some sourceId ∧ t_matrixId t ≠ Some destId) →
                     o = t_order t)).
  { intros i t Hi.
    assert (moved !! i = Some (retag sourceId destId t)) as Hi'.
    { unfold moved. rewrite list_lookup_fmap, Hi. reflexivity. }
    destruct (normalizeAll_frame (Some destId) urgencyLevels moved i _ Hnd' Hi')
      as (o & Ho & Hkeep).
    exists o. split; [exact Ho |]. intros Hout.
    assert (t_order (retag sourceId destId t) = t_order t) as <-.
    { unfold retag. destruct (decide _); reflexivity. }
    apply Hkeep. unfold retag.
    destruct (decide (t_matrixId t = Some sourceId)) as [E | E]; simpl.
    - destruct Hout as [H | [H _]]; [right; exact H | contradiction].
    - destruct Hout as [H | [_ H]]; [right; exact H | left; exact H]. }
  split; [| split; [exact Hframe | split; [| split; [| split; [| split]]]]].
  - intros t' Ht'. apply list_elem_of_lookup_1 in Ht' as [i Hi].
    assert (i < length (tasks s)) as Hlt.
    { apply lookup_lt_Some in Hi.
      assert (length (taskIds (foldl (λ next u, normalizeOrders next (Some destId) u)
                                 moved urgencyLevels)) = length (taskIds (tasks s)))
        as Hlen.
      { rewrite normalizeAll_ids. unfold moved. rewrite retag_ids. reflexivity. }
      unfold taskIds in Hlen. rewrite !length_fmap in Hlen. lia. }
    destruct (lookup_lt_is_Some_2 _ _ Hlt) as [t Ht].
    destruct (Hframe i t Ht) as (o & Ho & _). rewrite Ho in Hi. injection Hi as <-.
    simpl. unfold retag.
    destruct (decide (t_matrixId t = Some sourceId)) as [E | E]; simpl; congruence.
  - intros u. rewrite normalizeAll_scopeGroup_ids by exact Hnd'.
    unfold scopeGroup, moved.
    assert (filter (λ t, inScope (Some destId) u t) (retag sourceId destId <$> tasks s)
            = retag sourceId destId
                <$> filter (λ t, inMergedScope sourceId destId u t) (tasks s)) as ->.
    { apply retag_scopeTasks, Hne. }
    rewrite sortBy_fmap; [apply retag_ids |].
    intros a b. unfold retag. destruct (decide _), (decide _); reflexivity.
  - intros u. apply ordersExact_contiguous.
    apply (normalizeAll_scopes (Some destId) urgencyLevels moved Hnd').
    apply urgencyLevels_all.
  - reflexivity.
  - unfold selectedMatrixIds. app_simpl. rewrite selected_elem.
    intros [Hv _]. unfold isValid in Hv.
    apply list_elem_of_fmap in Hv as (m & E & Hin).
    apply list_elem_of_filter in Hin as [Hm _]. congruence.
  - split; reflexivity.
Qed.

Lemma mergeMatrixInto_effect_witness :
  taskIds (scopeGroup (tasks (mergeMatrixInto "focus-x" "work" focusMergeState))
                      (Some "work") High)
  = [ 1%Z; 2%Z; 3%Z ].
Proof.
  assert ("focus-x" ≠ "") as H1 by discriminate.
  assert ("focus-x" ≠ "none") as H2 by discriminate.
  assert ("work" ≠ "") as H3 by discriminate.
  assert ("focus-x" ≠ "work") as H4 by discriminate.
  assert (NoDup (taskIds (tasks focusMergeState))) as Hnd by compute_done.
  destruct (mergeMatrixInto_effect "focus-x" "work" focusMergeState H1 H2 H3 H4 Hnd)
    as (_ & _ & Hdest & _).
  rewrite Hdest. reflexivity.
Defined.

(** ** What a drop leaves alone *)

Section Frame.
Context {B : Type} (proj : task → B).
Hypothesis proj_order : ∀ o t, proj (with_order o t) = proj t.

Lemma applyOrders_proj updates l : proj <$> applyOrders updates l = proj <$> l.
Proof.
  unfold applyOrders. rewrite <- list_fmap_compose. apply list_fmap_ext.
  intros i t _. simpl. destruct (updates !! t_id t); [apply proj_order | reflexivity].
Qed.

Lemma normalizeOrders_proj l m u : proj <$> normalizeOrders l m u = proj <$> l.
Proof. apply applyOrders_proj. Qed.

Lemma normalizeAll_proj m us l :
  proj <$> foldl (λ next u, normalizeOrders next m u) l us = proj <$> l.
Proof.
  revert l. induction us as [|u us IH]; intros l; simpl; [reflexivity |].
  rewrite IH. apply normalizeOrders_proj.
Qed.

Lemma mapTaskById_proj id f l :
  (∀ t, proj (f t) = proj t) → proj <$> mapTaskById id f l = proj <$> l.
Proof.
  intros Hf. unfold mapTaskById. rewrite <- list_fmap_compose. apply list_fmap_ext.
  intros i t _. simpl. destruct (decide (t_id t = id)); [apply Hf | reflexivity].
Qed.

Lemma reorderWithin_proj a id over l : proj <$> reorderWithin a id over l = proj <$> l.
Proof.
  unfold reorderWithin.
  destruct (indexOf id _); [destruct (indexOf over _) |]; auto using applyOrders_proj.
Qed.

Hypothesis proj_urgency : ∀ u t, proj (with_urgency u t) = proj t.

Lemma moveToUrgency_proj a id u l : proj <$> moveToUrgency a id u l = proj <$> l.
Proof.
  unfold moveToUrgency. rewrite normalizeOrders_proj.
  apply mapTaskById_proj. intros t. rewrite proj_order. apply proj_urgency.
Qed.

Lemma handleDragEnd_proj activeId over s :
  proj <$> tasks (handleDragEnd activeId over s) = proj <$> tasks s.
Proof.
  unfold handleDragEnd.
  destruct over as [[u | overId] |]; [| | reflexivity];
    destruct (getTaskById s activeId) as [a|]; try reflexivity;
    destruct (negb _); try reflexivity.
  - destruct (decide (t_urgency a = u)); [reflexivity |].
    simpl. apply moveToUrgency_proj.
  - destruct (getTaskById s overId) as [o|]; [| reflexivity].
    destruct (decide (t_matrixId o ≠ t_matrixId a)); [reflexivity |].
    destruct (decide (t_urgency o ≠ t_urgency a)).
    + simpl. apply moveToUrgency_proj.
    + destruct (decide (activeId = overId)); [reflexivity |].
      simpl. apply reorderWithin_proj.
Qed.
End Frame.


(** ** Task texts *)

Lemma trimEnd_idemp s : trimEnd (trimEnd s) = trimEnd s.
Proof.
  induction s as [|c s IH]; [reflexivity |]. simpl.
  destruct (trimEnd s) as [|d e] eqn:E.
  - destruct (isSpace c) eqn:Ec; [reflexivity |]. simpl. rewrite Ec. reflexivity.
  - change (trimEnd (String c (String d e)))
      with (match trimEnd (String d e) with
            | EmptyString =>
                if isSpace c then EmptyString else String c EmptyString
            | r' => String c r'
            end).
    rewrite IH. reflexivity.
Qed.

Lemma trimEnd_head c s :
  isSpace c = false → ∃ r, trimEnd (String c s) = String c r.
Proof.
  intros Hc. simpl. destruct (trimEnd s); [rewrite Hc |]; eauto.
Qed.

Lemma trimStart_head s :
  trimStart s = "" ∨ ∃ c r, trimStart s = String c r ∧ isSpace c = false.
Proof.
  induction s as [|c s IH]; [left; reflexivity |]. simpl.
  destruct (isSpace c) eqn:Ec; [exact IH |]. right. eauto.
Qed.

Lemma trim_idemp s : trim (trim s) = trim s.
Proof.
  unfold trim. destruct (trimStart_head s) as [-> | (c & r & -> & Hc)]; [reflexivity |].
  destruct (trimEnd_head c r Hc) as [r' E]. rewrite E.
  assert (trimStart (String c r') = String c r') as ->.
  { simpl. rewrite Hc. reflexivity. }
  rewrite <- E. apply trimEnd_idemp.
Qed.

Lemma asciiText_trimStart s : asciiText s → asciiText (trimStart s).
Proof.
  unfold asciiText. induction s as [|c s IH]; intros H; [exact H |]. simpl.
  destruct (isSpace c); [| exact H].
  apply IH. simpl in H. apply Forall_cons in H as [_ H]. exact H.
Qed.

Lemma asciiText_trimEnd s : asciiText s → asciiText (trimEnd s).
Proof.
  unfold asciiText. induction s as [|c s IH]; intros H; [exact H |].
  simpl in H. apply Forall_cons in H as [Hc H]. specialize (IH H). simpl.
  destruct (trimEnd s) as [|d e].
  - destruct (isSpace c); [constructor |]. simpl. constructor; [exact Hc | constructor].
  - simpl. constructor; [exact Hc | exact IH].
Qed.

Lemma asciiText_trim s : asciiText s → asciiText (trim s).
Proof. intros H. apply asciiText_trimEnd, asciiText_trimStart, H. Qed.

Lemma plainText_texts (l l' : list task) :
  t_text <$> l' = t_text <$> l → Forall plainText l → Forall plainText l'.
Proof.
  intros E H. rewrite Forall_forall in *. intros t' Ht'.
  assert (t_text t' ∈ t_text <$> l') as Hin by (apply list_elem_of_fmap_2, Ht').
  rewrite E in Hin. apply list_elem_of_fmap in Hin as (t & Et & Ht).
  unfold plainText, nonBlank. rewrite Et. apply H, Ht.
Qed.

Lemma migrateTasks_texts l : t_text <$> migrateTasks l = t_text <$> l.
Proof.
  assert (Hback : ∀ c k, t_text <$> backfillOrders c k = t_text <$> k).
  { intros c k. revert c. induction k as [|t k IH]; intros c; [reflexivity |].
    simpl. rewrite IH. reflexivity. }
  unfold migrateTasks. destruct (existsb _ _); [| rewrite Hback];
    rewrite <- list_fmap_compose; apply list_fmap_ext; intros i t _; simpl;
    unfold migrateTag; destruct (truthyField _); reflexivity.
Qed.

(** X15.  On ASCII text no action of the page gives a task a blank
    text: when the draft of the new task and the draft of the edit are
    ASCII text, and the texts of the tasks, and of the tasks of an
    imported file, are ASCII text that is not blank (not empty after
    trimming), then after any action the texts of the tasks are again
    ASCII text that is not blank. *)
Theorem text_never_blank (a : action) (s : app) :
  asciiText (d_text (newTask s)) → asciiText (editDraft s) →
  Forall plainText (tasks s) → Forall plainText (incomingTasks a) →
  Forall plainText (tasks (perform a s)).
Proof.
  intros Hdraft Hedit Hs Hin.
  assert (Hsame : ∀ s', t_text <$> tasks s' = t_text <$> tasks s →
                        Forall plainText (tasks s')).
  { intros s' E. apply (plainText_texts _ _ E Hs). }
  assert (Hmap : ∀ id f, (∀ t, t_text (f t) = t_text t) →
                         Forall plainText (mapTaskById id f (tasks s))).
  { intros id f Hf. apply (plainText_texts (tasks s)); [| exact Hs].
    apply mapTaskById_proj, Hf. }
  destruct a; simpl in *.
  - apply Hsame. unfold togglePinned. repeat case_match; reflexivity.
  - apply Hsame. unfold changeFocus. repeat case_match; reflexivity.
  - apply Hsame. unfold addMatrix. repeat case_match; reflexivity.
  - destruct (focusMatrix s) as [fm|]; [| exact Hs].
    apply Hsame. unfold mergeMatrixInto.
    repeat case_match; try reflexivity. app_simpl.
    rewrite (normalizeAll_proj t_text) by reflexivity.
    rewrite <- list_fmap_compose. apply list_fmap_ext. intros i t _. simpl.
    destruct (decide _); reflexivity.
  - destruct (focusMatrix s) as [fm|]; [| exact Hs].
    apply Hsame. unfold deleteMatrixArchiveTasks.
    repeat case_match; try reflexivity. app_simpl.
    rewrite <- list_fmap_compose. apply list_fmap_ext. intros i t _. simpl.
    destruct (_ && _); reflexivity.
  - exact Hs.
  - exact Hs.
  - exact Hs.
  - unfold addTask. destruct (negb (truthy (trim (d_text (newTask s))))) eqn:E;
      [exact Hs |]. app_simpl.
    apply Forall_app. split; [exact Hs |]. constructor; [| constructor].
    apply negb_false_iff in E. unfold truthy in E.
    apply bool_decide_eq_true in E.
    split; [exact Hdraft | exact E].
  - apply Hmap. reflexivity.
  - apply Hmap. reflexivity.
  - apply Hmap. reflexivity.
  - unfold deleteTask. destruct (decide _); app_simpl; apply Hmap; reflexivity.
  - unfold clearDeleted. app_simpl.
    apply Forall_forall. intros t Ht. apply list_elem_of_filter in Ht as [_ Ht].
    exact (proj1 (Forall_forall _ _) Hs t Ht).
  - exact Hs.
  - exact Hs.
  - unfold commitEdit. destruct (editingTaskId s) as [e|]; [| exact Hs].
    destruct (negb (truthy (trim (editDraft s)))) eqn:E; [exact Hs |]. app_simpl.
    apply negb_false_iff in E. unfold truthy in E. apply bool_decide_eq_true in E.
    unfold mapTaskById. apply Forall_fmap, Forall_forall. intros t Ht. simpl.
    destruct (decide (t_id t = e)).
    + split; [apply asciiText_trim, Hedit |].
      unfold nonBlank. simpl. rewrite trim_idemp. exact E.
    + exact (proj1 (Forall_forall _ _) Hs t Ht).
  - exact Hs.
  - apply Hsame. apply handleDragEnd_proj; reflexivity.
  - destruct file as [msg | | [| ms] [| ts]]; try exact Hs.
    unfold importDataFromFile. app_simpl.
    apply (plainText_texts ts); [apply migrateTasks_texts | exact Hin].
  - apply Hsame. unfold healFocus. repeat case_match; reflexivity.
  - apply Hsame. unfold alignNewTask. repeat case_match; reflexivity.
Qed.

Lemma text_never_blank_witness :
  Forall plainText (tasks (perform (AddTask 9 "2026-01-01T00:00:00.000Z")
                             blankDraftState))
  ∧ length (tasks (perform (AddTask 9 "2026-01-01T00:00:00.000Z")
                     blankDraftState)) = 2.
Proof.
  split; [| reflexivity].
  apply (text_never_blank (AddTask 9 "2026-01-01T00:00:00.000Z") blankDraftState).
  - compute_done.
  - compute_done.
  - repeat constructor; discriminate.
  - constructor.
Defined.

(** ** Slugs *)

Lemma hyphen_not_slug : isSlugChar hyphen = false.
Proof. reflexivity. Qed.

Lemma slugChar_not_hyphen c : isSlugChar c = true → c ≠ hyphen.
Proof. intros H ->. discriminate. Qed.

Lemma replaceRuns_hyphenated b s : hyphenated b (replaceRuns b s).
Proof.
  revert b. induction s as [|c s IH]; intros b; simpl; [exact I |].
  destruct (isSlugChar c) eqn:Ec; simpl.
  - rewrite Ec. apply IH.
  - destruct b; [apply IH |]. simpl. rewrite ?hyphen_not_slug.
    split; [reflexivity |]. split; [reflexivity | apply IH].
Qed.

Lemma hyphenated_weaken s : hyphenated true s → hyphenated false s.
Proof.
  destruct s as [|c s]; simpl; [exact id |].
  destruct (isSlugChar c); [exact id |]. intros (_ & H & _). discriminate.
Qed.

Lemma stripLeadingHyphen_hyphenated s :
  hyphenated false s → hyphenated true (stripLeadingHyphen s).
Proof.
  destruct s as [|c s]; simpl; [exact id |].
  destruct (decide (c = hyphen)) as [-> | Hc].
  - rewrite ?hyphen_not_slug. intros (_ & _ & H). exact H.
  - simpl. destruct (isSlugChar c); [exact id |]. intros (H & _). contradiction.
Qed.

Lemma stripTrailingHyphen_hyphenated b s :
  hyphenated b s →
  hyphenated b (stripTrailingHyphen s) ∧ lastChar (stripTrailingHyphen s) ≠ Some hyphen.
Proof.
  revert b. induction s as [|c s IH]; intros b; simpl; [intros _; split; [exact I | discriminate] |].
  destruct s as [|d s].
  - destruct (decide (c = hyphen)) as [-> | Hc]; simpl.
    + intros _. split; [exact I | discriminate].
    + intros H. split; [exact H |]. congruence.
  - remember (String d s) as r eqn:Er. intros H.
    change (hyphenated b (String c (stripTrailingHyphen r))
            ∧ lastChar (String c (stripTrailingHyphen r)) ≠ Some hyphen).
    simpl. simpl in H. destruct (isSlugChar c) eqn:Ec.
    + destruct (IH false H) as [H1 H2]. split; [exact H1 |].
      destruct (lastChar (stripTrailingHyphen r)) as [e|]; [exact H2 |].
      intros [= ->]. discriminate.
    + destruct H as (-> & -> & H). destruct (IH true H) as [H1 H2].
      split; [split; [reflexivity | split; [reflexivity | exact H1]] |].
      destruct (lastChar (stripTrailingHyphen r)) as [e|] eqn:El; [exact H2 |].
      exfalso. subst r.
      destruct (stripTrailingHyphen (String d s)) as [|e x] eqn:Ex.
      * simpl in Ex. destruct s as [|d' s']; [| discriminate].
        destruct (decide (d = hyphen)) as [-> | Hd]; [| discriminate].
        simpl in H. rewrite ?hyphen_not_slug in H. destruct H as (_ & H & _).
        discriminate.
      * simpl in El. destruct (lastChar x); discriminate.
Qed.

Lemma slugify_hyphenated input :
  hyphenated true (slugify input) ∧ lastChar (slugify input) ≠ Some hyphen.
Proof.
  unfold slugify. apply stripTrailingHyphen_hyphenated.
  apply stripLeadingHyphen_hyphenated, replaceRuns_hyphenated.
Qed.

(** What the shape says in terms of the characters. *)
Lemma hyphenated_chars b s :
  hyphenated b s → Forall (λ c, isSlugChar c = true ∨ c = hyphen) (chars s).
Proof.
  revert b. induction s as [|c s IH]; intros b; simpl; [constructor |].
  destruct (isSlugChar c) eqn:Ec.
  - intros H. constructor; [left; exact Ec | eapply IH, H].
  - intros (-> & _ & H). constructor; [right; reflexivity | eapply IH, H].
Qed.

Lemma hyphenated_no_double b x y : ¬ hyphenated b (x +:+ "--" +:+ y).
Proof.
  revert b. induction x as [|c x IH]; intros b.
  - change (¬ hyphenated b (String hyphen (String hyphen y))). simpl.
    rewrite ?hyphen_not_slug. intros (_ & _ & _ & H & _). discriminate.
  - rewrite string_app_cons. simpl. destruct (isSlugChar c).
    + apply IH.
    + intros (_ & _ & H). exact (IH _ H).
Qed.

Lemma hyphenated_no_leading y : ¬ hyphenated true ("-" +:+ y).
Proof.
  change (¬ hyphenated true (String hyphen y)). simpl. rewrite ?hyphen_not_slug.
  intros (_ & H & _). discriminate.
Qed.

(** A string of that shape is a fixed point of every step of [slugify]. *)
Lemma toLowerChar_fixed c : isSlugChar c = true ∨ c = hyphen → toLowerChar c = c.
Proof.
  intros [H | ->]; [| reflexivity].
  unfold toLowerChar, isSlugChar in *.
  destruct (bool_decide (65 ≤ Ascii.nat_of_ascii c)) eqn:E1; [| reflexivity].
  destruct (bool_decide (Ascii.nat_of_ascii c ≤ 90)) eqn:E2; [| reflexivity].
  exfalso. apply bool_decide_eq_true in E1, E2.
  apply orb_true_iff in H as [H | H]; apply andb_true_iff in H as [H1 H2];
    apply bool_decide_eq_true in H1, H2; lia.
Qed.

Lemma isSpace_slug c : isSlugChar c = true ∨ c = hyphen → isSpace c = false.
Proof.
  intros [H | ->]; [| reflexivity].
  unfold isSpace, isSlugChar in *.
  apply orb_true_iff in H as [H | H]; apply andb_true_iff in H as [H1 H2];
    apply bool_decide_eq_true in H1, H2;
    rewrite bool_decide_eq_false_2 by lia;
    rewrite (bool_decide_eq_false_2 (Ascii.nat_of_ascii c ≤ 13)) by lia;
    rewrite andb_false_r; reflexivity.
Qed.

Lemma toLowerCase_fixed s :
  Forall (λ c, isSlugChar c = true ∨ c = hyphen) (chars s) → toLowerCase s = s.
Proof.
  induction s as [|c s IH]; simpl; [reflexivity |].
  intros H. apply Forall_cons in H as [Hc H].
  rewrite (toLowerChar_fixed c Hc), (IH H). reflexivity.
Qed.

Lemma trimEnd_fixed s :
  Forall (λ c, isSlugChar c = true ∨ c = hyphen) (chars s) → trimEnd s = s.
Proof.
  induction s as [|c s IH]; simpl; [reflexivity |].
  intros H. apply Forall_cons in H as [Hc H]. rewrite (IH H).
  destruct s; [rewrite (isSpace_slug c Hc) |]; reflexivity.
Qed.

Lemma trim_fixed s :
  Forall (λ c, isSlugChar c = true ∨ c = hyphen) (chars s) → trim s = s.
Proof.
  intros H. unfold trim.
  assert (trimStart s = s) as ->; [| apply trimEnd_fixed, H].
  destruct s as [|c s]; [reflexivity |]. simpl.
  apply Forall_cons in H as [Hc _]. rewrite (isSpace_slug c Hc). reflexivity.
Qed.

Lemma replaceRuns_fixed b s : hyphenated b s → replaceRuns b s = s.
Proof.
  revert b. induction s as [|c s IH]; intros b; simpl; [reflexivity |].
  destruct (isSlugChar c).
  - intros H. rewrite (IH false H). reflexivity.
  - intros (-> & -> & H). rewrite (IH true H). reflexivity.
Qed.

Lemma stripLeadingHyphen_fixed s : hyphenated true s → stripLeadingHyphen s = s.
Proof.
  destruct s as [|c s]; simpl; [reflexivity |].
  destruct (decide (c = hyphen)) as [-> | Hc]; [| reflexivity].
  rewrite ?hyphen_not_slug. intros (_ & H & _). discriminate.
Qed.

Lemma stripTrailingHyphen_fixed s :
  lastChar s ≠ Some hyphen → stripTrailingHyphen s = s.
Proof.
  induction s as [|c s IH]; [reflexivity |].
  destruct s as [|d s].
  - simpl. destruct (decide (c = hyphen)) as [-> | Hc]; [| reflexivity].
    intros H. exfalso. apply H. reflexivity.
  - remember (String d s) as r eqn:Er. intros H.
    change (stripTrailingHyphen (String c r)) with
      (match r with
       | EmptyString => if decide (c = hyphen) then EmptyString else String c r
       | _ => String c (stripTrailingHyphen r)
       end).
    rewrite Er. rewrite <- Er. rewrite IH; [reflexivity |].
    simpl in H. destruct (lastChar r) as [e|] eqn:El; [exact H |].
    subst r. simpl in El. destruct (lastChar s); discriminate.
Qed.

(** X16.  [slugify] gives a string of characters of [[a-z0-9]] and
    hyphens that neither starts nor ends with a hyphen and holds no two
    hyphens in a row; a slug is its own slug. *)
Theorem slugify_slug (input : string) :
  Forall (λ c, isSlugChar c = true ∨ c = hyphen) (chars (slugify input))
  ∧ (∀ rest, slugify input ≠ "-" +:+ rest)
  ∧ (∀ front, slugify input ≠ front +:+ "-")
  ∧ (∀ front rest, slugify input ≠ front +:+ "--" +:+ rest)
  ∧ slugify (slugify input) = slugify input.
Proof.
  destruct (slugify_hyphenated input) as [Hh Hlast].
  pose proof (hyphenated_chars _ _ Hh) as Hchars.
  split; [exact Hchars |]. split; [| split; [| split]].
  - intros rest E. rewrite E in Hh. exact (hyphenated_no_leading _ Hh).
  - intros front E. apply Hlast. rewrite E. rewrite lastChar_app by discriminate.
    reflexivity.
  - intros front rest E. rewrite E in Hh. exact (hyphenated_no_double _ _ _ Hh).
  - unfold slugify at 1.
    rewrite (toLowerCase_fixed _ Hchars), (trim_fixed _ Hchars).
    rewrite (replaceRuns_fixed false) by (apply hyphenated_weaken, Hh).
    rewrite (stripLeadingHyphen_fixed _ Hh).
    apply stripTrailingHyphen_fixed, Hlast.
Qed.

(** ** Unique matrix ids *)

Lemma existsb_m_id (stored : list matrix) (id : string) :
  existsb (λ m, bool_decide (m_id m = id)) stored = bool_decide (id ∈ m_id <$> stored).
Proof.
  induction stored as [|m stored IH]; [reflexivity |]. csimpl. rewrite IH.
  destruct (decide (m_id m = id)) as [E | E].
  - rewrite (bool_decide_eq_true_2 _ E). simpl. symmetry.
    apply bool_decide_eq_true_2. rewrite E. apply list_elem_of_here.
  - rewrite (bool_decide_eq_false_2 _ E). simpl.
    apply bool_decide_ext. rewrite elem_of_cons. split; [tauto |].
    intros [H | H]; [congruence | exact H].
Qed.

Lemma candidateId_inj baseId : Inj (=) (=) (candidateId baseId).
Proof.
  assert (Hlen : ∀ k, baseId ≠ baseId +:+ "-" +:+ pretty (S (S k))).
  { intros k E. apply (f_equal String.length) in E.
    rewrite string_length_app in E. rewrite string_app_cons in E. simpl in E. lia. }
  intros [|j] [|k] E; simpl in E.
  - reflexivity.
  - exfalso. exact (Hlen _ E).
  - exfalso. symmetry in E. exact (Hlen _ E).
  - apply (inj (String.app baseId)) in E.
    apply (inj (String.app "-")) in E.
    apply (inj pretty) in E. congruence.
Qed.

Lemma makeUniqueMatrixId_loop_spec (fuel : nat) (baseId : string)
    (stored : list matrix) (k : nat) :
  k + fuel = length stored →
  (∀ j, j < k → candidateId baseId j ∈ m_id <$> stored) →
  ∃ k', makeUniqueMatrixId_loop fuel baseId stored (candidateId baseId k) (S (S k))
        = Some (candidateId baseId k')
        ∧ k ≤ k' ≤ length stored
        ∧ (candidateId baseId k' ∉ m_id <$> stored)
        ∧ ∀ j, j < k' → candidateId baseId j ∈ m_id <$> stored.
Proof.
  revert k. induction fuel as [|fuel IH]; intros k Hk Htaken.
  - simpl. rewrite existsb_m_id.
    destruct (decide (candidateId baseId k ∈ m_id <$> stored)) as [Hin | Hnin].
    + exfalso.
      assert (length (candidateId baseId <$> seq 0 (S k)) ≤ length (m_id <$> stored))
        as Hle.
      { pose proof (candidateId_inj baseId) as Hinj.
        apply submseteq_length, NoDup_submseteq.
        - apply (NoDup_fmap_2 _), NoDup_seq.
        - intros x Hx. apply list_elem_of_fmap in Hx as (j & -> & Hj).
          apply elem_of_seq in Hj.
          destruct (decide (j = k)) as [-> | Hne]; [exact Hin |].
          apply Htaken. lia. }
      rewrite !length_fmap, length_seq in Hle. lia.
    + rewrite (bool_decide_eq_false_2 _ Hnin). exists k.
      split; [reflexivity |]. split; [lia |]. split; assumption.
  - simpl. rewrite existsb_m_id.
    destruct (decide (candidateId baseId k ∈ m_id <$> stored)) as [Hin | Hnin].
    + rewrite (bool_decide_eq_true_2 _ Hin).
      destruct (IH (S k)) as (k' & Hrun & Hrange & Hfree & Hbelow).
      * lia.
      * intros j Hj. destruct (decide (j = k)) as [-> | Hne]; [exact Hin |].
        apply Htaken. lia.
      * exists k'. split; [exact Hrun |]. split; [lia |]. split; assumption.
    + rewrite (bool_decide_eq_false_2 _ Hnin). exists k.
      split; [reflexivity |]. split; [lia |]. split; assumption.
Qed.

Lemma makeUniqueMatrixId_candidate (baseId : string) (stored : list matrix) :
  ∃ k, makeUniqueMatrixId baseId stored = Some (candidateId baseId k)
       ∧ k ≤ length stored
       ∧ (candidateId baseId k ∉ m_id <$> stored)
       ∧ (∀ j, j < k → candidateId baseId j ∈ m_id <$> stored).
Proof.
  destruct (makeUniqueMatrixId_loop_spec (length stored) baseId stored 0)
    as (k & Hrun & Hrange & Hfree & Hbelow); [reflexivity | intros j Hj; lia |].
  exists k. split; [exact Hrun |]. split; [lia |]. split; assumption.
Qed.

(** X17.  The loop of [makeUniqueMatrixId] ends after at most as many
    rounds as the list has matrices, and returns the first candidate of
    the sequence [baseId], [baseId-2], [baseId-3], ... that is the id of
    no matrix of the list: every earlier candidate is taken, and [baseId]
    itself is returned when it is free. *)
Theorem makeUniqueMatrixId_fresh (baseId : string) (stored : list matrix) :
  ∃ k, makeUniqueMatrixId baseId stored = Some (candidateId baseId k)
       ∧ k ≤ length stored
       ∧ (candidateId baseId k ∉ m_id <$> stored)
       ∧ (∀ j, j < k → candidateId baseId j ∈ m_id <$> stored)
       ∧ (baseId ∉ m_id <$> stored → k = 0).
Proof.
  destruct (makeUniqueMatrixId_candidate baseId stored)
    as (k & Hrun & Hrange & Hfree & Hbelow).
  exists k. split; [exact Hrun |]. split; [exact Hrange |]. split; [exact Hfree |].
  split; [exact Hbelow |].
  intros Hbase. destruct k as [|k]; [reflexivity |].
  exfalso. apply Hbase. apply (Hbelow 0). lia.
Qed.

(** ** The selection state in a session *)

Lemma dedupeSeen_elem seen l x :
  x ∈ dedupeSeen seen l ↔ x ∈ l ∧ x ≠ "none" ∧ x ∉ seen.
Proof.
  revert seen. induction l as [|a l IH]; intros seen; simpl.
  - rewrite !elem_of_nil. tauto.
  - destruct (decide (a = "none")) as [-> | Hn].
    { rewrite IH, elem_of_cons. split; [tauto |].
      intros ([-> | H] & Hx & Hs); [contradiction | tauto]. }
    destruct (decide (a ∈ seen)) as [Hs | Hs].
    { rewrite IH, elem_of_cons. split; [tauto |].
      intros ([-> | H] & Hx & Hs'); [contradiction | tauto]. }
    rewrite !elem_of_cons, IH, jsset_add_elem.
    destruct (decide (x = a)) as [-> | Hne]; [tauto |]. tauto.
Qed.

Lemma dedupeSeen_NoDup seen l : NoDup (dedupeSeen seen l).
Proof.
  revert seen. induction l as [|a l IH]; intros seen; simpl; [constructor |].
  destruct (decide (a = "none")); [apply IH |].
  destruct (decide (a ∈ seen)); [apply IH |].
  constructor; [| apply IH].
  rewrite dedupeSeen_elem, jsset_add_elem. tauto.
Qed.

Lemma pinned_or_candidate (ms : list matrix) (id : string) :
  NoDup (m_id <$> ms) →
  id ∈ m_id <$> filter (λ m, m_pinned m) ms →
  id ∈ m_id <$> filter (λ m, negb (m_pinned m)) ms → False.
Proof.
  intros Hnd Hp Hc.
  apply list_elem_of_fmap in Hp as (p & -> & Hp).
  apply list_elem_of_fmap in Hc as (c & E & Hc).
  apply list_elem_of_filter in Hp as [Hp1 Hp2].
  apply list_elem_of_filter in Hc as [Hc1 Hc2].
  assert (p = c) as -> by (apply (NoDup_fmap_inj_on m_id ms); assumption).
  destruct (m_pinned c); [exact Hc1 | exact Hp1].
Qed.

Lemma filter_ne_NoDup (l : list string) x : NoDup l → NoDup (filter (λ y, y ≠ x) l).
Proof. apply NoDup_filter. Qed.

Lemma NoDup_snoc_fresh (l : list string) x : NoDup l → x ∉ l → NoDup (l ++ [x]).
Proof.
  intros Hnd Hx. apply NoDup_app. split; [exact Hnd |]. split; [| apply NoDup_singleton].
  intros y Hy Hy'. apply list_elem_of_singleton in Hy'. subst. contradiction.
Qed.

Lemma NoDup_move_last (l : list string) x :
  NoDup l → NoDup (filter (λ y, y ≠ x) l ++ [x]).
Proof.
  intros Hnd. apply NoDup_snoc_fresh; [apply NoDup_filter, Hnd |].
  rewrite list_elem_of_filter. intros [H _]. apply H. reflexivity.
Qed.

(** The invariant on the four components of the selection state. *)
Lemma selectionInv_init : selectionInv initialApp.
Proof.
  unfold selectionInv, pinnedMatrices, focusCandidates. simpl.
  split; [compute_done |]. split; [compute_done |]. split; [compute_done |].
  split; [| split; [| split]].
  - intros id Hid. split; [| exact Hid]. revert id Hid. apply Forall_forall. compute_done.
  - intros H. exfalso. apply H. reflexivity.
  - compute_done.
  - auto.
Qed.

Lemma pinned_sub (ms : list matrix) (x id : string) :
  id ∈ m_id <$> filter (λ m, m_pinned m) (filter (λ m, m_id m ≠ x) ms) ↔
  id ∈ m_id <$> filter (λ m, m_pinned m) ms ∧ id ≠ x.
Proof.
  rewrite !list_elem_of_fmap. split.
  - intros (m & -> & Hm). apply list_elem_of_filter in Hm as [Hp Hm].
    apply list_elem_of_filter in Hm as [Hx Hm].
    split; [| exact Hx]. exists m. split; [reflexivity |].
    apply list_elem_of_filter. split; assumption.
  - intros [(m & -> & Hm) Hx]. apply list_elem_of_filter in Hm as [Hp Hm].
    exists m. split; [reflexivity |]. apply list_elem_of_filter. split; [exact Hp |].
    apply list_elem_of_filter. split; assumption.
Qed.

(** Removing the focus matrix, as the merge and the delete do. *)
Lemma selectionInv_remove_focus (s s' : app) :
  selectionInv s →
  focusMatrixId s ≠ "none" →
  matrices s' = filter (λ m, m_id m ≠ focusMatrixId s) (matrices s) →
  activePinnedIds s' = activePinnedIds s →
  focusMatrixId s' = "none" →
  viewOrderIds s' = filter (λ id, id ≠ focusMatrixId s) (viewOrderIds s) →
  selectionInv s'.
Proof.
  intros (Hview & Hids & Hact & Hpin & Hfocus & Hnone & Hdef) Hf Em Ea Ef Ev.
  destruct (Hfocus Hf) as [Hcand _].
  assert (Hne : ∀ id, id ∈ m_id <$> pinnedMatrices s → id ≠ focusMatrixId s).
  { intros id Hid ->. exact (pinned_or_candidate _ _ Hids Hid Hcand). }
  unfold selectionInv, pinnedMatrices, focusCandidates. rewrite Em, Ea, Ef, Ev.
  split; [apply NoDup_filter, Hview |].
  split; [eapply sublist_NoDup; [exact Hids | apply fmap_sublist, sublist_filter] |].
  split; [exact Hact |]. split; [| split; [| split]].
  - intros id Hid. destruct (Hpin id Hid) as [Hp Hv].
    split; [apply pinned_sub; split; [exact Hp | apply Hne, Hp] |].
    apply list_elem_of_filter. split; [apply Hne, Hp | exact Hv].
  - intros H. exfalso. apply H. reflexivity.
  - intros H. apply pinned_sub in H as [H _]. exact (Hnone H).
  - intros d Hd. apply list_elem_of_filter. split; [| apply Hdef, Hd].
    apply Hne. apply list_elem_of_fmap_2, list_elem_of_filter.
    split; [| apply Hdef, Hd].
    rewrite (proj1 (Forall_forall _ _) defaults_pinned d Hd). exact I.
Qed.

Lemma focusMatrix_Some s fm :
  focusMatrix s = Some fm →
  m_id fm = focusMatrixId s ∧ focusMatrixId s ≠ "none".
Proof.
  unfold focusMatrix. destruct (decide (focusMatrixId s = "none")); [discriminate |].
  intros H. apply find_some in H as [_ H]. apply bool_decide_eq_true in H.
  split; assumption.
Qed.

Lemma selectionInv_merge s destId :
  selectionInv s → selectionInv (perform (MergeFocus destId) s).
Proof.
  intros Hinv. simpl. destruct (focusMatrix s) as [fm|] eqn:Efm; [| exact Hinv].
  apply focusMatrix_Some in Efm as [-> Hf].
  unfold mergeMatrixInto.
  destruct (negb (truthy (focusMatrixId s)) || bool_decide (focusMatrixId s = "none"));
    [exact Hinv |].
  destruct (negb (truthy destId) || bool_decide (focusMatrixId s = destId));
    [exact Hinv |].
  apply (selectionInv_remove_focus s); try assumption; reflexivity.
Qed.

Lemma selectionInv_delete s nowIso :
  selectionInv s → selectionInv (perform (DeleteFocus nowIso) s).
Proof.
  intros Hinv. simpl. destruct (focusMatrix s) as [fm|] eqn:Efm; [| exact Hinv].
  apply focusMatrix_Some in Efm as [-> Hf].
  unfold deleteMatrixArchiveTasks.
  destruct (negb (truthy (focusMatrixId s)) || bool_decide (focusMatrixId s = "none"));
    [exact Hinv |].
  apply (selectionInv_remove_focus s); try assumption; reflexivity.
Qed.

Lemma selectionInv_toggle s id :
  selectionInv s → id ∈ m_id <$> pinnedMatrices s →
  selectionInv (togglePinned id s).
Proof.
  intros (Hview & Hids & Hact & Hpin & Hfocus & Hnone & Hdef) Hid.
  assert (Hfid : focusMatrixId s ≠ "none" → focusMatrixId s ≠ id).
  { intros Hf E. destruct (Hfocus Hf) as [Hc _]. rewrite E in Hc.
    exact (pinned_or_candidate _ _ Hids Hid Hc). }
  unfold togglePinned, includes.
  destruct (decide (id ∈ activePinnedIds s)) as [Hin | Hnin].
  - rewrite (bool_decide_eq_true_2 _ Hin). simpl.
    unfold selectionInv, pinnedMatrices, focusCandidates. app_simpl.
    split; [apply NoDup_filter, Hview |]. split; [exact Hids |].
    split; [apply NoDup_filter, Hact |]. split; [| split; [| split; assumption]].
    + intros x Hx. apply list_elem_of_filter in Hx as [Hxid Hx].
      destruct (Hpin x Hx) as [Hp Hv]. split; [exact Hp |].
      apply list_elem_of_filter. split; assumption.
    + intros Hf. destruct (Hfocus Hf) as [Hc Hv]. split; [exact Hc |].
      apply list_elem_of_filter. split; [apply Hfid, Hf | exact Hv].
  - rewrite (bool_decide_eq_false_2 _ Hnin). simpl.
    unfold selectionInv, pinnedMatrices, focusCandidates. app_simpl.
    split; [apply NoDup_move_last, Hview |]. split; [exact Hids |].
    split; [apply NoDup_snoc_fresh; assumption |].
    split; [| split; [| split; assumption]].
    + intros x Hx. apply elem_of_app in Hx as [Hx | Hx].
      * destruct (Hpin x Hx) as [Hp Hv]. split; [exact Hp |].
        apply elem_of_app. left. apply list_elem_of_filter. split; [| exact Hv].
        intros ->. contradiction.
      * apply list_elem_of_singleton in Hx as ->. split; [exact Hid |].
        apply elem_of_app. right. apply list_elem_of_here.
    + intros Hf. destruct (Hfocus Hf) as [Hc Hv]. split; [exact Hc |].
      apply elem_of_app. left. apply list_elem_of_filter.
      split; [apply Hfid, Hf | exact Hv].
Qed.

Lemma selectionInv_changeFocus s next :
  selectionInv s → next = "none" ∨ next ∈ m_id <$> focusCandidates s →
  selectionInv (changeFocus next s).
Proof.
  intros (Hview & Hids & Hact & Hpin & Hfocus & Hnone & Hdef) Hnext.
  set (prevFocus := focusMatrixId s).
  assert (Hkeep : ∀ x, x ∈ activePinnedIds s →
                       x ∈ viewOrderIds s ∧ x ≠ prevFocus ∧ x ≠ "none").
  { intros x Hx. destruct (Hpin x Hx) as [Hp Hv]. split; [exact Hv |].
    assert (x ≠ "none") as Hxn by (intros ->; exact (Hnone Hp)).
    split; [| exact Hxn]. intros ->.
    destruct (Hfocus Hxn) as [Hc _]. exact (pinned_or_candidate _ _ Hids Hp Hc). }
  assert (Hgoal : ∀ view',
            NoDup view' →
            (∀ x, x ∈ activePinnedIds s → x ∈ view') →
            (next ≠ "none" → next ∈ view') →
            selectionInv
              (if decide (next ≠ "none")
               then setLastSelectedMatrixId next
                      (setViewOrderIds view' (setFocusMatrixId next s))
               else setViewOrderIds view' (setFocusMatrixId next s))).
  { intros view' H1 H2 H3.
    assert (selectionInv (setViewOrderIds view' (setFocusMatrixId next s))) as Hi.
    { unfold selectionInv, pinnedMatrices, focusCandidates. app_simpl.
      split; [exact H1 |]. split; [exact Hids |]. split; [exact Hact |].
      split; [| split; [| split; assumption]].
      - intros x Hx. split; [apply Hpin, Hx | apply H2, Hx].
      - intros Hn. split; [| apply H3, Hn].
        destruct Hnext as [-> | Hc]; [contradiction | exact Hc]. }
    destruct (decide (next ≠ "none")); exact Hi. }
  unfold changeFocus. fold prevFocus. apply Hgoal; unfold focusViewOrder.
  - destruct (decide (next = "none")); [apply NoDup_filter, Hview |].
    destruct (if decide (prevFocus ≠ "none") then _ else _) as [i|].
    + apply dedupeSeen_NoDup.
    + unfold includes.
      destruct (bool_decide _) eqn:E; [apply NoDup_filter, Hview |].
      apply bool_decide_eq_false in E.
      apply NoDup_snoc_fresh; [apply NoDup_filter, Hview | exact E].
  - intros x Hx. destruct (Hkeep x Hx) as (Hv & Hp & Hn).
    assert (x ∈ filter (λ id, id ≠ prevFocus) (viewOrderIds s)) as Hin.
    { apply list_elem_of_filter. split; assumption. }
    destruct (decide (next = "none")); [exact Hin |].
    destruct (if decide (prevFocus ≠ "none") then _ else _) as [i|] eqn:Ei.
    + apply dedupeSeen_elem. split; [| split; [exact Hn | apply not_elem_of_nil]].
      destruct (decide (prevFocus ≠ "none")); [| discriminate].
      apply indexOf_Some in Ei.
      apply list_elem_of_lookup_1 in Hv as [j Hj].
      apply (list_elem_of_lookup_2 _ j). rewrite list_lookup_insert_ne; [exact Hj |].
      intros ->. rewrite Ei in Hj. congruence.
    + unfold includes. destruct (bool_decide _); [exact Hin |].
      apply elem_of_app. left. exact Hin.
  - intros Hn. rewrite decide_False by exact Hn.
    destruct (if decide (prevFocus ≠ "none") then _ else _) as [i|] eqn:Ei.
    + apply dedupeSeen_elem. split; [| split; [exact Hn | apply not_elem_of_nil]].
      destruct (decide (prevFocus ≠ "none")); [| discriminate].
      apply indexOf_Some in Ei. apply (list_elem_of_lookup_2 _ i).
      apply list_lookup_insert_eq. eapply lookup_lt_Some, Ei.
    + unfold includes. destruct (bool_decide _) eqn:E.
      * apply bool_decide_eq_true in E. exact E.
      * apply elem_of_app. right. apply list_elem_of_here.
Qed.

Lemma selectionInv_addMatrix s newMatrixName :
  selectionInv s → selectionInv (addMatrix newMatrixName s).2.
Proof.
  intros Hinv. unfold addMatrix.
  destruct (negb (truthy (trim newMatrixName))); [exact Hinv |].
  destruct (negb (truthy (slugify (trim newMatrixName)))); [exact Hinv |].
  destruct (makeUniqueMatrixId_candidate (slugify (trim newMatrixName)) (matrices s))
    as (k & -> & _ & Hfresh & _).
  set (uid := candidateId _ k) in *. simpl.
  destruct Hinv as (Hview & Hids & Hact & Hpin & Hfocus & Hnone & Hdef).
  assert (Hpinned : filter (λ m, m_pinned m)
                      (matrices s ++ [mkMatrix uid (trim newMatrixName) false])
                    = filter (λ m, m_pinned m) (matrices s)).
  { rewrite filter_app, filter_cons_False by (simpl; exact id).
    rewrite filter_nil, app_nil_r. reflexivity. }
  unfold selectionInv, pinnedMatrices, focusCandidates. app_simpl. rewrite Hpinned.
  split; [apply NoDup_move_last, Hview |].
  split; [rewrite fmap_app; apply NoDup_snoc_fresh; assumption |].
  split; [exact Hact |]. split; [| split; [| split; [exact Hnone |]]].
  - intros x Hx. destruct (Hpin x Hx) as [Hp Hv]. split; [exact Hp |].
    apply elem_of_app. left. apply list_elem_of_filter. split; [| exact Hv].
    intros ->. apply Hfresh.
    apply list_elem_of_fmap in Hp as (m & -> & Hm).
    apply list_elem_of_filter in Hm as [_ Hm]. apply list_elem_of_fmap_2, Hm.
  - intros _. split.
    + rewrite filter_app, fmap_app. apply elem_of_app. right.
      rewrite filter_cons_True by exact I. apply list_elem_of_here.
    + apply elem_of_app. right. apply list_elem_of_here.
  - intros d Hd. apply elem_of_app. left. apply Hdef, Hd.
Qed.

(** A matrix of the normalised list is a default or a stored one. *)
Lemma normalized_origin (stored : list matrix) (m : matrix) :
  m ∈ ensureDefaultPinnedMatrices stored → m ∈ DEFAULT_MATRICES ∨ m ∈ stored.
Proof.
  unfold ensureDefaultPinnedMatrices. fold (normalizedById stored).
  destruct (normalizedById_wf stored) as [Hnd Hid].
  rewrite (values_elem _ _ Hnd Hid). intros Hget.
  destruct (decide (m_id m ∈ defaultIds)) as [Hdef | Hdef].
  - left. apply list_elem_of_fmap in Hdef as (d & E & Hd).
    pose proof (normalizedById_default stored d Hd) as Hd'.
    rewrite <- E, Hget in Hd'. injection Hd' as ->. exact Hd.
  - right. unfold normalizedById in Hget.
    rewrite ensureDefaults_get_other in Hget by exact Hdef.
    rewrite get_ofEntries_last in Hget.
    assert (m ∈ filter (λ x, m_id x = m_id m) stored) as Hin.
    { destruct (filter _ stored) as [|x r] using rev_ind; [discriminate |].
      rewrite last_snoc in Hget. injection Hget as ->.
      apply elem_of_app. right. apply list_elem_of_here. }
    apply list_elem_of_filter in Hin as [_ Hin]. exact Hin.
Qed.

Lemma selectionInv_normalized (stored : list matrix) (s' : app) :
  (∀ m, m ∈ stored → m_id m = "none" → m_pinned m = false) →
  matrices s' = ensureDefaultPinnedMatrices stored →
  activePinnedIds s' = m_id <$> filter (λ m, m_pinned m) (matrices s') →
  viewOrderIds s' = m_id <$> filter (λ m, m_pinned m) (matrices s') →
  focusMatrixId s' = "none" →
  selectionInv s'.
Proof.
  intros Hres Em Ea Ev Ef.
  assert (Hids : NoDup (m_id <$> matrices s')).
  { rewrite Em. unfold ensureDefaultPinnedMatrices. fold (normalizedById stored).
    destruct (normalizedById_wf stored) as [Hnd Hid].
    rewrite (values_ids _ Hid). exact Hnd. }
  assert (Hpinned : NoDup (m_id <$> filter (λ m, m_pinned m) (matrices s'))).
  { eapply sublist_NoDup; [exact Hids | apply fmap_sublist, sublist_filter]. }
  unfold selectionInv, pinnedMatrices, focusCandidates. rewrite Ea, Ev, Ef.
  split; [exact Hpinned |]. split; [exact Hids |]. split; [exact Hpinned |].
  split; [| split; [| split]].
  - intros id Hid. split; exact Hid.
  - intros H. exfalso. apply H. reflexivity.
  - intros Hin. apply list_elem_of_fmap in Hin as (m & E & Hm).
    apply list_elem_of_filter in Hm as [Hp Hm]. rewrite Em in Hm.
    apply normalized_origin in Hm as [Hm | Hm].
    + revert m Hm E Hp.
      apply (proj1 (Forall_forall (λ m, "none" = m_id m → m_pinned m → False) _)).
      repeat constructor; discriminate.
    + rewrite (Hres m Hm (eq_sym E)) in Hp. exact Hp.
  - intros d Hd. rewrite Em.
    unfold ensureDefaultPinnedMatrices. fold (normalizedById stored).
    destruct (normalizedById_wf stored) as [Hnd Hid].
    apply (values_elem _ _ Hnd Hid), normalizedById_default, Hd.
Qed.

Lemma selectionInv_ext s s' : selection s' = selection s → selectionInv s → selectionInv s'.
Proof.
  unfold selection. intros [= Em Ea Ef Ev].
  unfold selectionInv, pinnedMatrices, focusCandidates. rewrite Em, Ea, Ef, Ev. exact id.
Qed.

Lemma selectionInv_import s file :
  offered s (ImportFile file) → selectionInv s →
  selectionInv (importDataFromFile file s).
Proof.
  intros Hoff Hinv.
  destruct file as [msg | | [| ms] [| ts]];
    try (apply (selectionInv_ext s); [reflexivity | exact Hinv]).
  apply (selectionInv_normalized ms); try reflexivity. exact Hoff.
Qed.

Lemma selectionInv_load storedMatrices storedTasks :
  (∀ l m, storedMatrices = Parsed l → m ∈ l → m_id m = "none" →
          m_pinned m = false) →
  selectionInv (loadEffect storedMatrices storedTasks initialApp).
Proof.
  intros Hres.
  apply (selectionInv_normalized
           (match storedMatrices with Parsed l => l | _ => DEFAULT_MATRICES end));
    try reflexivity.
  destruct storedMatrices as [| | l].
  - apply (proj1 (Forall_forall (λ m, m_id m = "none" → m_pinned m = false) _)).
    repeat constructor; discriminate.
  - apply (proj1 (Forall_forall (λ m, m_id m = "none" → m_pinned m = false) _)).
    repeat constructor; discriminate.
  - intros m Hm. apply (Hres l m eq_refl Hm).
Qed.

Lemma healFocus_noop s : selectionInv s → healFocus s = s.
Proof.
  intros (_ & _ & _ & _ & Hfocus & _). unfold healFocus.
  destruct (decide (focusMatrixId s = "none")) as [| Hf]; [reflexivity |].
  destruct (Hfocus Hf) as [Hc _]. rewrite existsb_m_id.
  rewrite bool_decide_eq_true_2; [reflexivity |].
  apply list_elem_of_fmap in Hc as (m & -> & Hm).
  apply list_elem_of_filter in Hm as [_ Hm]. apply list_elem_of_fmap_2, Hm.
Qed.

Lemma perform_selectionInv s a :
  selectionInv s → offered s a → selectionInv (perform a s).
Proof.
  intros Hinv Hoff. destruct a; simpl in *.
  - apply selectionInv_toggle; assumption.
  - apply selectionInv_changeFocus; assumption.
  - apply selectionInv_addMatrix, Hinv.
  - apply (selectionInv_merge s destId Hinv).
  - apply (selectionInv_delete s nowIso Hinv).
  - exact Hinv.
  - exact Hinv.
  - exact Hinv.
  - apply (selectionInv_ext s); [| exact Hinv].
    unfold addTask. destruct (negb _); reflexivity.
  - exact Hinv.
  - exact Hinv.
  - exact Hinv.
  - apply (selectionInv_ext s); [| exact Hinv].
    unfold deleteTask. destruct (decide _); reflexivity.
  - exact Hinv.
  - exact Hinv.
  - exact Hinv.
  - apply (selectionInv_ext s); [| exact Hinv].
    unfold commitEdit. destruct (editingTaskId s); [| reflexivity].
    destruct (negb _); reflexivity.
  - exact Hinv.
  - apply (selectionInv_ext s); [| exact Hinv].
    unfold handleDragEnd. repeat case_match; reflexivity.
  - apply selectionInv_import; assumption.
  - rewrite healFocus_noop; assumption.
  - apply (selectionInv_ext s); [| exact Hinv].
    unfold alignNewTask. repeat case_match; reflexivity.
Qed.

Lemma reachable_selectionInv s : reachable s → selectionInv s.
Proof.
  induction 1 as [| sm st Hres | s a _ IH Hoff].
  - apply selectionInv_init.
  - apply selectionInv_load, Hres.
  - apply perform_selectionInv; assumption.
Qed.

Lemma selected_under_inv s :
  selectionInv s →
  selectedMatrixIds s
  = filter (λ id, isActive (activePinnedIds s) (focusMatrixId s) id) (viewOrderIds s).
Proof.
  intros (Hview & Hids & Hact & Hpin & Hfocus & Hnone & Hdef).
  unfold selectedMatrixIds. rewrite computeSelectedMatrixIds_spec.
  unfold selectedMatrixIdsSpec.
  assert (Hactive : ∀ id, isActive (activePinnedIds s) (focusMatrixId s) id →
                          isValid (matrices s) id ∧ id ∈ viewOrderIds s).
  { intros id [Hin | [Hf ->]].
    - destruct (Hpin id Hin) as [Hp Hv]. split; [| exact Hv].
      apply list_elem_of_fmap in Hp as (m & -> & Hm).
      apply list_elem_of_filter in Hm as [_ Hm]. apply list_elem_of_fmap_2, Hm.
    - destruct (Hfocus Hf) as [Hc Hv]. split; [| exact Hv].
      apply list_elem_of_fmap in Hc as (m & -> & Hm).
      apply list_elem_of_filter in Hm as [_ Hm]. apply list_elem_of_fmap_2, Hm. }
  set (kept := filter (λ id, isValid (matrices s) id
                            ∧ isActive (activePinnedIds s) (focusMatrixId s) id)
                     (viewOrderIds s)).
  assert (Hkept : kept = filter (λ id, isActive (activePinnedIds s) (focusMatrixId s) id)
                                (viewOrderIds s)).
  { apply list_filter_iff. intros id. split; [tauto |].
    intros Ha. split; [apply Hactive, Ha | exact Ha]. }
  assert (Hrest : filter (λ id, isValid (matrices s) id ∧ id ∉ kept)
                         (activeIds (activePinnedIds s) (focusMatrixId s)) = []).
  { apply filter_none. intros id Hin [_ Hnot]. apply Hnot.
    apply activeIds_elem in Hin. rewrite Hkept.
    apply list_elem_of_filter. split; [exact Hin | apply Hactive, Hin]. }
  rewrite Hrest, app_nil_r. exact Hkept.
Qed.

Lemma sessionRun_reachable : reachable sessionRun.
Proof.
  unfold sessionRun. apply reachable_step; [apply reachable_step |].
  - apply reachable_init.
  - exact I.
  - compute_done.
Qed.

(** X18.  In every state of a session (the first render, the load of
    stored data, and any sequence of offered actions, where stored and
    imported matrices hold no pinned matrix with the id ["none"]),
    [viewOrderIds] has no repeats and the selection is [viewOrderIds]
    filtered to the active ids, nothing being appended: it has no
    repeats and holds every active pinned id, and the focus when there
    is one.  The effect that drops the focus of a vanished matrix never
    changes such a state. *)
Theorem reachable_selection (s : app) :
  reachable s →
  NoDup (viewOrderIds s)
  ∧ selectedMatrixIds s
    = filter (λ id, isActive (activePinnedIds s) (focusMatrixId s) id)
             (viewOrderIds s)
  ∧ NoDup (selectedMatrixIds s)
  ∧ (∀ id, id ∈ activePinnedIds s → id ∈ selectedMatrixIds s)
  ∧ (focusMatrixId s ≠ "none" → focusMatrixId s ∈ selectedMatrixIds s)
  ∧ healFocus s = s.
Proof.
  intros Hreach. pose proof (reachable_selectionInv s Hreach) as Hinv.
  pose proof (selected_under_inv s Hinv) as Hsel.
  pose proof (healFocus_noop s Hinv) as Hheal.
  destruct Hinv as (Hview & Hids & Hact & Hpin & Hfocus & Hnone & Hdef).
  split; [exact Hview |]. split; [exact Hsel |].
  split; [rewrite Hsel; apply NoDup_filter, Hview |].
  split; [| split].
  - intros id Hid. rewrite Hsel. apply list_elem_of_filter.
    split; [left; exact Hid | apply Hpin, Hid].
  - intros Hf. rewrite Hsel. apply list_elem_of_filter.
    split; [right; split; [exact Hf | reflexivity] | apply Hfocus, Hf].
  - exact Hheal.
Qed.

Lemma reachable_selection_witness :
  selectedMatrixIds sessionRun = [ "work"; "goals"; "today-2-10" ]
  ∧ healFocus sessionRun = sessionRun.
Proof.
  destruct (reachable_selection sessionRun sessionRun_reachable)
    as (_ & Hsel & _ & _ & _ & Hheal).
  split; [| exact Hheal]. rewrite Hsel. vm_compute. reflexivity.
Defined.

(** X19.  In every state of a session the ids of the matrices are
    pairwise distinct, every default matrix is present as it is in
    [DEFAULT_MATRICES], every active id is the id of a pinned matrix,
    the active ids have no repeats, and the focus is ["none"] or the id
    of a matrix that is not pinned. *)
Theorem reachable_matrices (s : app) :
  reachable s →
  NoDup (m_id <$> matrices s)
  ∧ (∀ d, d ∈ DEFAULT_MATRICES → d ∈ matrices s)
  ∧ (∀ id, id ∈ activePinnedIds s → id ∈ m_id <$> pinnedMatrices s)
  ∧ NoDup (activePinnedIds s)
  ∧ (focusMatrixId s = "none" ∨ focusMatrixId s ∈ m_id <$> focusCandidates s).
Proof.
  intros Hreach.
  destruct (reachable_selectionInv s Hreach)
    as (Hview & Hids & Hact & Hpin & Hfocus & Hnone & Hdef).
  split; [exact Hids |]. split; [exact Hdef |]. split; [| split; [exact Hact |]].
  - intros id Hid. apply Hpin, Hid.
  - destruct (decide (focusMatrixId s = "none")) as [E | E]; [left; exact E |].
    right. apply Hfocus, E.
Qed.

Lemma reachable_matrices_witness :
  NoDup (m_id <$> matrices sessionRun) ∧ NoDup (activePinnedIds sessionRun).
Proof.
  destruct (reachable_matrices sessionRun sessionRun_reachable)
    as (Hm & _ & _ & Ha & _).
  split; assumption.
Defined.

(** ** The selection after a toggle, a focus change and a new matrix *)

Lemma active_not_candidate s x :
  selectionInv s → x ∈ activePinnedIds s →
  x ≠ "none" ∧ (x ∉ m_id <$> focusCandidates s) ∧ x ∈ m_id <$> matrices s.
Proof.
  intros (Hview & Hids & Hact & Hpin & Hfocus & Hnone & Hdef) Hx.
  destruct (Hpin x Hx) as [Hp _]. split; [intros ->; exact (Hnone Hp) |].
  split; [intros Hc; exact (pinned_or_candidate _ _ Hids Hp Hc) |].
  apply list_elem_of_fmap in Hp as (m & -> & Hm).
  apply list_elem_of_filter in Hm as [_ Hm]. apply list_elem_of_fmap_2, Hm.
Qed.

(** Without the focus, the selected ids are the active pinned ids in
    view order. *)
Lemma selected_without_focus s :
  selectionInv s →
  filter (λ id, id ≠ focusMatrixId s) (selectedMatrixIds s)
  = filter (λ id, id ∈ activePinnedIds s) (viewOrderIds s).
Proof.
  intros Hinv. rewrite (selected_under_inv s Hinv), list_filter_filter.
  apply list_filter_iff. intros x. unfold isActive. split.
  - intros [Hne [Hin | [_ ->]]]; [exact Hin | contradiction].
  - intros Hin. split; [| left; exact Hin].
    destruct (active_not_candidate s x Hinv Hin) as (Hn & Hc & _).
    intros ->. destruct Hinv as (_ & _ & _ & _ & Hfocus & _).
    apply Hc, Hfocus, Hn.
Qed.

(** X20.  In a state of a session, the toggle button of a pinned matrix
    removes the matrix from the selection when it was active, keeping
    the order of the others, and appends it at the end of the selection
    when it was not. *)
Theorem togglePinned_selection (s : app) (id : string) :
  reachable s → offered s (TogglePinned id) →
  selectedMatrixIds (togglePinned id s)
  = if decide (id ∈ activePinnedIds s)
    then filter (λ x, x ≠ id) (selectedMatrixIds s)
    else selectedMatrixIds s ++ [id].
Proof.
  intros Hreach Hoff. pose proof (reachable_selectionInv s Hreach) as Hinv.
  assert (selectionInv (togglePinned id s)) as Hinv'
    by (apply selectionInv_toggle; assumption).
  rewrite (selected_under_inv _ Hinv'), (selected_under_inv _ Hinv).
  destruct Hinv as (Hview & Hids & Hact & Hpin & Hfocus & Hnone & Hdef).
  assert (Hfid : focusMatrixId s ≠ "none" → focusMatrixId s ≠ id).
  { intros Hf E. destruct (Hfocus Hf) as [Hc _]. rewrite E in Hc.
    exact (pinned_or_candidate _ _ Hids Hoff Hc). }
  unfold togglePinned, includes.
  destruct (decide (id ∈ activePinnedIds s)) as [Hin | Hnin].
  - rewrite (bool_decide_eq_true_2 _ Hin). simpl. app_simpl.
    rewrite !list_filter_filter. apply list_filter_iff. intros x.
    unfold isActive. rewrite list_elem_of_filter. split.
    + intros [[[Hne Hx] | [Hf ->]] Hne']; (split; [assumption |]); tauto.
    + intros [Hne [Hx | [Hf ->]]]; tauto.
  - rewrite (bool_decide_eq_false_2 _ Hnin). simpl. app_simpl.
    rewrite filter_app, filter_cons_True
      by (left; apply elem_of_app; right; apply list_elem_of_here).
    rewrite filter_nil. f_equal.
    rewrite list_filter_filter. apply list_filter_iff. intros x.
    unfold isActive. rewrite elem_of_app, list_elem_of_singleton. split.
    + intros [[[Hx | ->] | [Hf ->]] Hne]; tauto.
    + intros [Hx | [Hf ->]].
      * split; [left; left; exact Hx |]. intros ->. contradiction.
      * split; [right; split; [exact Hf | reflexivity] |]. apply Hfid, Hf.
Qed.

Lemma togglePinned_selection_witness :
  selectedMatrixIds (togglePinned "personal" sessionRun)
  = [ "work"; "goals"; "today-2-10"; "personal" ].
Proof.
  assert (offered sessionRun (TogglePinned "personal")) as Hoff by compute_done.
  rewrite (togglePinned_selection sessionRun "personal" sessionRun_reachable Hoff).
  vm_compute. reflexivity.
Defined.

Lemma filter_insert_irrelevant {A} (P : A → Prop) `{!∀ x, Decision (P x)}
    (l : list A) (i : nat) (a b : A) :
  l !! i = Some a → ¬ P a → ¬ P b → filter P (<[i := b]> l) = filter P l.
Proof.
  revert i. induction l as [|x l IH]; intros i Hi Ha Hb; [done |].
  destruct i as [|i]; simpl in *.
  - injection Hi as ->. rewrite !filter_cons_False by assumption. reflexivity.
  - rewrite !filter_cons. rewrite (IH i Hi Ha Hb). reflexivity.
Qed.

Lemma dedupeSeen_filter (P : string → Prop) `{!∀ x, Decision (P x)}
    (seen l : list string) :
  (∀ x, P x → x ≠ "none") →
  (∀ x, P x → x ∈ l → x ∉ seen) →
  NoDup (filter P l) →
  filter P (dedupeSeen seen l) = filter P l.
Proof.
  intros Hnone. revert seen. induction l as [|a l IH]; intros seen Hseen Hnd;
    [reflexivity |]. simpl.
  assert (Hseen' : ∀ x, P x → x ∈ l → x ∉ seen).
  { intros x Hx Hin. apply Hseen; [exact Hx | apply list_elem_of_further, Hin]. }
  destruct (decide (P a)) as [Ha | Ha].
  - rewrite (filter_cons_True P a l Ha) in Hnd |- *.
    apply NoDup_cons in Hnd as [Hal Hnd].
    rewrite decide_False by (apply Hnone, Ha).
    rewrite decide_False by (apply Hseen; [exact Ha | apply list_elem_of_here]).
    rewrite filter_cons_True by exact Ha. f_equal. apply IH; [| exact Hnd].
    intros x Hx Hin. rewrite jsset_add_elem. intros [-> | Hs].
    + apply Hal. apply list_elem_of_filter. split; assumption.
    + exact (Hseen' x Hx Hin Hs).
  - rewrite (filter_cons_False P a l Ha) in Hnd |- *.
    destruct (decide (a = "none")); [apply IH; assumption |].
    destruct (decide (a ∈ seen)); [apply IH; assumption |].
    rewrite filter_cons_False by exact Ha. apply IH; [| exact Hnd].
    intros x Hx Hin. rewrite jsset_add_elem. intros [-> | Hs]; [contradiction |].
    exact (Hseen' x Hx Hin Hs).
Qed.

(** X21.  In a state of a session, choosing [next] in the focus select
    makes it the focus and, unless it is ["none"], a member of the
    selection; the new selection without [next] is the old selection
    without the old focus, in the same order, and with ["none"] the
    selection is the old one without the old focus. *)
Theorem changeFocus_selection (s : app) (next : string) :
  reachable s → offered s (ChangeFocus next) →
  let s' := changeFocus next s in
  focusMatrixId s' = next
  ∧ (next ≠ "none" → next ∈ selectedMatrixIds s')
  ∧ filter (λ id, id ≠ next) (selectedMatrixIds s')
    = filter (λ id, id ≠ focusMatrixId s) (selectedMatrixIds s)
  ∧ (next = "none" →
     selectedMatrixIds s'
     = filter (λ id, id ≠ focusMatrixId s) (selectedMatrixIds s)).
Proof.
  intros Hreach Hoff s'. pose proof (reachable_selectionInv s Hreach) as Hinv.
  assert (selectionInv s') as Hinv' by (apply selectionInv_changeFocus; assumption).
  assert (Hfocus' : focusMatrixId s' = next).
  { subst s'. unfold changeFocus. destruct (decide (next ≠ "none")); reflexivity. }
  assert (Hactive' : activePinnedIds s' = activePinnedIds s).
  { subst s'. unfold changeFocus. destruct (decide (next ≠ "none")); reflexivity. }
  assert (Hothers : filter (λ id, id ≠ next) (selectedMatrixIds s')
                    = filter (λ id, id ≠ focusMatrixId s) (selectedMatrixIds s)).
  { pose proof (selected_without_focus s' Hinv') as H'.
    rewrite Hfocus', Hactive' in H'. rewrite H', (selected_without_focus s Hinv).
    assert (Hnot : ∀ x, x ∈ activePinnedIds s → x ≠ "none" ∧ x ≠ focusMatrixId s
                        ∧ x ≠ next).
    { intros x Hx. destruct (active_not_candidate s x Hinv Hx) as (Hn & Hc & _).
      split; [exact Hn |]. split.
      - intros ->. destruct Hinv as (_ & _ & _ & _ & Hf & _). apply Hc, Hf, Hn.
      - intros ->. destruct Hoff as [-> | Hin]; [contradiction | exact (Hc Hin)]. }
    assert (viewOrderIds s'
            = focusViewOrder (focusMatrixId s) next (viewOrderIds s)) as ->.
    { subst s'. unfold changeFocus. destruct (decide (next ≠ "none")); reflexivity. }
    unfold focusViewOrder.
    assert (Hfilt : filter (λ id, id ∈ activePinnedIds s)
                      (filter (λ id, id ≠ focusMatrixId s) (viewOrderIds s))
                    = filter (λ id, id ∈ activePinnedIds s) (viewOrderIds s)).
    { rewrite list_filter_filter. apply list_filter_iff. intros x.
      split; [tauto |]. intros Hx. split; [exact Hx | apply Hnot, Hx]. }
    destruct (decide (next = "none")); [exact Hfilt |].
    destruct (if decide (focusMatrixId s ≠ "none") then _ else _) as [i|] eqn:Ei.
    - destruct (decide (focusMatrixId s ≠ "none")); [| discriminate].
      apply indexOf_Some in Ei.
      assert (Hrep : filter (λ id, id ∈ activePinnedIds s)
                       (<[i := next]> (viewOrderIds s))
                     = filter (λ id, id ∈ activePinnedIds s) (viewOrderIds s)).
      { apply (filter_insert_irrelevant _ _ i (focusMatrixId s) next Ei).
        - intros Hx. destruct (Hnot _ Hx) as (_ & H & _). apply H. reflexivity.
        - intros Hx. destruct (Hnot _ Hx) as (_ & _ & H). apply H. reflexivity. }
      rewrite dedupeSeen_filter; [exact Hrep | | |].
      + intros x Hx. apply Hnot, Hx.
      + intros x _ _. apply not_elem_of_nil.
      + rewrite Hrep. apply NoDup_filter. exact (proj1 Hinv).
    - unfold includes. destruct (bool_decide _); [exact Hfilt |].
      rewrite filter_app, Hfilt. rewrite filter_cons_False, filter_nil, app_nil_r.
      + reflexivity.
      + intros Hx. destruct (Hnot _ Hx) as (_ & _ & H). apply H. reflexivity. }
  split; [exact Hfocus' |]. split; [| split; [exact Hothers |]].
  - intros Hn. rewrite (selected_under_inv _ Hinv'). apply list_elem_of_filter.
    rewrite Hfocus'. split; [right; split; [exact Hn | reflexivity] |].
    destruct Hinv' as (_ & _ & _ & _ & Hf & _). rewrite Hfocus' in Hf.
    apply Hf, Hn.
  - intros Hn. rewrite <- Hothers. symmetry. apply filter_all.
    intros x Hx E. rewrite E, Hn in Hx.
    unfold selectedMatrixIds in Hx. apply selected_elem in Hx as [_ [Hx | [Hf _]]].
    + rewrite Hactive' in Hx.
      destruct (active_not_candidate s _ Hinv Hx) as (H & _). apply H. reflexivity.
    + apply Hf. rewrite Hfocus'. exact Hn.
Qed.

Lemma changeFocus_selection_witness :
  selectedMatrixIds (changeFocus "none" sessionRun) = [ "work"; "goals" ].
Proof.
  assert (offered sessionRun (ChangeFocus "none")) as Hoff by (left; reflexivity).
  destruct (changeFocus_selection sessionRun "none" sessionRun_reachable Hoff)
    as (_ & _ & _ & Hnone).
  rewrite (Hnone eq_refl). vm_compute. reflexivity.
Defined.

(** X22.  [addMatrix] in a state of a session, for a name that is ASCII
    text (on which [trim] and [slugify] are those of the code).  A name
    that is blank, or whose slug is empty, changes nothing and stays in
    the input.
    Otherwise the input is cleared and a matrix that is not pinned, with
    the trimmed name, is appended under the first free candidate id of
    its slug, an id that no matrix had; the tasks and the active pinned
    ids are kept; the new matrix becomes the focus, the last selected
    matrix and the matrix of the draft; and the selection is the old one
    without the old focus, followed by the new id (unless that id is
    ["none"]). *)
Theorem addMatrix_effect (newMatrixName : string) (s : app) :
  reachable s → asciiText newMatrixName →
  let name := trim newMatrixName in
  let baseId := slugify name in
  (name = "" ∨ baseId = "" → addMatrix newMatrixName s = (newMatrixName, s))
  ∧ (name ≠ "" → baseId ≠ "" →
     ∃ k, let uid := candidateId baseId k in
          let s' := (addMatrix newMatrixName s).2 in
          (addMatrix newMatrixName s).1 = ""
          ∧ matrices s' = matrices s ++ [mkMatrix uid name false]
          ∧ (uid ∉ m_id <$> matrices s)
          ∧ (∀ j, j < k → candidateId baseId j ∈ m_id <$> matrices s)
          ∧ tasks s' = tasks s
          ∧ activePinnedIds s' = activePinnedIds s
          ∧ focusMatrixId s' = uid
          ∧ lastSelectedMatrixId s' = uid
          ∧ d_matrixId (newTask s') = uid
          ∧ selectedMatrixIds s'
            = filter (λ id, id ≠ focusMatrixId s) (selectedMatrixIds s)
              ++ (if decide (uid = "none") then [] else [uid])).
Proof.
  intros Hreach _ name baseId.
  pose proof (reachable_selectionInv s Hreach) as Hinv.
  split.
  - intros Hguard. unfold addMatrix. fold name. fold baseId. unfold truthy.
    destruct (decide (name = "")) as [E | E].
    + rewrite (bool_decide_eq_false_2 (name ≠ "")) by tauto. reflexivity.
    + rewrite (bool_decide_eq_true_2 _ E). simpl.
      destruct Hguard as [H | H]; [contradiction |].
      rewrite (bool_decide_eq_false_2 (baseId ≠ "")) by tauto. reflexivity.
  - intros Hname Hbase.
    pose proof (selectionInv_addMatrix s newMatrixName Hinv) as Hinv'.
    pose proof (selected_under_inv _ Hinv') as Hsel. revert Hinv' Hsel.
    unfold addMatrix. fold name. fold baseId. unfold truthy.
    rewrite (bool_decide_eq_true_2 _ Hname), (bool_decide_eq_true_2 _ Hbase). simpl.
    destruct (makeUniqueMatrixId_candidate baseId (matrices s))
      as (k & -> & _ & Hfresh & Hbelow).
    intros Hinv' Hsel. exists k. simpl. simpl in Hsel. revert Hsel. app_simpl.
    set (uid := candidateId baseId k) in *. intros Hsel.
    repeat (split; [first [reflexivity | assumption] |]).
    rewrite Hsel, (selected_without_focus s Hinv).
    assert (Hact : ∀ x, x ∈ activePinnedIds s → x ≠ uid).
    { intros x Hx ->. apply Hfresh. apply (active_not_candidate s _ Hinv Hx). }
    rewrite filter_app. f_equal.
    + rewrite list_filter_filter.
      apply list_filter_iff. intros x. unfold isActive. split.
      * intros [[Hx | [_ ->]] Hne]; [exact Hx | contradiction].
      * intros Hx. split; [left; exact Hx | apply Hact, Hx].
    + destruct (decide (uid = "none")) as [E | E].
      * rewrite filter_cons_False; [reflexivity |].
        intros [Hx | [Hn _]]; [exact (Hact _ Hx eq_refl) | contradiction].
      * rewrite filter_cons_True; [reflexivity |]. right. split; [exact E | reflexivity].
Qed.

Lemma addMatrix_effect_witness :
  (addMatrix "Today 2/10" sessionRun).1 = "".
Proof.
  assert (asciiText "Today 2/10") as Hascii by compute_done.
  assert (trim "Today 2/10" ≠ "") as Hname by (vm_compute; discriminate).
  assert (slugify (trim "Today 2/10") ≠ "") as Hslug by (vm_compute; discriminate).
  destruct (proj2 (addMatrix_effect "Today 2/10" sessionRun sessionRun_reachable
                     Hascii)
              Hname Hslug) as (k & Hfirst & _).
  exact Hfirst.
Defined.

(** ** The quadrant view *)

Lemma matrixOrderFrom_lookup (ids : list string) (idx : nat) (m : gmap string nat)
    (k : string) :
  NoDup ids →
  matrixOrderFrom idx ids m !! k
  = match indexOf k ids with Some j => Some (idx + j) | None => m !! k end.
Proof.
  intros Hnd. revert idx m. induction Hnd as [|id ids Hid Hnd IH]; intros idx m.
  - reflexivity.
  - simpl. rewrite IH. destruct (decide (id = k)) as [-> | Hne].
    + apply indexOf_None in Hid. rewrite Hid. simpl.
      rewrite lookup_insert_eq. f_equal. lia.
    + destruct (indexOf k ids) as [j|]; simpl.
      * f_equal. lia.
      * apply lookup_insert_ne, Hne.
Qed.

Lemma matrixOrder_lookup (ids : list string) (k : string) :
  NoDup ids → matrixOrder ids !! k = indexOf k ids.
Proof.
  intros Hnd. unfold matrixOrder. rewrite matrixOrderFrom_lookup by exact Hnd.
  destruct (indexOf k ids); reflexivity.
Qed.

Lemma viewLe_total sel a b : viewLe sel a b ∨ viewLe sel b a.
Proof.
  unfold viewLe. destruct (canonicalLe_total a b);
    destruct (lt_eq_lt_dec (matrixPosition sel a) (matrixPosition sel b))
      as [[? | ?] | ?]; auto.
Qed.

(** An insertion sort with a comparator that decides a total preorder
    on the elements at hand. *)
Section SortOn.
Context {A : Type} (cmp : A → A → Z) (R : relation A) (P : A → Prop).
Context `{!Transitive R}.
Hypothesis cmp_R : ∀ a b, P a → P b → (cmp a b ≤ 0)%Z ↔ R a b.
Hypothesis R_total : ∀ a b, R a b ∨ R b a.

Lemma insertBy_sorted_on x l :
  P x → Forall P l → StronglySorted R l → StronglySorted R (insertBy cmp x l).
Proof.
  intros Hx Hl Hs. induction Hs as [|y r Hr IH Hy]; simpl.
  - repeat constructor.
  - apply Forall_cons in Hl as [Hpy Hl].
    destruct (cmp x y <=? 0)%Z eqn:E.
    + apply Z.leb_le, cmp_R in E; [| assumption..].
      constructor; [constructor; assumption |].
      constructor; [exact E |].
      eapply Forall_impl; [exact Hy |]. intros z Hz. simpl in Hz. etrans; eassumption.
    + apply Z.leb_gt in E.
      assert (R y x) as Hyx.
      { destruct (R_total x y) as [H | H]; [| exact H].
        apply cmp_R in H; [lia | assumption..]. }
      constructor; [apply IH, Hl |].
      eapply Permutation_Forall; [symmetry; apply insertBy_Permutation |].
      constructor; assumption.
Qed.

Lemma sortBy_sorted_on l : Forall P l → StronglySorted R (sortBy cmp l).
Proof.
  induction 1 as [|x l Hx Hl IH]; simpl; [constructor |].
  apply insertBy_sorted_on; [exact Hx | | exact IH].
  eapply Permutation_Forall; [symmetry; apply sortBy_Permutation | exact Hl].
Qed.
End SortOn.

Lemma filter_split_Permutation {A} (P P1 P2 : A → Prop)
    `{!∀ x, Decision (P x)} `{!∀ x, Decision (P1 x)} `{!∀ x, Decision (P2 x)}
    (l : list A) :
  (∀ x, P x ↔ P1 x ∨ P2 x) → (∀ x, P1 x → P2 x → False) →
  filter P l ≡ₚ filter P1 l ++ filter P2 l.
Proof.
  intros Hor Hdisj. induction l as [|x l IH]; [reflexivity |].
  rewrite !filter_cons.
  destruct (decide (P1 x)) as [Hp1 | Hp1]; destruct (decide (P2 x)) as [Hp2 | Hp2].
  - exfalso. exact (Hdisj x Hp1 Hp2).
  - rewrite decide_True by (apply Hor; left; exact Hp1). simpl. rewrite IH. reflexivity.
  - rewrite decide_True by (apply Hor; right; exact Hp2).
    rewrite IH. apply Permutation_middle.
  - rewrite decide_False; [exact IH |]. rewrite Hor. tauto.
Qed.

Lemma elem_of_concat {A} (x : A) (ls : list (list A)) :
  x ∈ concat ls ↔ ∃ l, x ∈ l ∧ l ∈ ls.
Proof.
  induction ls as [|l ls IH]; simpl.
  - split; [intros H; apply elem_of_nil in H; contradiction |].
    intros (l & _ & H). apply elem_of_nil in H. contradiction.
  - rewrite elem_of_app, IH. split.
    + intros [H | (l' & H1 & H2)].
      * exists l. split; [exact H | apply list_elem_of_here].
      * exists l'. split; [exact H1 | apply list_elem_of_further, H2].
    + intros (l' & H1 & H2). apply elem_of_cons in H2 as [-> | H2].
      * left. exact H1.
      * right. exists l'. split; assumption.
Qed.

Lemma StronglySorted_weaken {A} (R R' : relation A) (l : list A) :
  (∀ x y, x ∈ l → y ∈ l → R x y → R' x y) →
  StronglySorted R l → StronglySorted R' l.
Proof.
  intros Himp Hs. induction Hs as [|x l Hl IH Hx]; [constructor |].
  constructor.
  - apply IH. intros a b Ha Hb. apply Himp; apply list_elem_of_further; assumption.
  - apply Forall_forall. intros y Hy.
    apply Himp; [apply list_elem_of_here | apply list_elem_of_further, Hy |].
    exact (proj1 (Forall_forall _ _) Hx y Hy).
Qed.

Lemma visible_blocks (l : list task) (sel : list string) (u : urgency) :
  NoDup sel →
  filter (λ t, t_matrixId t ∈ Some <$> sel ∧ t_urgency t = u
               ∧ t_status t ≠ Archived ∧ t_status t ≠ Deleted) l
  ≡ₚ concat ((λ id, scopeTasks l (Some id) u) <$> sel).
Proof.
  induction 1 as [|id rest Hid Hnd IH].
  - simpl. rewrite filter_none; [reflexivity |].
    intros t _ (H & _). simpl in H. apply elem_of_nil in H. exact H.
  - csimpl. rewrite <- IH.
    apply (filter_split_Permutation _
             (λ t, inScope (Some id) u t)
             (λ t, t_matrixId t ∈ Some <$> rest ∧ t_urgency t = u
                   ∧ t_status t ≠ Archived ∧ t_status t ≠ Deleted)).
    + intros t. rewrite inScope_true, elem_of_cons. unfold isLive.
      rewrite andb_True, !bool_decide_spec. split.
      * intros ([E | Hin] & Hu & Hs1 & Hs2); [left | right]; tauto.
      * intros [(E & Hu & Hs1 & Hs2) | (Hin & Hu & Hs1 & Hs2)].
        -- split; [left; exact E | tauto].
        -- split; [right; exact Hin | tauto].
    + intros t Hp1 (Hp2 & _). apply inScope_true in Hp1 as (E & _).
      rewrite E in Hp2. apply list_elem_of_fmap in Hp2 as (id' & [= ->] & Hin).
      contradiction.
Qed.

Section QuadrantView.
Variable localeCompare : string → string → Z.
Variables (s : app) (sel : list string) (u : urgency).
Hypothesis Hsel : NoDup sel.

Lemma visible_position t id :
  t_matrixId t = Some id → id ∈ sel →
  ∃ i, sel !! i = Some id ∧ indexOf id sel = Some i ∧ matrixPosition sel t = i.
Proof.
  intros Hm Hin. destruct (indexOf_elem id sel Hin) as [i Hi].
  exists i. split; [apply indexOf_Some, Hi |]. split; [exact Hi |].
  unfold matrixPosition. rewrite Hm. simpl. rewrite Hi. reflexivity.
Qed.

Lemma compareVisible_le a b :
  t_matrixId a ∈ Some <$> sel → t_matrixId b ∈ Some <$> sel →
  (compareVisible localeCompare (matrixOrder sel) (matrixNameById s) a b ≤ 0)%Z
  ↔ viewLe sel a b.
Proof.
  intros Ha Hb.
  apply list_elem_of_fmap in Ha as (ida & Ea & Ha).
  apply list_elem_of_fmap in Hb as (idb & Eb & Hb).
  destruct (visible_position a ida Ea Ha) as (i & Hi & Hia & Hpa).
  destruct (visible_position b idb Eb Hb) as (j & Hj & Hjb & Hpb).
  unfold compareVisible, viewLe. rewrite Hpa, Hpb, Ea, Eb. simpl.
  rewrite !matrixOrder_lookup by exact Hsel. rewrite Hia, Hjb. simpl.
  destruct (decide (Some ida ≠ Some idb)) as [Hne | He].
  - assert (i ≠ j) as Hij.
    { intros ->. apply Hne. rewrite Hi in Hj. exact Hj. }
    rewrite decide_True by exact Hij. split; [intros H; left; lia |].
    intros [H | [H _]]; lia.
  - rewrite compareTasks_le.
    assert (i = j) as ->.
    { apply dec_stable in He. injection He as ->. congruence. }
    split; [intros H; right; split; [reflexivity | exact H] |].
    intros [H | [_ H]]; [lia | exact H].
Qed.

Lemma quadrantByMatrix_sorted :
  StronglySorted (viewLe sel) (quadrantByMatrix (tasks s) sel u).
Proof.
  unfold quadrantByMatrix.
  assert (Hgen : ∀ pre sfx, sel = pre ++ sfx →
            StronglySorted (viewLe sel)
              (concat ((λ id, scopeGroup (tasks s) (Some id) u) <$> sfx))).
  2:{ apply (Hgen [] sel). reflexivity. }
  intros pre sfx. revert pre. induction sfx as [|id rest IH]; intros pre E.
  - constructor.
  - csimpl.
    assert (Hblock : ∀ id' t, id' ∈ id :: rest →
              t ∈ scopeGroup (tasks s) (Some id') u →
              ∃ i, sel !! i = Some id' ∧ matrixPosition sel t = i).
    { intros id' t Hin Ht.
      rewrite (proj2 (scopeGroup_sorted _ _ _)) in Ht.
      apply list_elem_of_filter in Ht as [Hs _].
      apply inScope_true in Hs as (Hm & _).
      destruct (visible_position t id' Hm) as (i & Hi & _ & Hp).
      { rewrite E. apply elem_of_app. right. exact Hin. }
      eauto. }
    assert (Hhere : sel !! length pre = Some id).
    { rewrite E. apply list_lookup_middle. reflexivity. }
    assert (Hpos : ∀ i id', sel !! i = Some id' → id' ∈ rest → length pre < i).
    { intros i id' Hi Hin.
      apply list_elem_of_lookup_1 in Hin as [j Hj].
      assert (sel !! (length pre + S j) = Some id') as Hi'.
      { rewrite E, lookup_app_r by lia.
        replace (length pre + S j - length pre) with (S j) by lia. exact Hj. }
      rewrite (NoDup_lookup sel i (length pre + S j) id' Hsel Hi Hi'). lia. }
    apply StronglySorted_app_2.
    + intros x y Hx Hy.
      apply elem_of_concat in Hy as (blk & Hy & Hblk).
      apply list_elem_of_fmap in Hblk as (id' & -> & Hin).
      destruct (Hblock id x (list_elem_of_here _ _) Hx) as (i & Hi & Hpx).
      destruct (Hblock id' y (list_elem_of_further _ _ _ Hin) Hy) as (j & Hj & Hpy).
      left. rewrite Hpx, Hpy.
      rewrite (NoDup_lookup sel i (length pre) id Hsel Hi Hhere).
      apply (Hpos j id' Hj Hin).
    + apply (StronglySorted_weaken canonicalLe); [| apply scopeGroup_sorted].
      intros x y Hx Hy Hxy. right. split; [| exact Hxy].
      destruct (Hblock id x (list_elem_of_here _ _) Hx) as (i & Hi & ->).
      destruct (Hblock id y (list_elem_of_here _ _) Hy) as (j & Hj & ->).
      rewrite (NoDup_lookup sel i (length pre) id Hsel Hi Hhere).
      rewrite (NoDup_lookup sel j (length pre) id Hsel Hj Hhere). reflexivity.
    + apply (IH (pre ++ [id])). rewrite E, <- app_assoc. reflexivity.
Qed.

End QuadrantView.

(** X23.  For a selection without repeats and a collection with pairwise
    distinct ids, the tasks shown in a quadrant are the canonical lists
    (by [order], then [id]) of the selected matrices for that urgency,
    one after the other in the order of the selection.  The comparison
    of matrix names through [localeCompare] never decides the
    result. *)
Theorem getVisibleTasksForQuadrant_blocks (localeCompare : string → string → Z)
    (s : app) (sel : list string) (u : urgency) :
  NoDup sel → NoDup (taskIds (tasks s)) →
  getVisibleTasksForQuadrant localeCompare s sel u
  = quadrantByMatrix (tasks s) sel u.
Proof.
  intros Hsel Hnd. unfold getVisibleTasksForQuadrant.
  set (visible := λ t : task,
         t_matrixId t ∈ Some <$> sel ∧ t_urgency t = u
         ∧ t_status t ≠ Archived ∧ t_status t ≠ Deleted).
  set (cmp := compareVisible localeCompare (matrixOrder sel) (matrixNameById s)).
  assert (Hperm : sortBy cmp (filter visible (tasks s))
                  ≡ₚ quadrantByMatrix (tasks s) sel u).
  { rewrite sortBy_Permutation. unfold visible.
    rewrite (visible_blocks _ _ _ Hsel). unfold quadrantByMatrix.
    clear. induction sel as [|id rest IH]; [reflexivity |]. csimpl.
    rewrite IH, (proj2 (scopeGroup_sorted _ _ _)). reflexivity. }
  apply (StronglySorted_unique_strong (viewLe sel)).
  - intros x y Hx Hy Hxy Hyx.
    rewrite sortBy_Permutation in Hx. rewrite <- Hperm, sortBy_Permutation in Hy.
    apply list_elem_of_filter in Hx as [_ Hx].
    apply list_elem_of_filter in Hy as [_ Hy].
    apply (NoDup_fmap_inj_on t_id (tasks s) x y Hnd Hx Hy).
    unfold viewLe, canonicalLe in *. lia.
  - apply (sortBy_sorted_on cmp (viewLe sel) (λ t, t_matrixId t ∈ Some <$> sel)).
    + intros a b. apply (compareVisible_le localeCompare s sel Hsel).
    + apply viewLe_total.
    + apply Forall_forall. intros t Ht. apply list_elem_of_filter in Ht as [Hv _].
      exact (proj1 Hv).
  - apply (quadrantByMatrix_sorted s sel u Hsel).
  - exact Hperm.
Qed.

Lemma getVisibleTasksForQuadrant_blocks_witness :
  taskIds (getVisibleTasksForQuadrant (λ _ _, 0%Z) twoMatrixState
             [ "work"; "personal" ] High)
  = [ 3%Z; 1%Z; 2%Z ].
Proof.
  assert (NoDup [ "work"; "personal" ]) as Hsel by compute_done.
  assert (NoDup (taskIds (tasks twoMatrixState))) as Hnd by compute_done.
  rewrite (getVisibleTasksForQuadrant_blocks (λ _ _, 0%Z) twoMatrixState
             [ "work"; "personal" ] High Hsel Hnd).
  reflexivity.
Defined.

